(** * arkit: the PlantUML generator (src/generator.ts)

    A shallow embedding of the [Generator] class: the component renderer,
    the connection resolver, the skin block, the export operation and the
    queue of remote conversions, together with the properties of the
    specification that concern them.

    JavaScript strings are modelled as [string], one [ascii] per code unit
    (code units below 256).  Numbers that are array lengths are [nat]. *)

From Stdlib Require Import Ascii String.
From stdpp Require Import list strings gmap.

Local Open Scope string_scope.

(** ** JavaScript string primitives used by the generator *)

Module JS.

Definition dquote : string := String (ascii_of_nat 34) EmptyString.
Definition newline : string := String (ascii_of_nat 10) EmptyString.

(** The class [\w] of a regular expression without the unicode flag:
    [A-Za-z0-9_]. *)
Definition is_word (c : ascii) : bool :=
  let n := nat_of_ascii c in
  (((48 <=? n) && (n <=? 57)) || ((65 <=? n) && (n <=? 90))
   || ((97 <=? n) && (n <=? 122)) || (n =? 95))%nat.

(** [s.replace(/[^\w]/g, '_')] *)
Fixpoint replace_nonword (s : string) : string :=
  match s with
  | EmptyString => EmptyString
  | String c r => String (if is_word c then c else "_"%char) (replace_nonword r)
  end.

(** [s.match(/\w{3}/)]: [None] is [null], [Some m] is the array whose
    element 0 is the matched text [m] (the leftmost match). *)
Fixpoint match_w3 (s : string) : option string :=
  match s with
  | String a (String b (String c _) as r) =>
      if is_word a && is_word b && is_word c
      then Some (String a (String b (String c EmptyString)))
      else match_w3 r
  | _ => None
  end.

(** [s.split(sep)] for a one-character separator. *)
Fixpoint split (sep : ascii) (s : string) : list string :=
  match s with
  | EmptyString => [EmptyString]
  | String c r =>
      if Ascii.eqb c sep then EmptyString :: split sep r
      else match split sep r with
           | [] => [String c EmptyString]
           | h :: t => String c h :: t
           end
  end.

(** [arr.join(sep)] *)
Definition join (sep : string) (l : list string) : string := String.concat sep l.

(** [s.endsWith(suffix)] *)
Definition endsWith (s suffix : string) : bool :=
  let n := String.length s in
  let m := String.length suffix in
  (m <=? n)%nat && String.eqb (substring (n - m) m s) suffix.

(** [s.startsWith(c)] for one character, i.e. [s.charCodeAt(0) === c]. *)
Definition startsWithChar (c : ascii) (s : string) : bool :=
  match s with
  | String a _ => Ascii.eqb a c
  | EmptyString => false
  end.

(** [s.repeat(n)] *)
Fixpoint repeat (s : string) (n : nat) : string :=
  match n with
  | O => EmptyString
  | S k => s ++ repeat s k
  end.

(** [s.replace(c, '')] with a string pattern: only the first occurrence
    of the character is removed. *)
Fixpoint remove_first (c : ascii) (s : string) : string :=
  match s with
  | EmptyString => EmptyString
  | String a r => if Ascii.eqb a c then r else String a (remove_first c r)
  end.

(** [hay.includes(needle)] on strings. *)
Fixpoint includes (hay needle : string) : bool :=
  String.prefix needle hay
  || match hay with
     | EmptyString => false
     | String _ r => includes r needle
     end.

(** [arr.includes(x)] on arrays of strings. *)
Definition array_includes (arr : list string) (x : string) : bool :=
  existsb (String.eqb x) arr.

(** [s.slice(0, n)] and [s.slice(n)] *)
Definition slice_to (s : string) (n : nat) : string := substring 0 n s.
Definition slice_from (s : string) (n : nat) : string :=
  substring n (String.length s - n) s.

Fixpoint chars (s : string) : list ascii :=
  match s with
  | EmptyString => []
  | String c r => c :: chars r
  end.

End JS.

(** ** Node's [path] module, POSIX flavour ([path.sep] is the slash)

    [path] belongs to the platform, not to the repository; the functions the
    generator calls are modelled after Node's documented behaviour.  The
    current working directory of the process is a parameter [cwd]. *)

Module Path.

Definition sep : ascii := "/"%char.

(** [normalizeString]: resolves [.] and [..] segments and drops empty
    ones; [allowAboveRoot] keeps leading [..] segments.  [acc] holds the
    segments kept so far, last one first. *)
Fixpoint normalize_segs (allowAboveRoot : bool) (acc : list string)
         (segs : list string) : list string :=
  match segs with
  | [] => rev acc
  | s :: rest =>
      if String.eqb s "" || String.eqb s "." then
        normalize_segs allowAboveRoot acc rest
      else if String.eqb s ".." then
        match acc with
        | top :: acc' =>
            if String.eqb top ".."
            then normalize_segs allowAboveRoot (".." :: acc) rest
            else normalize_segs allowAboveRoot acc' rest
        | [] =>
            if allowAboveRoot
            then normalize_segs allowAboveRoot [".."] rest
            else normalize_segs allowAboveRoot [] rest
        end
      else normalize_segs allowAboveRoot (s :: acc) rest
  end.

(** The right-to-left loop of [path.resolve]: arguments are prepended
    until an absolute one is met; empty arguments are skipped. *)
Fixpoint resolve_collect (args_rev : list string) (acc : string) : string * bool :=
  match args_rev with
  | [] => (acc, false)
  | p :: rest =>
      if String.eqb p "" then resolve_collect rest acc
      else
        let acc' := p ++ "/" ++ acc in
        if JS.startsWithChar sep p then (acc', true)
        else resolve_collect rest acc'
  end.

(** [path.resolve(...args)] *)
Definition resolve (cwd : string) (args : list string) : string :=
  let '(resolvedPath, resolvedAbsolute) := resolve_collect (rev (cwd :: args)) "" in
  let n := JS.join "/" (normalize_segs (negb resolvedAbsolute) [] (JS.split sep resolvedPath)) in
  if resolvedAbsolute then "/" ++ n
  else if String.eqb n "" then "." else n.

(** The segments of a resolved path. *)
Definition segments (p : string) : list string :=
  filter (λ s, s ≠ "") (JS.split sep p).

Fixpoint drop_common (a b : list string) : list string * list string :=
  match a, b with
  | x :: a', y :: b' => if String.eqb x y then drop_common a' b' else (a, b)
  | _, _ => (a, b)
  end.

(** [path.relative(from, to)]: both paths are resolved, their common
    leading segments dropped, and one [..] emitted per remaining segment
    of [from], followed by what remains of [to]. *)
Definition relative (cwd from to : string) : string :=
  if String.eqb from to then ""
  else
    let from' := resolve cwd [from] in
    let to' := resolve cwd [to] in
    if String.eqb from' to' then ""
    else
      let '(f, t) := drop_common (segments from') (segments to') in
      JS.join "/" (app (map (λ _, "..") f) t).

(** The backward scan of [path.dirname] over indices [len-1 .. 1]: the
    index of the first slash met after a non-slash character. *)
Fixpoint dirname_scan (rev_chars : list ascii) (i : nat) (matchedSlash : bool)
  : option nat :=
  match rev_chars with
  | [] => None
  | c :: rest =>
      if (i <? 1)%nat then None
      else if Ascii.eqb c sep then
        if negb matchedSlash then Some i
        else dirname_scan rest (i - 1) matchedSlash
      else dirname_scan rest (i - 1) false
  end.

(** [path.dirname(p)] *)
Definition dirname (p : string) : string :=
  if String.eqb p "" then "."
  else
    let hasRoot := JS.startsWithChar sep p in
    match dirname_scan (rev (JS.chars p)) (String.length p - 1) true with
    | None => if hasRoot then "/" else "."
    | Some e => if hasRoot && (e =? 1)%nat then "//" else JS.slice_to p e
    end.

(** [path.extname(p)] for a path without trailing slashes (the result of
    [resolve]): the text from the last dot of the last segment on, empty
    when there is no dot, when the only dot leads the segment, or when
    the segment is [..]. *)
Fixpoint last_dot (rev_chars : list ascii) (i : nat) : option nat :=
  match rev_chars with
  | [] => None
  | c :: rest =>
      if Ascii.eqb c "."%char then Some i else last_dot rest (i - 1)
  end.

Definition basename (p : string) : string := List.last (JS.split sep p) "".

Definition extname (p : string) : string :=
  let b := basename p in
  match last_dot (rev (JS.chars b)) (String.length b - 1) with
  | None => ""
  | Some i =>
      if (i =? 0)%nat || String.eqb b ".." then "" else JS.slice_from b i
  end.

End Path.

(** ** Data model (src/types.ts and src/schema.ts, as used by the generator) *)

(** A layer key is a layer name or the [EMPTY_LAYER] symbol. *)
Inductive Layer :=
| EMPTY_LAYER
| Named (layer : string).

#[global] Instance Layer_eq_dec : EqDecision Layer.
Proof. solve_decision. Defined.

(** The fields of a component that the generator reads. *)
Record Component := mkComponent {
  name : string;
  filename : string;
  layer : Layer;
  isImported : bool;
  imports : list string
}.

#[global] Instance Component_eq_dec : EqDecision Component.
Proof. solve_decision. Defined.

(** [Layers] is a [Map] from layer keys to [Set]s of components; both keep
    insertion order, which is the order of the lists. *)
Definition Layers := list (Layer * list Component).

Inductive Context := LAYER | RELATIONSHIP.

(** Modelled from the spec: [OutputDirection] is declared in src/schema.ts,
    which is not among the sources.  The spec gives an output an "optional
    explicit direction (horizontal/vertical)"; the two members are taken to
    be non-empty strings, so that a direction that is present is truthy. *)
Inductive OutputDirection := HORIZONTAL | VERTICAL.

(** The one field of [OutputSchema] read by the skin block; [None] is an
    absent ([undefined]) direction. *)
Record OutputSchema := mkOutput {
  direction : option OutputDirection
}.

(** Truthiness of [output.direction]. *)
Definition truthy_direction (d : option OutputDirection) : bool :=
  match d with
  | Some _ => true
  | None => false
  end.

(** Modelled from the spec: [getAllComponents] is a method of
    [GeneratorBase] (src/generator.base.ts), which is not among the sources.
    Per the spec it yields "the full flattened component set of the diagram
    (components across all layers, de-duplicated)".  The spec gives no
    meaning to the second argument the callers pass; it is accepted and
    not used. *)
Definition getAllComponents (layers : Layers) (sortByName : bool) : list Component :=
  remove_dups (flat_map snd layers).

(** ** The generator *)

Section Generator.

(** [process.cwd()], read by [path.resolve] and [path.relative]. *)
Variable cwd : string.

(** [generatePlantUMLComponent] *)
Definition generatePlantUMLComponent (component : Component) (context : Context)
  : string :=
  let isDirectory := JS.endsWith (filename component) "**" in
  let hasLayer := bool_decide (layer component ≠ EMPTY_LAYER) in
  let safeName := JS.replace_nonword (name component) in
  let puml : list string :=
    if isDirectory then ["[" ++ name component ++ "]"]
    else if hasLayer then ["(" ++ name component ++ ")"]
    else
      match context with
      | RELATIONSHIP => [safeName]
      | LAYER =>
          app ["rectangle " ++ JS.dquote]
            (app (if negb (isImported component) then ["<b>"] else [])
               (app [name component]
                  (app (if negb (isImported component) then ["</b>"] else [])
                     [JS.dquote ++ " as " ++ safeName])))
      end in
  JS.join "" puml.

(** [getConnectionLength] *)
Definition getConnectionLength (component importedComponent : Component) : nat :=
  let numberOfLevels :=
    length (JS.split Path.sep
              (Path.dirname
                 (Path.relative cwd (filename component) (filename importedComponent)))) in
  Nat.max (if isImported component then 2 else 1) (Nat.min 4 numberOfLevels).

(** [getConnectionSign] *)
Definition getConnectionSign (component importedComponent : Component) : string :=
  if negb (isImported component) then "="
  else if bool_decide (layer component = layer importedComponent)
          && bool_decide (layer component ≠ EMPTY_LAYER) then "."
  else "-".

(** The body of the inner loop of [generatePlantUMLRelationships]: the
    lines pushed for one import of one component. *)
Definition relationshipLines (components : list Component) (component : Component)
           (importedFilename : string) : list string :=
  match List.find (λ importedComponent,
                     String.eqb (filename importedComponent) importedFilename)
                  components with
  | Some importedComponent =>
      let connectionLength := getConnectionLength component importedComponent in
      let connectionSign := getConnectionSign component importedComponent in
      let connection := JS.repeat connectionSign connectionLength ++ ">" in
      let relationshipUML :=
        [ generatePlantUMLComponent component RELATIONSHIP;
          connection;
          generatePlantUMLComponent importedComponent RELATIONSHIP ] in
      [JS.join " " relationshipUML]
  | None => []
  end.

(** [generatePlantUMLRelationships] *)
Definition generatePlantUMLRelationships (layers : Layers) : string :=
  let components := getAllComponents layers true in
  let puml :=
    app [""]
        (flat_map (λ component,
                     flat_map (relationshipLines components component)
                              (imports component))
                  components) in
  JS.join JS.newline puml.

(** [generatePlantUMLSkinParams] *)
Definition generatePlantUMLSkinParams : string :=
"
skinparam monochrome true
skinparam shadowing false
skinparam nodesep 20
skinparam ranksep 20
skinparam defaultFontName Tahoma
skinparam defaultFontSize 12
skinparam roundCorner 4
skinparam dpi 150
skinparam arrowThickness 0.7
skinparam packageTitleAlignment left

' oval
skinparam usecase {
  borderThickness 0.4
  fontSize 12
}

' rectangle
skinparam rectangle {
  borderThickness 0.8
}

' component
skinparam component {
  borderThickness 1.2
}
".

(** The [direction] computed in [generatePlantUMLSkin].  The source reads
    [output.direction || n > 20 ? HORIZONTAL : VERTICAL]; the conditional
    binds weaker than [||], so its test is the whole disjunction. *)
Definition skinDirection (output : OutputSchema) (layers : Layers) : OutputDirection :=
  if truthy_direction (direction output)
     || (20 <? length (getAllComponents layers false))%nat
  then HORIZONTAL
  else VERTICAL.

(** [generatePlantUMLSkin] *)
Definition generatePlantUMLSkin (output : OutputSchema) (layers : Layers) : string :=
  let puml := [""; "scale max 1920 width"] in
  let puml :=
    match skinDirection output layers with
    | HORIZONTAL => app puml ["left to right direction"]
    | VERTICAL => app puml ["top to bottom direction"]
    end in
  let puml := app puml [generatePlantUMLSkinParams] in
  JS.join JS.newline puml.

End Generator.

(** ** Promises, the microtask queue and the process state

    Promises are cells of a store, addressed by their index; a promise is
    pending with the reactions registered on it, or settled.  The closures
    the generator passes to [then] and [catch] are listed by [callback],
    each with the variables it captures. *)

Abbreviation pid := nat (only parsing).

Inductive value :=
| VUndefined
| VString (s : string)
| VNumber (n : nat)
| VBuffer (data : string)
(** the string that a buffer of these bytes decodes to ([toString] reads
    the bytes as UTF-8; the decoding is not spelled out) *)
| VDecoded (bytes : string)
| VError (message : string).

Inductive settlement :=
| Fulfilled (v : value)
| Rejected (v : value).

Definition settled_value (s : settlement) : value :=
  match s with
  | Fulfilled v => v
  | Rejected v => v
  end.

Inductive callback :=
(** [() => this.request(`/${path[0]}`, puml).then(...).catch(...)], with
    [format] the matched text [path[0]] and [caller] the promise whose
    [resolve] the closure holds *)
| CbRequestJob (format puml : string) (caller : pid)
(** [result => resolve(result)] *)
| CbResolve (caller : pid)
(** [err => debug(err)] *)
| CbDebug
(** [image => { if (shouldConvertAndSave) {...}; return image.toString() }] *)
| CbSave (shouldConvertAndSave : bool) (fullExportPath : string)
(** [err => { throw err }] *)
| CbRethrow.

(** A reaction registered by [then] (only [on_fulfilled]), by [catch] (only
    [on_rejected]) or by the adoption of a returned promise (neither): it
    settles the promise [derived]. *)
Record reaction := Reaction {
  on_fulfilled : option callback;
  on_rejected : option callback;
  derived : pid
}.

Inductive promise :=
| Pending (reactions : list reaction)
| Settled (s : settlement).

(** An HTTPS request handed to the platform: its path, its body and the
    promise that [request] returned for it. *)
Record http_request := mkRequest {
  req_path : string;
  req_payload : string;
  req_promise : pid
}.

Inductive fs_op :=
| Unlink (path : string)
| WriteFile (path : string) (data : value).

Record state := mkState {
  promises : list promise;
  microtasks : list (reaction * settlement);
  requestChain : pid;
  network : list http_request;
  log : list (list value);
  files : gmap string value;
  fs_trace : list fs_op
}.

(** [requestChain: Promise<any> = Promise.resolve()] in a fresh process. *)
Definition init (fs : gmap string value) : state :=
  mkState [Settled (Fulfilled VUndefined)] [] 0 [] [] fs [].

(** *** The state monad of the generator's effectful code *)

Definition M (A : Type) : Type := state → A * state.

Definition ret {A} (a : A) : M A := λ st, (a, st).

Definition bind {A B} (m : M A) (k : A → M B) : M B :=
  λ st, let '(a, st') := m st in k a st'.

Declare Scope gen_scope.
Delimit Scope gen_scope with gen.
Notation "'let*' x ':=' m 'in' k" := (bind m (λ x, k))
  (at level 10, x name, m at level 100, k at level 200) : gen_scope.
Notation "m ;; k" := (bind m (λ _, k))
  (at level 100, k at level 200, right associativity) : gen_scope.

Definition set_promises (h : list promise) (st : state) : state :=
  mkState h (microtasks st) (requestChain st) (network st) (log st) (files st) (fs_trace st).

Definition set_microtasks (q : list (reaction * settlement)) (st : state) : state :=
  mkState (promises st) q (requestChain st) (network st) (log st) (files st) (fs_trace st).

Definition set_requestChain (c : pid) : M unit :=
  λ st, (tt, mkState (promises st) (microtasks st) c (network st) (log st) (files st) (fs_trace st)).

Definition get_requestChain : M pid := λ st, (requestChain st, st).

(** [new Promise(...)] before its executor runs. *)
Definition new_promise : M pid :=
  λ st, (length (promises st), set_promises (app (promises st) [Pending []]) st).

(** The [resolve] (with a value that is no promise) and [reject] functions
    of a promise: the first call settles it and queues its reactions, later
    calls do nothing. *)
Definition settle (p : pid) (s : settlement) : M unit :=
  λ st,
    match promises st !! p with
    | Some (Pending rs) =>
        (tt, set_microtasks (app (microtasks st) (map (λ rx, (rx, s)) rs))
               (set_promises (<[p := Settled s]> (promises st)) st))
    | _ => (tt, st)
    end.

(** Registering a reaction: kept on a pending promise, queued at once on a
    settled one. *)
Definition subscribe (p : pid) (rx : reaction) : M unit :=
  λ st,
    match promises st !! p with
    | Some (Pending rs) =>
        (tt, set_promises (<[p := Pending (app rs [rx])]> (promises st)) st)
    | Some (Settled s) =>
        (tt, set_microtasks (app (microtasks st) [(rx, s)]) st)
    | None => (tt, st)
    end.

(** [p.then(f)] and [p.catch(g)] *)
Definition then_ (p : pid) (f : callback) : M pid :=
  (let* d := new_promise in
   subscribe p (Reaction (Some f) None d) ;;
   ret d)%gen.

Definition catch_ (p : pid) (g : callback) : M pid :=
  (let* d := new_promise in
   subscribe p (Reaction None (Some g) d) ;;
   ret d)%gen.

(** [Promise.resolve(v)] *)
Definition promise_resolve (v : value) : M pid :=
  (let* p := new_promise in
   settle p (Fulfilled v) ;;
   ret p)%gen.

(** Modelled from the spec: [debug] comes from src/logger.ts, which is not
    among the sources ("process logging"); a call records its arguments. *)
Definition debug (args : list value) : M unit :=
  λ st, (tt, mkState (promises st) (microtasks st) (requestChain st) (network st)
               (app (log st) [args]) (files st) (fs_trace st)).

(** [fs.existsSync], [fs.unlinkSync], [fs.writeFileSync].  [files] maps the
    full paths at which a regular file exists to its content.  Directories
    and permissions are not represented: a state stands for a file system
    in which no directory sits at a path that is looked up and the process
    may write where it reads, and a call is taken not to throw.
    [unlinkSync] of a regular file that exists does not; [writeFileSync]
    does not when the directory of the path exists and the path is no
    directory, which the properties on the content of the files after an
    export state as a hypothesis ([file_place]). *)
Definition existsSync (path : string) : M bool :=
  λ st, (bool_decide (is_Some (files st !! path)), st).

Definition unlinkSync (path : string) : M unit :=
  λ st, (tt, mkState (promises st) (microtasks st) (requestChain st) (network st)
               (log st) (delete path (files st)) (app (fs_trace st) [Unlink path])).

Definition writeFileSync (path : string) (data : value) : M unit :=
  λ st, (tt, mkState (promises st) (microtasks st) (requestChain st) (network st)
               (log st) (<[path := data]> (files st))
               (app (fs_trace st) [WriteFile path data])).

(** [request]: the executor hands the request to [https] and returns; the
    promise is settled later, by the [end] or [error] event. *)
Definition request (path payload : string) : M pid :=
  (let* r := new_promise in
   (λ st, (tt, mkState (promises st) (microtasks st) (requestChain st)
                 (app (network st) [mkRequest path payload r])
                 (log st) (files st) (fs_trace st))) ;;
   ret r)%gen.

(** [convertToImage] *)
Definition convertToImage (puml format : string) : M pid :=
  (let* p := new_promise in
   match JS.match_w3 format with
   | None =>
       settle p (Rejected (VError ("Cannot identify image format from " ++ format))) ;;
       ret p
   | Some path0 =>
       let* chain := get_requestChain in
       let* chain' := then_ chain (CbRequestJob path0 puml p) in
       set_requestChain chain' ;;
       ret p
   end)%gen.

(** [image.length] and [image.toString()]: the number of bytes of the
    buffer, and the string that its bytes decode to. *)
Definition value_length (v : value) : value :=
  match v with
  | VBuffer d => VNumber (String.length d)
  | VString d => VNumber (String.length d)
  | _ => VUndefined
  end.

Definition value_toString (v : value) : value :=
  match v with
  | VBuffer d => VDecoded d
  | other => other
  end.

(** What a callback hands back to the promise machinery. *)
Inductive outcome :=
| Return (v : value)
| ReturnPromise (p : pid)
| Throw (v : value).

(** The bodies of the closures. *)
Definition run_callback (cb : callback) (arg : value) : M outcome :=
  match cb with
  | CbRequestJob path0 puml caller =>
      (let* r := request ("/" ++ path0) puml in
       let* d1 := then_ r (CbResolve caller) in
       let* d2 := catch_ d1 CbDebug in
       ret (ReturnPromise d2))%gen
  | CbResolve caller =>
      (settle caller (Fulfilled arg) ;;
       ret (Return VUndefined))%gen
  | CbDebug =>
      (debug [arg] ;;
       ret (Return VUndefined))%gen
  | CbSave shouldConvertAndSave fullExportPath =>
      ((if shouldConvertAndSave
        then debug [VString "Saving"; VString fullExportPath; value_length arg] ;;
             writeFileSync fullExportPath arg
        else ret tt) ;;
       ret (Return (value_toString arg)))%gen
  | CbRethrow => ret (Throw arg)
  end.

(** One promise reaction job.  A missing handler passes the settlement on;
    a handler that returns a promise makes the derived promise follow it
    (the job that the language queues to register the following is folded
    into the reaction: it runs before any event of the platform). *)
Definition run_reaction (rx : reaction) (s : settlement) : M unit :=
  let handler :=
    match s with
    | Fulfilled _ => on_fulfilled rx
    | Rejected _ => on_rejected rx
    end in
  match handler with
  | None => settle (derived rx) s
  | Some cb =>
      (let* o := run_callback cb (settled_value s) in
       match o with
       | Return v => settle (derived rx) (Fulfilled v)
       | Throw e => settle (derived rx) (Rejected e)
       | ReturnPromise q => subscribe q (Reaction None None (derived rx))
       end)%gen
  end.

(** ** The export operation *)

Section ExportOperation.

Variable cwd : string.
(** [this.config.directory] *)
Variable config_directory : string.
(** [Object.values(OutputFormat)]; the enumeration is declared in
    src/schema.ts, which is not among the sources. *)
Variable OutputFormat_values : list string.

Definition truthy_string (s : string) : bool := negb (String.eqb s "").

(** [convert] *)
Definition convert (pathOrType puml : string) : M pid :=
  let fullExportPath := Path.resolve cwd [config_directory; pathOrType] in
  let ext := Path.extname fullExportPath in
  let shouldConvertAndSave :=
    JS.array_includes OutputFormat_values (JS.remove_first "." ext) in
  let shouldConvertAndOutput := JS.array_includes OutputFormat_values pathOrType in
  (let* present := existsSync fullExportPath in
   (if present
    then debug [VString "Removing"; VString fullExportPath] ;;
         unlinkSync fullExportPath
    else ret tt) ;;
   if shouldConvertAndSave || shouldConvertAndOutput then
     debug [VString "Converting";
            VString (if truthy_string ext then fullExportPath else pathOrType)] ;;
     let* image := convertToImage puml (if truthy_string ext then ext else pathOrType) in
     let* saved := then_ image (CbSave shouldConvertAndSave fullExportPath) in
     catch_ saved CbRethrow
   else
     (if String.eqb ext ".puml"
      then debug [VString "Saving"; VString fullExportPath] ;;
           writeFileSync fullExportPath (VString puml)
      else ret tt) ;;
     promise_resolve (VString puml))%gen.

End ExportOperation.

(** ** The process as a transition system

    The clients of the generator export diagrams ([convert]) or ask for a
    conversion directly ([convertToImage]) at any moment; the event loop
    runs one queued reaction per tick; the platform reports the end of a
    response or a transport error for a request it was given. *)

Inductive event :=
| EvConvert (pathOrType puml : string)
| EvConvertToImage (puml format : string)
| EvTick
| EvResponse (r : pid) (chunks : list string)
| EvError (r : pid) (err : string).

Definition issued (st : state) (r : pid) : bool :=
  existsb (λ q, Nat.eqb (req_promise q) r) (network st).

(** A request is in flight while its promise is pending. *)
Definition in_flight (st : state) (q : http_request) : bool :=
  match promises st !! req_promise q with
  | Some (Pending _) => true
  | _ => false
  end.

Definition request_sig (q : http_request) : string * string := (req_path q, req_payload q).

(** The request that an accepted format string asks for. *)
Definition token_request (puml format : string) : list (string * string) :=
  match JS.match_w3 format with
  | Some path0 => [("/" ++ path0, puml)]
  | None => []
  end.

(** ** The queue behind the promise chain

    The reachable states of the transition system have a simple shape: the
    chain is idle (its last promise is fulfilled), or one job is being
    served while the later ones wait, each as the single reaction of its
    predecessor's promise.  Beside the chain, the continuations that
    [convert] attaches to the promise of a conversion run when that
    promise settles.  [machine] describes that shape; [Inv] ties it to the
    promise store. *)

(** The continuation that [convert] chains on the promise returned by
    [convertToImage]: [saved] is the result of [then], [final] the result
    of [catch], which [convert] returns. *)
Record cont := mkCont {
  k_save : bool;
  k_path : string;
  k_saved : pid;
  k_final : pid
}.

Record job := mkJob {
  j_format : string;
  j_puml : string;
  j_caller : pid;
  j_chain : pid;
  j_cont : option cont
}.

Definition job_rx (k : job) : reaction :=
  Reaction (Some (CbRequestJob (j_format k) (j_puml k) (j_caller k))) None (j_chain k).
Definition resolve_rx (caller d1 : pid) : reaction :=
  Reaction (Some (CbResolve caller)) None d1.
Definition debug_rx (d2 : pid) : reaction := Reaction None (Some CbDebug) d2.
Definition adopt_rx (c : pid) : reaction := Reaction None None c.
Definition save_rx (k : cont) : reaction :=
  Reaction (Some (CbSave (k_save k) (k_path k))) None (k_saved k).
Definition rethrow_rx (final : pid) : reaction := Reaction None (Some CbRethrow) final.

Definition job_sig (k : job) : string * string := ("/" ++ j_format k, j_puml k).
Definition job_request (k : job) (r : pid) : http_request :=
  mkRequest ("/" ++ j_format k) (j_puml k) r.

(** Where the job being served stands: its reaction is queued; its request
    is in flight ([r] the request's promise, [d1] the result of [then],
    [d2] the result of [catch]); the request has settled; [d1] has
    settled; [d2] has settled. *)
Inductive phase :=
| PQueued (v : value)
| PFlight (r d1 d2 : pid)
| PRSettled (d1 d2 : pid) (s : settlement)
| PD1Settled (d2 : pid) (s : settlement)
| PD2Settled (v : value).

Inductive shape :=
| Idle (v : value)
| Busy (j : job) (ph : phase) (waiting : list job).

(** A queued reaction of a continuation of [convert]. *)
Inductive qitem :=
| QSave (k : cont) (s : settlement)
| QRethrow (final : pid) (s : settlement).

Record machine := mkMachine {
  a_shape : shape;
  (** the queued reactions of continuations, before and after the queued
      reaction of the chain (if the chain has one) *)
  a_pre : list qitem;
  a_post : list qitem;
  (** callers whose request failed, with their continuation *)
  a_dead : list (pid * option cont);
  a_net : list http_request;
  (** the next free promise index *)
  a_next : nat
}.

Definition machine_init : machine := mkMachine (Idle VUndefined) [] [] [] [] 1.

Definition has_task (sh : shape) : bool :=
  match sh with
  | Idle _ => false
  | Busy _ (PFlight _ _ _) _ => false
  | Busy _ _ _ => true
  end.

Definition qitem_next (i : qitem) : list qitem :=
  match i with
  | QSave k (Fulfilled v) => [QRethrow (k_final k) (Fulfilled (value_toString v))]
  | QSave k (Rejected e) => [QRethrow (k_final k) (Rejected e)]
  | QRethrow _ _ => []
  end.

Definition cont_items (oc : option cont) (s : settlement) : list qitem :=
  match oc with
  | Some k => [QSave k s]
  | None => []
  end.

(** One tick spent on the reaction of the chain; [a_pre] is empty. *)
Definition chain_tick (a : machine) : machine :=
  match a_shape a with
  | Idle _ => a
  | Busy j ph w =>
      match ph with
      | PQueued _ =>
          mkMachine (Busy j (PFlight (a_next a) (a_next a + 1) (a_next a + 2)) w)
            (a_post a) [] (a_dead a)
            (app (a_net a) [job_request j (a_next a)]) (a_next a + 3)
      | PFlight _ _ _ => a
      | PRSettled d1 d2 (Fulfilled v) =>
          mkMachine (Busy j (PD1Settled d2 (Fulfilled VUndefined)) w)
            (app (a_post a) (cont_items (j_cont j) (Fulfilled v))) []
            (a_dead a) (a_net a) (a_next a)
      | PRSettled d1 d2 (Rejected e) =>
          mkMachine (Busy j (PD1Settled d2 (Rejected e)) w)
            (a_post a) [] (app (a_dead a) [(j_caller j, j_cont j)])
            (a_net a) (a_next a)
      | PD1Settled d2 (Fulfilled v) =>
          mkMachine (Busy j (PD2Settled v) w) (a_post a) [] (a_dead a) (a_net a) (a_next a)
      | PD1Settled d2 (Rejected _) =>
          mkMachine (Busy j (PD2Settled VUndefined) w) (a_post a) [] (a_dead a)
            (a_net a) (a_next a)
      | PD2Settled v =>
          mkMachine
            match w with
            | [] => Idle v
            | k :: w' => Busy k (PQueued v) w'
            end
            (a_post a) [] (a_dead a) (a_net a) (a_next a)
      end
  end.

Definition tick_machine (a : machine) : machine :=
  match a_pre a with
  | i :: pre =>
      mkMachine (a_shape a) pre (app (a_post a) (qitem_next i)) (a_dead a) (a_net a)
        (a_next a)
  | [] =>
      if has_task (a_shape a) then chain_tick a
      else
        match a_post a with
        | i :: post =>
            mkMachine (a_shape a) [] (app post (qitem_next i)) (a_dead a) (a_net a)
              (a_next a)
        | [] => a
        end
  end.

(** What a tick writes to the log. *)
Definition qitem_log (i : qitem) : list (list value) :=
  match i with
  | QSave k (Fulfilled v) =>
      if k_save k then [[VString "Saving"; VString (k_path k); value_length v]] else []
  | _ => []
  end.

Definition tick_log (a : machine) : list (list value) :=
  match a_pre a with
  | i :: _ => qitem_log i
  | [] =>
      match a_shape a with
      | Busy _ (PD1Settled _ (Rejected e)) _ => [[e]]
      | sh =>
          if has_task sh then []
          else match a_post a with
               | i :: _ => qitem_log i
               | [] => []
               end
      end
  end.

Definition settle_machine (a : machine) (r : pid) (s : settlement) : machine :=
  match a_shape a with
  | Busy j (PFlight r' d1 d2) w =>
      if Nat.eqb r r'
      then mkMachine (Busy j (PRSettled d1 d2 s) w) (app (a_pre a) (a_post a)) []
             (a_dead a) (a_net a) (a_next a)
      else a
  | _ => a
  end.

(** A job joins the queue; [n] is the number of promises that the caller
    allocates after those of [convertToImage]. *)
Definition enqueue_job (a : machine) (k : job) (n : nat) : machine :=
  match a_shape a with
  | Idle v =>
      mkMachine (Busy k (PQueued v) []) (app (a_pre a) (a_post a)) [] (a_dead a)
        (a_net a) (a_next a + 2 + n)
  | Busy j ph w =>
      mkMachine (Busy j ph (app w [k])) (a_pre a) (a_post a) (a_dead a)
        (a_net a) (a_next a + 2 + n)
  end.

Definition submit_machine (a : machine) (puml format : string) : machine :=
  match JS.match_w3 format with
  | None =>
      mkMachine (a_shape a) (a_pre a) (a_post a) (a_dead a) (a_net a) (a_next a + 1)
  | Some path0 =>
      enqueue_job a (mkJob path0 puml (a_next a) (a_next a + 1) None) 0
  end.

Section Process.

Variable cwd : string.
Variable config_directory : string.
Variable OutputFormat_values : list string.

(** The format string that [convert] hands to [convertToImage], if the
  destination asks for an image, with the arguments of the
  continuation. *)
Definition export_plan (pathOrType : string) : option (string * bool * string) :=
let fullExportPath := Path.resolve cwd [config_directory; pathOrType] in
let ext := Path.extname fullExportPath in
let shouldConvertAndSave :=
  JS.array_includes OutputFormat_values (JS.remove_first "." ext) in
let shouldConvertAndOutput := JS.array_includes OutputFormat_values pathOrType in
if shouldConvertAndSave || shouldConvertAndOutput
then Some (if truthy_string ext then ext else pathOrType,
           shouldConvertAndSave, fullExportPath)
else None.

Definition step (st : state) (ev : event) : state :=
match ev with
| EvConvert pathOrType puml =>
    snd (convert cwd config_directory OutputFormat_values pathOrType puml st)
| EvConvertToImage puml format => snd (convertToImage puml format st)
| EvTick =>
    match microtasks st with
    | [] => st
    | (rx, s) :: rest => snd (run_reaction rx s (set_microtasks rest st))
    end
| EvResponse r chunks =>
    if issued st r
    then snd (settle r (Fulfilled (VBuffer (String.concat "" chunks))) st)
    else st
| EvError r err =>
    if issued st r then snd (settle r (Rejected (VError err)) st) else st
end.

Definition run (st : state) (evs : list event) : state := fold_left step evs st.

(** The requests that the accepted submissions of a trace ask for, in
  submission order. *)
Definition accepted_request (ev : event) : list (string * string) :=
match ev with
| EvConvert pathOrType puml =>
    match export_plan pathOrType with
    | Some (format, _, _) => token_request puml format
    | None => []
    end
| EvConvertToImage puml format => token_request puml format
| _ => []
end.

Definition accepted (evs : list event) : list (string * string) :=
flat_map accepted_request evs.

(** A conversion is submitted with a format string either directly or by
  an export whose destination asks for an image. *)
Definition submitted (evs : list event) (puml format : string) : Prop :=
In (EvConvertToImage puml format) evs
∨ ∃ pathOrType save path,
    In (EvConvert pathOrType puml) evs
    ∧ export_plan pathOrType = Some (format, save, path).

Definition convert_machine (a : machine) (pathOrType puml : string) : machine :=
match export_plan pathOrType with
| None =>
    mkMachine (a_shape a) (a_pre a) (a_post a) (a_dead a) (a_net a) (a_next a + 1)
| Some (format, save, path) =>
    match JS.match_w3 format with
    | None =>
        mkMachine (a_shape a) (a_pre a)
          (app (a_post a)
             [QSave (mkCont save path (a_next a + 1) (a_next a + 2))
                (Rejected (VError ("Cannot identify image format from " ++ format)))])
          (a_dead a) (a_net a) (a_next a + 3)
    | Some path0 =>
        enqueue_job a
          (mkJob path0 puml (a_next a) (a_next a + 1)
             (Some (mkCont save path (a_next a + 2) (a_next a + 3))))
          2
    end
end.

Definition machine_step (a : machine) (ev : event) : machine :=
match ev with
| EvConvert pathOrType puml => convert_machine a pathOrType puml
| EvConvertToImage puml format => submit_machine a puml format
| EvTick => tick_machine a
| EvResponse r chunks => settle_machine a r (Fulfilled (VBuffer (String.concat "" chunks)))
| EvError r err => settle_machine a r (Rejected (VError err))
end.

Definition machine_run (a : machine) (evs : list event) : machine :=
fold_left machine_step evs a.

End Process.

(** The pending promises a machine accounts for, each with its reactions. *)
Definition cont_rx (oc : option cont) : list reaction :=
  match oc with
  | Some k => [save_rx k]
  | None => []
  end.

Definition cont_cells (oc : option cont) : list (pid * list reaction) :=
  match oc with
  | Some k => [(k_saved k, [rethrow_rx (k_final k)]); (k_final k, [])]
  | None => []
  end.

Definition caller_cells (p : pid) (oc : option cont) : list (pid * list reaction) :=
  (p, cont_rx oc) :: cont_cells oc.

Definition qitem_cells (i : qitem) : list (pid * list reaction) :=
  match i with
  | QSave k _ => [(k_saved k, [rethrow_rx (k_final k)]); (k_final k, [])]
  | QRethrow final _ => [(final, [])]
  end.

Definition qitem_task (i : qitem) : reaction * settlement :=
  match i with
  | QSave k s => (save_rx k, s)
  | QRethrow final s => (rethrow_rx final, s)
  end.

Fixpoint chain_cells (c : pid) (w : list job) : list (pid * list reaction) :=
  match w with
  | [] => [(c, [])]
  | k :: w' =>
      (c, [job_rx k]) :: app (caller_cells (j_caller k) (j_cont k))
                             (chain_cells (j_chain k) w')
  end.

Fixpoint last_chain (c : pid) (w : list job) : pid :=
  match w with
  | [] => c
  | k :: w' => last_chain (j_chain k) w'
  end.

Definition phase_cells (j : job) (ph : phase) : list (pid * list reaction) :=
  match ph with
  | PQueued _ => caller_cells (j_caller j) (j_cont j)
  | PFlight r d1 d2 =>
      app (caller_cells (j_caller j) (j_cont j))
          [(r, [resolve_rx (j_caller j) d1]); (d1, [debug_rx d2]);
           (d2, [adopt_rx (j_chain j)])]
  | PRSettled d1 d2 _ =>
      app (caller_cells (j_caller j) (j_cont j))
          [(d1, [debug_rx d2]); (d2, [adopt_rx (j_chain j)])]
  | PD1Settled d2 _ => [(d2, [adopt_rx (j_chain j)])]
  | PD2Settled _ => []
  end.

Definition shape_cells (sh : shape) : list (pid * list reaction) :=
  match sh with
  | Idle _ => []
  | Busy j ph w => app (phase_cells j ph) (chain_cells (j_chain j) w)
  end.

Definition dead_cells (dead : list (pid * option cont)) : list (pid * list reaction) :=
  flat_map (λ d, caller_cells (fst d) (snd d)) dead.

Definition cells (a : machine) : list (pid * list reaction) :=
  app (dead_cells (a_dead a))
      (app (flat_map qitem_cells (app (a_pre a) (a_post a)))
           (shape_cells (a_shape a))).

Definition tasks (sh : shape) : list (reaction * settlement) :=
  match sh with
  | Idle _ => []
  | Busy j ph w =>
      match ph with
      | PQueued v => [(job_rx j, Fulfilled v)]
      | PFlight _ _ _ => []
      | PRSettled d1 d2 s => [(resolve_rx (j_caller j) d1, s)]
      | PD1Settled d2 s => [(debug_rx d2, s)]
      | PD2Settled v => [(adopt_rx (j_chain j), Fulfilled v)]
      end
  end.

Definition queue (a : machine) : list (reaction * settlement) :=
  app (map qitem_task (a_pre a))
      (app (tasks (a_shape a)) (map qitem_task (a_post a))).

Definition flying (sh : shape) : option pid :=
  match sh with
  | Busy _ (PFlight r _ _) _ => Some r
  | _ => None
  end.

(** The requests accepted and not yet handed to the platform. *)
Definition pending_sigs (sh : shape) : list (string * string) :=
  match sh with
  | Idle _ => []
  | Busy j (PQueued _) w => job_sig j :: map job_sig w
  | Busy j _ w => map job_sig w
  end.

Definition heap_has (h : list promise) (cs : list (pid * list reaction)) : Prop :=
  NoDup cs.*1 ∧ ∀ p rs, (p, rs) ∈ cs → h !! p = Some (Pending rs).

Definition settled_in (h : list promise) (p : pid) : Prop :=
  ∃ s, h !! p = Some (Settled s).

Definition net_ok (h : list promise) (sh : shape) (net : list http_request) : Prop :=
  match flying sh with
  | Some r =>
      ∃ old q, net = app old [q] ∧ req_promise q = r
               ∧ Forall (λ q', settled_in h (req_promise q')) old
  | None => Forall (λ q', settled_in h (req_promise q')) net
  end.

Record Inv (a : machine) (st : state) : Prop := mkInv {
  inv_heap : heap_has (promises st) (cells a);
  inv_tasks : microtasks st = queue a;
  inv_chain :
    match a_shape a with
    | Idle v => promises st !! requestChain st = Some (Settled (Fulfilled v))
    | Busy j _ w => requestChain st = last_chain (j_chain j) w
    end;
  inv_net : net_ok (promises st) (a_shape a) (network st);
  inv_network : network st = a_net a;
  inv_next : length (promises st) = a_next a
}.

(** The requests handed to the platform, followed by those still queued,
    are the accepted submissions in their order. *)
Definition fifo (a : machine) (sigs : list (string * string)) : Prop :=
  app (map request_sig (a_net a)) (pending_sigs (a_shape a)) = sigs.

(** A caller is doomed when the request made for it has been rejected:
    nothing is left that could settle its promise, and the continuation
    [oc] that [convert] attached to it stays where it is. *)
Definition doomed (a : machine) (p : pid) (oc : option cont) : Prop :=
  (p, oc) ∈ a_dead a
  ∨ ∃ j d1 d2 e w, a_shape a = Busy j (PRSettled d1 d2 (Rejected e)) w
                   ∧ j_caller j = p ∧ j_cont j = oc.

(** A path segment: a string without the separator. *)
Definition no_sep (s : string) : Prop := Forall (λ c, c ≠ "/"%char) (JS.chars s).

(** A plain file or directory name: a non-empty segment other than [.]
    and [..]. *)
Definition plain_name (s : string) : Prop :=
  no_sep s ∧ s ≠ "" ∧ s ≠ "." ∧ s ≠ "..".

(** ** Words of the specification, stated independently of the code *)

(** A string holds a three-character format token when three consecutive
    characters of it are word characters. *)
Definition word3 (m : string) : Prop :=
  ∃ a b c, m = String a (String b (String c EmptyString))
           ∧ JS.is_word a = true ∧ JS.is_word b = true ∧ JS.is_word c = true.

Definition has_format_token (format : string) : Prop :=
  ∃ pre m post, format = pre ++ m ++ post ∧ word3 m.

(** [m] is the first such token of [format]: no token starts before it. *)
Definition first_format_token (format m : string) : Prop :=
  ∃ pre post, format = pre ++ m ++ post ∧ word3 m
    ∧ ∀ pre' m' post', format = pre' ++ m' ++ post' → word3 m' →
        (String.length pre ≤ String.length pre')%nat.

(** A label is emphasized in a token when the token shows it in bold. *)
Definition emphasized (label token : string) : bool :=
  JS.includes token ("<b>" ++ label ++ "</b>").

(** The lines of a block of text. *)
Definition lines (text : string) : list string := JS.split (ascii_of_nat 10) text.

(** ** Concrete inputs used below *)

Definition comp_b : Component := mkComponent "a/b.ts" "a/b.ts" EMPTY_LAYER false ["a/c.ts"].
Definition comp_c : Component := mkComponent "a/c.ts" "a/c.ts" EMPTY_LAYER false [].
Definition two_files : Layers := [(EMPTY_LAYER, [comp_b; comp_c])].

(** ** The layer block, the document and the run over the outputs *)

(** [`${layer}`] for a layer name; the template is evaluated for names
    only. *)
Definition layer_text (layer : Layer) : string :=
  match layer with
  | Named l => l
  | EMPTY_LAYER => ""
  end.

(** [generatePlantUMLLayer] *)
Definition generatePlantUMLLayer (layer : Layer) (components : list Component) : string :=
  if (length components =? 0)%nat then ""
  else
    let isLayer := bool_decide (layer ≠ EMPTY_LAYER) in
    let puml := [""] in
    let puml :=
      if isLayer
      then app puml ["package " ++ JS.dquote ++ layer_text layer ++ JS.dquote ++ " {"]
      else puml in
    let puml :=
      app puml
        (map (λ component,
                let componentPuml := [generatePlantUMLComponent component LAYER] in
                let componentPuml :=
                  if isLayer then "  " :: componentPuml else componentPuml in
                JS.join "" componentPuml)
             components) in
    let puml := if isLayer then app puml ["}"] else puml in
    JS.join JS.newline puml.

(** The lines that [generatePlantUMLRelationships] pushes after the first,
    empty one. *)
Definition relationshipConnectors (cwd : string) (layers : Layers) : list string :=
  let components := getAllComponents layers true in
  flat_map (λ component,
              flat_map (relationshipLines cwd components component) (imports component))
           components.

(** [components.find(c => c.filename === importedFilename)] *)
Definition findByFilename (components : list Component) (importedFilename : string)
  : option Component :=
  List.find (λ importedComponent, String.eqb (filename importedComponent) importedFilename)
            components.

(** The connector line of a component and the component it imports. *)
Definition connectorLine (cwd : string) (component importedComponent : Component) : string :=
  generatePlantUMLComponent component RELATIONSHIP ++ " "
  ++ JS.repeat (getConnectionSign component importedComponent)
       (getConnectionLength cwd component importedComponent) ++ "> "
  ++ generatePlantUMLComponent importedComponent RELATIONSHIP.

(** A component is grouped when it is a directory aggregate or belongs to
    a named layer. *)
Definition grouped (c : Component) : bool :=
  JS.endsWith (filename c) "**" || bool_decide (layer c ≠ EMPTY_LAYER).

Section Document.

Variable cwd : string.

(** The methods of [GeneratorBase] (src/generator.base.ts, not among the
    sources) that [generatePlantUML] calls, and the type of the component
    maps they exchange. *)
Variable Components : Type.
Variable generateComponents : OutputSchema → Components.
Variable resolveConflictingComponentNames : Components → Components.
Variable sortComponentsByName : Components → Components.
Variable generateLayers : OutputSchema → Components → Layers.

(** The layers that [generatePlantUML] renders. *)
Definition outputLayers (output : OutputSchema) : Layers :=
  let components :=
    sortComponentsByName (resolveConflictingComponentNames (generateComponents output)) in
  generateLayers output components.

(** [generatePlantUML]: the text it returns.  The calls of [info] and
    [trace] (src/logger.ts) write to the process log and have no part in
    the text. *)
Definition generatePlantUML (output : OutputSchema) : string :=
  let layers := outputLayers output in
  let puml := ["@startuml"] in
  let puml := app puml [generatePlantUMLSkin output layers] in
  let puml :=
    app puml (map (λ entry, generatePlantUMLLayer (fst entry) (snd entry)) layers) in
  let puml := app puml [generatePlantUMLRelationships cwd layers] in
  let puml := app puml [""] in
  let puml := app puml ["@enduml"] in
  JS.join JS.newline puml.

End Document.

(** ** Notions used to state properties of the queue *)

(** An operation leaves the settled promises as they are. *)
Definition preserves_settled {A} (m : M A) : Prop :=
  ∀ st p s,
    promises st !! p = Some (Settled s) → promises (m st).2 !! p = Some (Settled s).

(** What the platform answers to a request: the chunks of a response, or
    a transport error. *)
Inductive answer :=
| Chunks (chunks : list string)
| Failure (err : string).

Definition answer_event (r : pid) (a : answer) : event :=
  match a with
  | Chunks chunks => EvResponse r chunks
  | Failure err => EvError r err
  end.

Definition is_answer_to (r : pid) (ev : event) : bool :=
  match ev with
  | EvResponse r' _ => Nat.eqb r r'
  | EvError r' _ => Nat.eqb r r'
  | _ => false
  end.

(** The work that a queue still has to do: the reactions still to run and
    the answers still to come. *)
Definition qitem_weight (i : qitem) : nat :=
  match i with
  | QSave _ _ => 2
  | QRethrow _ _ => 1
  end.

Definition cont_weight (oc : option cont) : nat :=
  match oc with
  | Some _ => 2
  | None => 0
  end.

Definition job_weight (k : job) : nat := 5 + cont_weight (j_cont k).

Definition phase_weight (j : job) (ph : phase) : nat :=
  match ph with
  | PQueued _ => 5 + cont_weight (j_cont j)
  | PFlight _ _ _ => 4 + cont_weight (j_cont j)
  | PRSettled _ _ _ => 3 + cont_weight (j_cont j)
  | PD1Settled _ _ => 2
  | PD2Settled _ => 1
  end.

Definition outstanding (a : machine) : nat :=
  sum_list (map qitem_weight (app (a_pre a) (a_post a)))
  + match a_shape a with
    | Idle _ => 0
    | Busy j ph w => phase_weight j ph + sum_list (map job_weight w)
    end.

(** ** Notions used to state what the exports do to the file system *)

Definition op_path (op : fs_op) : string :=
  match op with
  | Unlink path => path
  | WriteFile path _ => path
  end.

(** The resolved destinations of the exports of a trace. *)
Definition destinations (cwd config_directory : string) (evs : list event) : list string :=
  flat_map (λ ev, match ev with
                  | EvConvert pathOrType _ => [Path.resolve cwd [config_directory; pathOrType]]
                  | _ => []
                  end) evs.

(** The saving callbacks of a reaction, of a promise and of a state write
    to paths of [D] only. *)
Definition callback_within (D : list string) (cb : option callback) : Prop :=
  ∀ b path, cb = Some (CbSave b path) → path ∈ D.

Definition rx_within (D : list string) (rx : reaction) : Prop :=
  callback_within D (on_fulfilled rx) ∧ callback_within D (on_rejected rx).

Definition promise_within (D : list string) (pr : promise) : Prop :=
  match pr with
  | Pending rs => Forall (rx_within D) rs
  | Settled _ => True
  end.

Definition saves_within (D : list string) (st : state) : Prop :=
  Forall (promise_within D) (promises st)
  ∧ Forall (λ x, rx_within D (fst x)) (microtasks st).

(** An operation keeps the saving callbacks within [D] and touches files
    of [D] only. *)
Definition frame {A} (D : list string) (m : M A) : Prop :=
  ∀ st, saves_within D st →
    saves_within D (m st).2
    ∧ (∀ q, q ∉ D → files (m st).2 !! q = files st !! q)
    ∧ ∃ ops, fs_trace (m st).2 = app (fs_trace st) ops
             ∧ Forall (λ op, op_path op ∈ D) ops.

(** ** The run over the configured outputs *)

(** [output.path]: absent, one destination, or an array of destinations. *)
Inductive OutputPath :=
| PathAbsent
| PathString (s : string)
| PathArray (l : list string).

(** An element of [config.outputs]: the fields read by the skin block,
    and the [path] field read by [generate]. *)
Record ConfiguredOutput := mkConfiguredOutput {
  output_schema : OutputSchema;
  output_path : OutputPath
}.

(** [output.path && output.path.length]: an absent path, the empty string
    and the empty array are falsy. *)
Definition path_given (p : OutputPath) : bool :=
  match p with
  | PathAbsent => false
  | PathString s => negb (String.length s =? 0)%nat
  | PathArray l => negb (length l =? 0)%nat
  end.

(** Modelled from the spec: [array] comes from src/utils.ts, which is not
    among the sources.  The spec has an output carry "zero or more
    destination path-or-format strings" and an export submitted "for each
    configured destination": a string is one destination, an array its
    elements. *)
Definition array (p : OutputPath) : list string :=
  match p with
  | PathAbsent => []
  | PathString s => [s]
  | PathArray l => l
  end.

Definition attribution : string :=
  JS.newline ++ JS.newline ++ "' View and edit on https://arkit.herokuapp.com".

Section Generate.

Variable cwd : string.
Variable config_directory : string.
Variable OutputFormat_values : list string.
Variable Components : Type.
Variable generateComponents : OutputSchema → Components.
Variable resolveConflictingComponentNames : Components → Components.
Variable sortComponentsByName : Components → Components.
Variable generateLayers : OutputSchema → Components → Layers.

(** The text that [generate] exports for an output. *)
Definition outputText (output : ConfiguredOutput) : string :=
  generatePlantUML cwd Components generateComponents resolveConflictingComponentNames
    sortComponentsByName generateLayers (output_schema output)
  ++ attribution.

(** The loop [for (const outputPath of array(output.path)!)]. *)
Fixpoint pushExports (puml : string) (outputPaths : list string) (promises : list pid)
  : M (list pid) :=
  match outputPaths with
  | [] => ret promises
  | outputPath :: rest =>
      (let* p := convert cwd config_directory OutputFormat_values outputPath puml in
       pushExports puml rest (app promises [p]))%gen
  end.

(** [generate], up to the array of promises that it hands to
    [Promise.all]: the [reduce] over [config.outputs], [promises] being
    the accumulator. *)
Fixpoint generateExports (outputs : list ConfiguredOutput) (promises : list pid)
  : M (list pid) :=
  match outputs with
  | [] => ret promises
  | output :: rest =>
      let puml := outputText output in
      (let* promises :=
         if path_given (output_path output)
         then pushExports puml (array (output_path output)) promises
         else
           let* p := convert cwd config_directory OutputFormat_values "svg" puml in
           ret (app promises [p]) in
       generateExports rest promises)%gen
  end.

(** The destinations of an output, and the exports of a configuration as
    events of the process. *)
Definition outputDestinations (output : ConfiguredOutput) : list string :=
  if path_given (output_path output) then array (output_path output) else ["svg"].

Definition exportEvents (outputs : list ConfiguredOutput) : list event :=
  flat_map (λ output, map (λ d, EvConvert d (outputText output)) (outputDestinations output))
           outputs.

End Generate.

(** ** Notions used to state what an export does *)



(** A reaction is registered on a promise: it is the reaction waiting on
    the pending promise, or the promise is settled and the reaction is
    the last one queued, with the settlement of the promise. *)
Definition registered (st : state) (p : pid) (rx : reaction) : Prop :=
  promises st !! p = Some (Pending [rx])
  ∨ ∃ s q, promises st !! p = Some (Settled s) ∧ microtasks st = app q [(rx, s)].

(** A format name made of word characters, three at least, as [svg] and
    [png] are. *)
Definition word_name (f : string) : Prop :=
  (3 ≤ String.length f)%nat ∧ Forall (λ c, JS.is_word c = true) (JS.chars f).

(** ** Several generators in one process

    [requestChain] is a field of the generator: each instance has its own
    chain, while the promises, the event loop and the platform are those
    of the process.  The [requestChain] field of a [state] is the chain of
    the generator whose method runs. *)



(** * Properties *)

(** ** Strings *)

Lemma app_nil_l_s (s : string) : "" ++ s = s.
Proof. reflexivity. Qed.

Lemma app_cons_s (c : ascii) (s t : string) : String c s ++ t = String c (s ++ t).
Proof. reflexivity. Qed.

Lemma app_nil_r_s (s : string) : s ++ "" = s.
Proof. induction s as [|c s IH]; [done |]. by rewrite app_cons_s, IH. Qed.

Lemma length_append (s t : string) :
  String.length (s ++ t) = (String.length s + String.length t)%nat.
Proof. induction s as [|c s IH]; simpl; [done | by rewrite IH]. Qed.

Lemma includes_length (hay needle : string) :
  JS.includes hay needle = true → (String.length needle ≤ String.length hay)%nat.
Proof.
  induction hay as [|c hay IH]; simpl.
  - destruct needle; simpl; [lia | done].
  - intros [H | H]%orb_true_iff; [| apply IH in H; lia].
    destruct needle as [|c' needle]; simpl in *; [lia |].
    destruct (ascii_dec c' c); [| done].
    clear IH. revert hay H. induction needle as [|a needle IH]; intros hay H; simpl; [lia |].
    destruct hay as [|b hay]; simpl in H; [done |].
    destruct (ascii_dec a b); [| done]. apply IH in H. simpl in *. lia.
Qed.

Lemma prefix_append (s t : string) : String.prefix s (s ++ t) = true.
Proof.
  induction s as [|c s IH]; simpl; [by destruct t |].
  destruct (ascii_dec c c); [done | congruence].
Qed.

Lemma includes_unfold (hay needle : string) :
  JS.includes hay needle =
    String.prefix needle hay
    || match hay with
       | EmptyString => false
       | String _ r => JS.includes r needle
       end.
Proof. by destruct hay. Qed.

Lemma includes_append (pre needle post : string) :
  JS.includes (pre ++ needle ++ post) needle = true.
Proof.
  induction pre as [|c pre IH]; simpl.
  - rewrite app_nil_l_s, includes_unfold, prefix_append. done.
  - rewrite ?app_cons_s. simpl. rewrite IH. apply orb_true_r.
Qed.

(** ** The component renderer *)


Lemma join_nil_sep (l : list string) : JS.join "" l = fold_right String.append "" l.
Proof.
  induction l as [|x l IH]; [done |].
  unfold JS.join in *. simpl. destruct l as [|y l]; [by rewrite app_nil_r_s |].
  simpl in *. by rewrite IH.
Qed.

Lemma app_assoc_s (s t u : string) : (s ++ t) ++ u = s ++ t ++ u.
Proof. induction s as [|c s IH]; [done |]. by rewrite !app_cons_s, IH. Qed.

Lemma chars_append (s t : string) : JS.chars (s ++ t) = app (JS.chars s) (JS.chars t).
Proof. induction s as [|c s IH]; [done |]. rewrite app_cons_s. simpl. by rewrite IH. Qed.

Lemma chars_length (s : string) : length (JS.chars s) = String.length s.
Proof. induction s as [|c s IH]; simpl; [done | by rewrite IH]. Qed.

Lemma prefix_chars (s t : string) :
  String.prefix s t = true → ∃ post, JS.chars t = app (JS.chars s) post.
Proof.
  revert t. induction s as [|c s IH]; intros t H; simpl; [by eexists |].
  destruct t as [|c' t]; simpl in H; [done |].
  destruct (ascii_dec c c') as [->|]; [| done].
  apply IH in H as [post H]. simpl. rewrite H. by eexists.
Qed.

Lemma includes_chars (hay needle : string) :
  JS.includes hay needle = true →
  ∃ pre post, JS.chars hay = app pre (app (JS.chars needle) post).
Proof.
  induction hay as [|c hay IH]; rewrite includes_unfold.
  - rewrite orb_false_r. intros [post H]%prefix_chars. by exists [], post.
  - intros [H | H]%orb_true_iff.
    + apply prefix_chars in H as [post H]. by exists [], post.
    + apply IH in H as (pre & post & H). exists (c :: pre), post. simpl. by rewrite H.
Qed.

Lemma replace_nonword_chars (s : string) :
  Forall (λ c, JS.is_word c = true) (JS.chars (JS.replace_nonword s)).
Proof.
  induction s as [|c s IH]; simpl; constructor; [| done].
  destruct (JS.is_word c) eqn:E; [done | reflexivity].
Qed.

Lemma replace_nonword_length (s : string) :
  String.length (JS.replace_nonword s) = String.length s.
Proof. induction s as [|c s IH]; simpl; [done | by rewrite IH]. Qed.

(** ** The component renderer *)

(** The three shapes of a declaration token. *)
Lemma component_token_layer (c : Component) :
  generatePlantUMLComponent c LAYER =
    if JS.endsWith (filename c) "**" then "[" ++ name c ++ "]"
    else if bool_decide (layer c ≠ EMPTY_LAYER) then "(" ++ name c ++ ")"
    else if isImported c
         then "rectangle " ++ JS.dquote ++ name c ++ JS.dquote ++ " as "
              ++ JS.replace_nonword (name c)
         else "rectangle " ++ JS.dquote ++ "<b>" ++ name c ++ "</b>" ++ JS.dquote
              ++ " as " ++ JS.replace_nonword (name c).
Proof.
  unfold generatePlantUMLComponent. rewrite join_nil_sep.
  destruct (JS.endsWith _ _); [by simpl; rewrite app_nil_r_s |].
  destruct (bool_decide _); [by simpl; rewrite app_nil_r_s |].
  destruct (isImported c); simpl; by rewrite app_nil_r_s, !app_assoc_s.
Qed.

Lemma short_token_not_emphasized (label l r : string) :
  (String.length l + String.length r < 7)%nat →
  emphasized label (l ++ label ++ r) = false.
Proof.
  intros Hlen. unfold emphasized.
  destruct (JS.includes _ _) eqn:E; [| done].
  apply includes_length in E. rewrite !length_append in E. simpl in E. lia.
Qed.

(** The plain declaration [rectangle "N" as ID] never shows [<b>N</b>]:
    the closing [>] would have to fall inside the identifier. *)
Lemma plain_rectangle_not_emphasized (n : string) :
  emphasized n ("rectangle " ++ JS.dquote ++ n ++ JS.dquote ++ " as "
                ++ JS.replace_nonword n) = false.
Proof.
  unfold emphasized. destruct (JS.includes _ _) eqn:E; [| done]. exfalso.
  apply includes_chars in E as (pre & post & E).
  rewrite !chars_append in E.
  pose proof (replace_nonword_chars n) as HS.
  pose proof (chars_length (JS.replace_nonword n)) as HSl.
  rewrite replace_nonword_length, <- (chars_length n) in HSl.
  set (Sn := JS.chars (JS.replace_nonword n)) in *.
  set (N := JS.chars n) in *.
  change (JS.chars "<b>") with ["<"; "b"; ">"]%char in E.
  change (JS.chars "</b>") with ["<"; "/"; "b"; ">"]%char in E.
  change (JS.chars "rectangle ") with (JS.chars "rectangle ") in E.
  pose proof (f_equal length E) as Hlen.
  rewrite !length_app in Hlen. simpl in Hlen.
  (* the opening bracket cannot lie in the fixed prefix *)
  assert (Hpre : (11 ≤ length pre)%nat).
  { pose proof (f_equal (λ l, l !! length pre) E) as H0. simpl in H0.
    rewrite (lookup_app_r pre), Nat.sub_diag in H0 by lia. simpl in H0.
    destruct (length pre) as [|k]; [done |].
    do 10 (destruct k as [|k]; [done |]). lia. }
  (* so the closing bracket lies in the identifier *)
  pose proof (f_equal (λ l, l !! (length pre + length N + 6)%nat) E) as H1.
  cbv beta in H1.
  rewrite (lookup_app_r pre) in H1 by lia.
  rewrite (lookup_app_l _ post) in H1 by (rewrite !length_app; simpl; lia).
  rewrite (lookup_app_r ["<"; "b"; ">"]%char) in H1 by (simpl; lia).
  rewrite (lookup_app_r N) in H1 by (simpl; lia).
  replace (length pre + length N + 6 - length pre
           - length ["<"; "b"; ">"]%char - length N)%nat with 3%nat in H1
    by (simpl; lia).
  rewrite (lookup_app_r (JS.chars "rectangle ")) in H1 by (simpl; lia).
  rewrite (lookup_app_r (JS.chars JS.dquote)) in H1 by (simpl; lia).
  rewrite (lookup_app_r N) in H1 by (simpl; lia).
  rewrite (lookup_app_r (JS.chars JS.dquote)) in H1 by (simpl; lia).
  rewrite (lookup_app_r (JS.chars " as ")) in H1 by (simpl; lia).
  eapply Forall_lookup_1 in HS; [| exact H1]. done.
Qed.

(** C4, as amended: in LAYER context a component that is neither a
    directory aggregate nor in a named layer is declared as
    [rectangle "<b>name</b>" as id] when it is not import-only, and as
    [rectangle "name" as id], its label not emphasized, when it is; a
    directory aggregate renders as [[name]] and a layered component as
    [(name)], with no emphasis whatever [isImported] is. *)
Theorem layer_token_emphasis (c : Component) :
  let token := generatePlantUMLComponent c LAYER in
  if JS.endsWith (filename c) "**"
  then token = "[" ++ name c ++ "]" ∧ emphasized (name c) token = false
  else if bool_decide (layer c ≠ EMPTY_LAYER)
  then token = "(" ++ name c ++ ")" ∧ emphasized (name c) token = false
  else if isImported c
  then token = "rectangle " ++ JS.dquote ++ name c ++ JS.dquote ++ " as "
               ++ JS.replace_nonword (name c)
       ∧ emphasized (name c) token = false
  else token = "rectangle " ++ JS.dquote ++ "<b>" ++ name c ++ "</b>" ++ JS.dquote
               ++ " as " ++ JS.replace_nonword (name c)
       ∧ emphasized (name c) token = true.
Proof.
  intros token. subst token. rewrite component_token_layer.
  destruct (JS.endsWith _ _).
  { split; [done |]. apply short_token_not_emphasized. simpl. lia. }
  destruct (bool_decide _).
  { split; [done |]. apply short_token_not_emphasized. simpl. lia. }
  destruct (isImported c); (split; [done |]).
  - apply plain_rectangle_not_emphasized.
  - unfold emphasized.
    rewrite <- (app_assoc_s "rectangle " JS.dquote).
    rewrite <- (app_assoc_s "<b>"), <- (app_assoc_s ("<b>" ++ name c)).
    apply includes_append.
Qed.

(** C4 as stated fails: a primary component inside a named layer is
    declared without emphasis. *)
Lemma layered_primary_not_emphasized :
  let c := mkComponent "server" "src/server.ts" (Named "api") false [] in
  isImported c = false
  ∧ generatePlantUMLComponent c LAYER = "(server)"
  ∧ emphasized (name c) (generatePlantUMLComponent c LAYER) = false.
Proof. by vm_compute. Qed.

(** C9: the sanitized identifier used in RELATIONSHIP context is not
    injective: the ungrouped files named [a.b] and [a-b] are both
    referred to as [a_b]. *)
Theorem sanitized_identifier_not_injective :
  ∃ c1 c2 : Component,
    layer c1 = EMPTY_LAYER ∧ layer c2 = EMPTY_LAYER
    ∧ JS.endsWith (filename c1) "**" = false
    ∧ JS.endsWith (filename c2) "**" = false
    ∧ name c1 ≠ name c2
    ∧ generatePlantUMLComponent c1 RELATIONSHIP
      = generatePlantUMLComponent c2 RELATIONSHIP.
Proof.
  exists (mkComponent "a.b" "src/a.b" EMPTY_LAYER false []),
         (mkComponent "a-b" "src/a-b" EMPTY_LAYER false []).
  repeat split; done.
Qed.

(** ** The connection resolver *)

(** C3: the connector length lies in [1,4], and is at least 2 when the
    source component is import-only. *)
Theorem connection_length_clamped (cwd : string) (component importedComponent : Component) :
  (1 ≤ getConnectionLength cwd component importedComponent ≤ 4
   ∧ (if isImported component then 2 else 1)
     ≤ getConnectionLength cwd component importedComponent)%nat.
Proof. unfold getConnectionLength. destruct (isImported component); lia. Qed.

(** The length is the number of segments of the directory part of the
    relative path whenever that number is within the bounds. *)
Lemma connection_length_exact (cwd : string) (c t : Component) :
  let n := length (JS.split Path.sep
             (Path.dirname (Path.relative cwd (filename c) (filename t)))) in
  ((if isImported c then 2 else 1) ≤ n ≤ 4)%nat → getConnectionLength cwd c t = n.
Proof. intros n H. unfold getConnectionLength. fold n. destruct (isImported c); lia. Qed.

(** ** The skin block *)

(** Without an explicit direction the layout is horizontal exactly when
    more than 20 components are rendered. *)
Lemma inferred_direction (layers : Layers) :
  skinDirection (mkOutput None) layers =
    if (20 <? length (getAllComponents layers false))%nat then HORIZONTAL else VERTICAL.
Proof. reflexivity. Qed.

(** C1: an explicit direction is not honoured: whatever direction the
    output names, and however few components there are, the skin block
    asks for the horizontal layout. *)
Theorem explicit_direction_renders_horizontal (d : OutputDirection) (layers : Layers) :
  skinDirection (mkOutput (Some d)) layers = HORIZONTAL
  ∧ lines (generatePlantUMLSkin (mkOutput (Some d)) layers) !! 2
    = Some "left to right direction".
Proof. split; [done |]. unfold generatePlantUMLSkin. simpl. by vm_compute. Qed.

(** ** The format token *)

Lemma match_w3_unfold (a : ascii) (r : string) :
  JS.match_w3 (String a r) =
    match r with
    | String b (String c _) =>
        if JS.is_word a && JS.is_word b && JS.is_word c
        then Some (String a (String b (String c EmptyString)))
        else JS.match_w3 r
    | _ => None
    end.
Proof. destruct r as [|b [|c t]]; reflexivity. Qed.

Lemma word3_length (m : string) : word3 m → String.length m = 3.
Proof. by intros (a & b & c & -> & _). Qed.

(** A token at the very start of a string is made of its first three
    characters. *)
Lemma word3_at_head (a : ascii) (r m post : string) :
  String a r = m ++ post → word3 m →
  ∃ b c t, r = String b (String c t)
           ∧ JS.is_word a = true ∧ JS.is_word b = true ∧ JS.is_word c = true.
Proof.
  intros E (a' & b & c & -> & Ha & Hb & Hc).
  rewrite !app_cons_s, app_nil_l_s in E. injection E as -> ->. by exists b, c, post.
Qed.

Lemma match_w3_spec (format : string) :
  match JS.match_w3 format with
  | Some m => first_format_token format m
  | None => ¬ has_format_token format
  end.
Proof.
  induction format as [|a r IH].
  - simpl. intros (pre & m & post & E & Hm).
    apply word3_length in Hm. apply (f_equal String.length) in E.
    rewrite !length_append in E. simpl in E. lia.
  - rewrite match_w3_unfold.
    assert (Hstep :
      (∀ b c t, r = String b (String c t) →
                JS.is_word a && JS.is_word b && JS.is_word c = false) →
      match JS.match_w3 r with
      | Some m => first_format_token (String a r) m
      | None => ¬ has_format_token (String a r)
      end).
    { intros Hno. destruct (JS.match_w3 r) as [m|].
      - destruct IH as (pre & post & E & Hm & Hmin).
        exists (String a pre), post. split; [by rewrite app_cons_s, E |].
        split; [done |]. intros pre' m' post' E' Hm'.
        destruct pre' as [|a' pre'].
        + rewrite app_nil_l_s in E'.
          destruct (word3_at_head _ _ _ _ E' Hm') as (b & c & t & Hr & Ha & Hb & Hc).
          specialize (Hno _ _ _ Hr). rewrite Ha, Hb, Hc in Hno. done.
        + rewrite app_cons_s in E'. injection E' as -> E'.
          specialize (Hmin _ _ _ E' Hm'). simpl. lia.
      - intros (pre' & m' & post' & E' & Hm'). destruct pre' as [|a' pre'].
        + rewrite app_nil_l_s in E'.
          destruct (word3_at_head _ _ _ _ E' Hm') as (b & c & t & Hr & Ha & Hb & Hc).
          specialize (Hno _ _ _ Hr). rewrite Ha, Hb, Hc in Hno. done.
        + rewrite app_cons_s in E'. injection E' as -> E'.
          apply IH. by exists pre', m', post'. }
    destruct r as [|b [|c t]].
    + apply Hstep. intros ??? [=].
    + apply Hstep. intros ??? [=].
    + destruct (JS.is_word a && JS.is_word b && JS.is_word c) eqn:Hw.
      * apply andb_true_iff in Hw as [[Ha Hb]%andb_true_iff Hc].
        exists "", t. split; [done |]. split; [by exists a, b, c |].
        intros. simpl. lia.
      * apply Hstep. intros ??? [= -> -> ->]. done.
Qed.

(** Format names longer than the token are cut to their first three word
    characters. *)
Lemma long_format_names_truncated :
  JS.match_w3 ".jpeg" = Some "jpe" ∧ JS.match_w3 "webp" = Some "web".
Proof. split; reflexivity. Qed.

(** ** The export operation *)

Lemma convertToImage_fs (puml format : string) (st : state) :
  fs_trace (convertToImage puml format st).2 = fs_trace st
  ∧ files (convertToImage puml format st).2 = files st.
Proof.
  unfold convertToImage, bind, new_promise, settle, then_, subscribe, get_requestChain,
    set_requestChain, ret, new_promise, bind.
  simpl. repeat case_match; simplify_eq/=; done.
Qed.

Lemma then_fs (p : pid) (f : callback) (st : state) :
  fs_trace (then_ p f st).2 = fs_trace st.
Proof.
  unfold then_, bind, new_promise, subscribe, ret. simpl.
  repeat case_match; simplify_eq/=; done.
Qed.

Lemma catch_fs (p : pid) (f : callback) (st : state) :
  fs_trace (catch_ p f st).2 = fs_trace st.
Proof.
  unfold catch_, bind, new_promise, subscribe, ret. simpl.
  repeat case_match; simplify_eq/=; done.
Qed.

Lemma promise_resolve_fs (v : value) (st : state) :
  fs_trace (promise_resolve v st).2 = fs_trace st.
Proof.
  unfold promise_resolve, bind, new_promise, settle, ret. simpl.
  repeat case_match; simplify_eq/=; done.
Qed.

(** C6 as stated fails: an export that only returns text (an unrecognized
    destination) or only returns the image (a bare format keyword) still
    deletes the file found at the resolved path. *)
Lemma export_without_write_still_deletes :
  fs_trace (convert "/work" "out" ["svg"; "png"] "notes.txt" "@startuml"
              (init {[ "/work/out/notes.txt" := VString "old" ]})).2
  = [Unlink "/work/out/notes.txt"]
  ∧ fs_trace (convert "/work" "out" ["svg"; "png"] "svg" "@startuml"
                (init {[ "/work/out/svg" := VString "old" ]})).2
    = [Unlink "/work/out/svg"].
Proof. by vm_compute. Qed.

(** ** Paths *)

Lemma split_nonempty (s : string) : ∃ h t, JS.split "/"%char s = h :: t.
Proof.
  induction s as [|c s (h & t & IH)]; simpl; [by eexists _, _ |].
  destruct (Ascii.eqb c "/"%char); [by eexists _, _ |]. rewrite IH. by eexists _, _.
Qed.

Lemma split_cons_sep (s : string) :
  JS.split "/"%char (String "/"%char s) = "" :: JS.split "/"%char s.
Proof. reflexivity. Qed.

Lemma split_app_sep (s t : string) :
  JS.split "/"%char (s ++ String "/"%char t)
  = app (JS.split "/"%char s) (JS.split "/"%char t).
Proof.
  induction s as [|c s IH].
  - rewrite app_nil_l_s. reflexivity.
  - rewrite app_cons_s. simpl. destruct (Ascii.eqb c "/"%char).
    + by rewrite IH.
    + rewrite IH. by destruct (split_nonempty s) as (h & tl & ->).
Qed.

Lemma split_no_sep (s : string) : no_sep s → JS.split "/"%char s = [s].
Proof.
  unfold no_sep. induction s as [|c s IH]; simpl; [done |].
  intros [Hc Hs]%Forall_cons. apply Ascii.eqb_neq in Hc. rewrite Hc.
  by rewrite (IH Hs).
Qed.

Lemma split_segments (s : string) : Forall no_sep (JS.split "/"%char s).
Proof.
  induction s as [|c s IH]; simpl.
  - repeat constructor.
  - destruct (Ascii.eqb c "/"%char) eqn:E.
    + constructor; [constructor | done].
    + destruct (JS.split "/"%char s) as [|h t]; [repeat constructor |].
      * by apply Ascii.eqb_neq.
      * apply Forall_cons in IH as [Hh Ht]. constructor; [| done].
        constructor; [by apply Ascii.eqb_neq | done].
Qed.

Lemma join_cons (x y : string) (l : list string) :
  JS.join "/" (x :: y :: l) = x ++ String "/"%char (JS.join "/" (y :: l)).
Proof. reflexivity. Qed.

Lemma split_join (l : list string) :
  Forall no_sep l → l ≠ [] → JS.split "/"%char (JS.join "/" l) = l.
Proof.
  induction l as [|x [|y l] IH]; intros Hl Hne; [done | |].
  - apply Forall_cons in Hl as [Hx _]. by apply split_no_sep.
  - apply Forall_cons in Hl as [Hx Hl]. rewrite join_cons, split_app_sep.
    rewrite (split_no_sep x Hx), IH; done.
Qed.

Lemma normalize_segs_app (b : bool) (acc xs ys : list string) :
  Path.normalize_segs b acc (app xs ys)
  = Path.normalize_segs b (rev (Path.normalize_segs b acc xs)) ys.
Proof.
  revert acc. induction xs as [|x xs IH]; intros acc; simpl.
  - by rewrite rev_involutive.
  - destruct (String.eqb x "" || String.eqb x "."); [apply IH |].
    destruct (String.eqb x ".."); [| apply IH].
    destruct acc as [|top acc']; [destruct b; apply IH |].
    destruct (String.eqb top ".."); apply IH.
Qed.

Lemma normalize_segs_Forall (Q : string → Prop) (b : bool) (acc xs : list string) :
  Q ".." → Forall Q acc → Forall Q xs → Forall Q (Path.normalize_segs b acc xs).
Proof.
  intros Hdd. revert acc. induction xs as [|x xs IH]; intros acc Hacc Hxs; simpl.
  - by apply Forall_rev.
  - apply Forall_cons in Hxs as [Hx Hxs].
    destruct (String.eqb x "" || String.eqb x "."); [by apply IH |].
    destruct (String.eqb x ".."); [| by apply IH; [constructor |]].
    destruct acc as [|top acc']; [destruct b; apply IH; repeat constructor; done |].
    destruct (String.eqb top ".."); apply IH; try done; [by constructor |].
    by apply Forall_cons in Hacc as [_ ?].
Qed.

Lemma normalize_plain_tail (b : bool) (acc : list string) (x : string) :
  plain_name x →
  Path.normalize_segs b acc ["a"; x; ""] = app (rev acc) ["a"; x].
Proof.
  intros (_ & H1 & H2 & H3). simpl.
  apply String.eqb_neq in H1, H2, H3. rewrite H1, H2, H3. simpl.
  by rewrite <- app_assoc.
Qed.

Lemma drop_common_app (f a b : list string) :
  Path.drop_common (app f a) (app f b) = Path.drop_common a b.
Proof. induction f as [|x f IH]; simpl; [done |]. by rewrite String.eqb_refl. Qed.

(** The segments of the resolved path of a file [a/x] are those of the
    working directory followed by [a] and [x]. *)
Lemma segments_join (P : list string) (x : string) :
  plain_name x → Forall no_sep P →
  JS.split "/"%char (JS.join "/" (app P ["a"; x])) = app P ["a"; x]
  ∧ filter (λ s, s ≠ "") (app P ["a"; x]) = app (filter (λ s, s ≠ "") P) ["a"; x].
Proof.
  intros (Hx & Hne & _) HP. split.
  - apply split_join; [| by destruct P].
    apply Forall_app. split; [done |]. repeat constructor; done.
  - rewrite filter_app. f_equal. rewrite filter_cons_True by done.
    by rewrite filter_cons_True, filter_nil by done.
Qed.

Lemma join_plain_not_empty (P : list string) (x : string) :
  plain_name x → Forall no_sep P → JS.join "/" (app P ["a"; x]) ≠ "".
Proof.
  intros Hx HP E. destruct (segments_join P x Hx HP) as [Hs _].
  rewrite E in Hs. simpl in Hs. by destruct P as [|? [|? ?]].
Qed.

(** The segments of the resolved path of a file [a/x] are those of the
    working directory followed by [a] and [x]. *)
Lemma resolve_in_directory (cwd : string) :
  ∃ F, ∀ x, plain_name x →
    Path.segments (Path.resolve cwd [String "a" (String "/" x)]) = app F ["a"; x].
Proof.
  assert (Hsplit : ∀ x, plain_name x →
            JS.split "/"%char (String "a" (String "/" x) ++ "/" ++ "") = ["a"; x; ""]).
  { intros x (Hx & _).
    rewrite !app_cons_s. simpl.
    change ("" ++ "") with "".
    by rewrite (split_app_sep x ""), (split_no_sep x Hx). }
  unfold Path.resolve, Path.segments, Path.sep. simpl rev.
  destruct (String.eqb cwd "") eqn:Ecwd.
  - exists []. intros x Hx. simpl. rewrite Ecwd.
    rewrite (Hsplit x Hx), (normalize_plain_tail _ [] x Hx). simpl rev. simpl app.
    destruct (segments_join [] x Hx) as [Hs Hf]; [constructor |].
    destruct (String.eqb_spec (JS.join "/" ["a"; x]) "") as [E | _].
    { by apply (join_plain_not_empty [] x Hx) in E. }
    change (app [] ["a"; x]) with ["a"; x] in Hs, Hf. rewrite Hs.
    rewrite filter_cons_True by done. destruct Hx as (_ & Hne & _).
    by rewrite filter_cons_True, filter_nil by done.
  - set (b := negb (JS.startsWithChar "/"%char cwd)).
    set (P := Path.normalize_segs b [] (JS.split "/"%char cwd)).
    assert (HP : Forall no_sep P).
    { apply normalize_segs_Forall; [repeat constructor; done | constructor |].
      apply split_segments. }
    exists (filter (λ s, s ≠ "") P). intros x Hx. simpl. rewrite Ecwd.
    unfold Path.sep.
    assert (Hn : ∀ b', b' = b →
              Path.normalize_segs b' []
                (JS.split "/"%char
                   (cwd ++ "/" ++ String "a" (String "/" x) ++ "/" ++ ""))
              = app P ["a"; x]).
    { intros b' ->.
      change (cwd ++ "/" ++ String "a" (String "/" x) ++ "/" ++ "")
        with (cwd ++ String "/"%char (String "a" (String "/" x) ++ "/" ++ "")).
      rewrite split_app_sep, (Hsplit x Hx), normalize_segs_app.
      fold P. rewrite (normalize_plain_tail _ _ x Hx). by rewrite rev_involutive. }
    destruct (segments_join P x Hx HP) as [Hs Hf].
    destruct (JS.startsWithChar "/"%char cwd) eqn:Eabs; simpl.
    + rewrite Hn by done.
      rewrite app_nil_l_s, Hs.
      rewrite filter_cons_False by (by intros []). exact Hf.
    + rewrite Hn by done.
      destruct (String.eqb_spec (JS.join "/" (app P ["a"; x])) "") as [E | _].
      { by apply (join_plain_not_empty P x Hx HP) in E. }
      by rewrite Hs, Hf.
Qed.

Lemma plain_b_ts : plain_name "b.ts".
Proof. repeat split; try done. repeat constructor; done. Qed.

Lemma plain_c_ts : plain_name "c.ts".
Proof. repeat split; try done. repeat constructor; done. Qed.

(** Whatever the working directory, [a/c.ts] is one directory up from the
    file [a/b.ts], which [path.relative] takes for a directory. *)
Lemma relative_of_siblings (cwd : string) :
  Path.relative cwd "a/b.ts" "a/c.ts" = "../c.ts".
Proof.
  destruct (resolve_in_directory cwd) as (F & HF).
  pose proof (HF "b.ts" plain_b_ts) as Hb. pose proof (HF "c.ts" plain_c_ts) as Hc.
  change (String "a" (String "/" "b.ts")) with "a/b.ts" in Hb.
  change (String "a" (String "/" "c.ts")) with "a/c.ts" in Hc.
  unfold Path.relative. change (String.eqb "a/b.ts" "a/c.ts") with false. cbv iota.
  destruct (String.eqb_spec (Path.resolve cwd ["a/b.ts"]) (Path.resolve cwd ["a/c.ts"]))
    as [E | _].
  { rewrite E, Hc in Hb. by apply app_inv_head in Hb. }
  rewrite Hb, Hc, drop_common_app. reflexivity.
Qed.

(** C5, as amended: for the two files [a/b.ts] (importing [a/c.ts]) and
    [a/c.ts], both ungrouped and primary, the relationships block holds
    exactly one connector line, of length 1 and glyph [=], and that line
    is [a_b_ts => a_c_ts]; this in whatever directory the process runs. *)
Theorem two_files_relationship (cwd : string) :
  getConnectionLength cwd comp_b comp_c = 1
  ∧ getConnectionSign comp_b comp_c = "="
  ∧ lines (generatePlantUMLRelationships cwd two_files) = [""; "a_b_ts => a_c_ts"].
Proof.
  assert (Hlen : getConnectionLength cwd comp_b comp_c = 1).
  { unfold getConnectionLength. simpl. rewrite relative_of_siblings. reflexivity. }
  split; [done |]. split; [done |].
  unfold generatePlantUMLRelationships.
  replace (getAllComponents two_files true) with [comp_b; comp_c] by (by vm_compute).
  simpl. unfold relationshipLines. simpl. rewrite Hlen. reflexivity.
Qed.

(** C5 as stated fails: the block holds no connector of two glyphs. *)
Lemma two_files_no_double_connector :
  JS.includes (generatePlantUMLRelationships "/home/user/project" two_files) "==>" = false
  ∧ generatePlantUMLRelationships "/home/user/project" two_files
    = JS.newline ++ "a_b_ts => a_c_ts".
Proof. by vm_compute. Qed.

(** ** The promise store *)

Lemma lookup_snoc_fresh (h : list promise) (x : promise) :
  (h ++ [x])%list !! length h = Some x.
Proof. by apply list_lookup_middle. Qed.

Lemma insert_snoc_fresh (h : list promise) (x y : promise) :
  <[length h := y]> (h ++ [x])%list = (h ++ [y])%list.
Proof.
  replace (length h) with (length h + 0)%nat at 1 by lia.
  by rewrite insert_app_r.
Qed.

Lemma settle_pending (st : state) (p : pid) (rs : list reaction) (s : settlement) :
  promises st !! p = Some (Pending rs) →
  settle p s st =
    (tt, set_microtasks (app (microtasks st) (map (λ rx, (rx, s)) rs))
           (set_promises (<[p := Settled s]> (promises st)) st)).
Proof. intros H. unfold settle. by rewrite H. Qed.

Lemma settle_settled (st : state) (p : pid) (s s' : settlement) :
  promises st !! p = Some (Settled s') → settle p s st = (tt, st).
Proof. intros H. unfold settle. by rewrite H. Qed.

Lemma subscribe_pending (st : state) (p : pid) (rs : list reaction) (rx : reaction) :
  promises st !! p = Some (Pending rs) →
  subscribe p rx st =
    (tt, set_promises (<[p := Pending (app rs [rx])]> (promises st)) st).
Proof. intros H. unfold subscribe. by rewrite H. Qed.

Lemma subscribe_settled (st : state) (p : pid) (s : settlement) (rx : reaction) :
  promises st !! p = Some (Settled s) →
  subscribe p rx st = (tt, set_microtasks (app (microtasks st) [(rx, s)]) st).
Proof. intros H. unfold subscribe. by rewrite H. Qed.

(** *** Accounting for pending promises *)

Lemma heap_has_lookup h cs p rs :
  heap_has h cs → (p, rs) ∈ cs → h !! p = Some (Pending rs).
Proof. intros [_ H]. apply H. Qed.

Lemma heap_has_lt h cs p rs : heap_has h cs → (p, rs) ∈ cs → (p < length h)%nat.
Proof. intros H Hin. eapply lookup_lt_Some, heap_has_lookup; eauto. Qed.

Lemma heap_has_app h l cs : heap_has h cs → heap_has (h ++ l)%list cs.
Proof.
  intros [Hnd H]. split; [done |]. intros p rs Hin.
  rewrite lookup_app_l; [by apply H |]. eapply lookup_lt_Some, H, Hin.
Qed.

Lemma heap_has_key_lt h cs p : heap_has h cs → p ∈ cs.*1 → (p < length h)%nat.
Proof.
  intros H [[q rs] [-> Hin]]%list_elem_of_fmap. eapply heap_has_lt; eauto.
Qed.

Lemma heap_has_alloc h cs1 cs2 rs :
  heap_has h (cs1 ++ cs2)%list →
  heap_has (h ++ [Pending rs])%list (cs1 ++ (length h, rs) :: cs2)%list.
Proof.
  intros H. split.
  - rewrite fmap_app, fmap_cons. simpl.
    rewrite <- Permutation_middle. apply NoDup_cons. split.
    + rewrite <- fmap_app. intros Hin. eapply heap_has_key_lt in Hin; [| done]. lia.
    + rewrite <- fmap_app. apply H.
  - intros p rs' Hin. apply elem_of_app in Hin as [Hin | Hin];
      [| apply elem_of_cons in Hin as [[= -> ->] | Hin]].
    + eapply heap_has_lookup; [by apply heap_has_app |]. apply elem_of_app. by left.
    + apply lookup_snoc_fresh.
    + eapply heap_has_lookup; [by apply heap_has_app |]. apply elem_of_app. by right.
Qed.

Lemma heap_has_middle_ne h cs1 cs2 p rs q rq :
  heap_has h (cs1 ++ (p, rs) :: cs2)%list → (q, rq) ∈ (cs1 ++ cs2)%list → q ≠ p.
Proof.
  intros [Hnd _] Hin ->.
  rewrite fmap_app, fmap_cons in Hnd. simpl in Hnd.
  rewrite <- Permutation_middle in Hnd. apply NoDup_cons in Hnd as [Hnotin _].
  apply Hnotin. rewrite <- fmap_app. apply list_elem_of_fmap. by exists (p, rq).
Qed.

Lemma heap_has_update h cs1 cs2 p rs rs' :
  heap_has h (cs1 ++ (p, rs) :: cs2)%list →
  heap_has (<[p := Pending rs']> h) (cs1 ++ (p, rs') :: cs2)%list.
Proof.
  intros H. split.
  - destruct H as [Hnd _]. by rewrite fmap_app, fmap_cons in *.
  - intros q rq Hin.
    assert (Hp : (p < length h)%nat).
    { eapply heap_has_lt; [done |]. apply elem_of_app. right. left. }
    apply elem_of_app in Hin as [Hin | Hin];
      [| apply elem_of_cons in Hin as [[= -> ->] | Hin]].
    + rewrite list_lookup_insert_ne.
      * eapply heap_has_lookup; [done |]. apply elem_of_app. by left.
      * intros ->. eapply heap_has_middle_ne; [done | | done]. apply elem_of_app. by left.
    + by apply list_lookup_insert_eq.
    + rewrite list_lookup_insert_ne.
      * eapply heap_has_lookup; [done |]. apply elem_of_app. right. by right.
      * intros ->. eapply heap_has_middle_ne; [done | | done]. apply elem_of_app. by right.
Qed.

Lemma heap_has_settle h cs1 cs2 p rs s :
  heap_has h (cs1 ++ (p, rs) :: cs2)%list →
  heap_has (<[p := Settled s]> h) (cs1 ++ cs2)%list.
Proof.
  intros H. split.
  - destruct H as [Hnd _]. rewrite fmap_app, fmap_cons in Hnd. simpl in Hnd.
    rewrite <- Permutation_middle in Hnd. apply NoDup_cons in Hnd as [_ Hnd].
    by rewrite fmap_app.
  - intros q rq Hin. rewrite list_lookup_insert_ne.
    + eapply heap_has_lookup; [done |].
      apply elem_of_app in Hin as [Hin | Hin]; apply elem_of_app; [by left |].
      right. by right.
    + intros ->. eapply heap_has_middle_ne; done.
Qed.

Lemma heap_has_middle h cs1 cs2 p rs :
  heap_has h (cs1 ++ (p, rs) :: cs2)%list → h !! p = Some (Pending rs).
Proof. intros H. eapply heap_has_lookup; [done |]. apply elem_of_app. right. left. Qed.

(** *** Settled promises stay settled *)

Lemma settled_in_app h l p : settled_in h p → settled_in (h ++ l)%list p.
Proof.
  intros [s H]. exists s. rewrite lookup_app_l; [done |]. by eapply lookup_lt_Some.
Qed.

Lemma settled_in_insert_settled h p q s :
  settled_in h q → settled_in (<[p := Settled s]> h) q.
Proof.
  intros [s' H]. destruct (decide (p = q)) as [-> |].
  - exists s. apply list_lookup_insert_eq. by eapply lookup_lt_Some.
  - exists s'. by rewrite list_lookup_insert_ne.
Qed.

Lemma settled_in_insert_pending h p q rs rs' :
  h !! p = Some (Pending rs) → settled_in h q → settled_in (<[p := Pending rs']> h) q.
Proof.
  intros Hp [s' H]. exists s'. rewrite list_lookup_insert_ne; [done |].
  intros ->. congruence.
Qed.

(** *** The cells of the waiting jobs *)

Lemma chain_cells_snoc (c : pid) (w : list job) :
  ∃ cs, chain_cells c w = (cs ++ [(last_chain c w, [])])%list
        ∧ ∀ k, chain_cells c (w ++ [k])%list =
               (cs ++ (last_chain c w, [job_rx k])
                   :: caller_cells (j_caller k) (j_cont k) ++ [(j_chain k, [])])%list
               ∧ last_chain c (w ++ [k])%list = j_chain k.
Proof.
  revert c. induction w as [|k' w IH]; intros c.
  - exists []. split; [done |]. by intros k.
  - destruct (IH (j_chain k')) as (cs & E & H).
    exists ((c, [job_rx k']) :: caller_cells (j_caller k') (j_cont k') ++ cs)%list.
    simpl. split; [by rewrite E, <- app_assoc |].
    intros k. destruct (H k) as [E1 E2]. by rewrite E1, E2, <- app_assoc.
Qed.

(** *** Accounting up to the order of the cells *)

Lemma heap_has_perm h cs cs' : cs ≡ₚ cs' → heap_has h cs → heap_has h cs'.
Proof.
  intros Hp [Hnd H]. split.
  - by rewrite <- Hp.
  - intros p rs Hin. apply H. by rewrite Hp.
Qed.

Lemma heap_has_alloc_p h cs cs' rs n :
  n = length h → cs' ≡ₚ (n, rs) :: cs →
  heap_has h cs → heap_has (h ++ [Pending rs])%list cs'.
Proof.
  intros -> Hp H. eapply heap_has_perm; [symmetry; exact Hp |].
  apply (heap_has_alloc h [] cs rs H).
Qed.

Lemma heap_has_update_p h cs cs0 cs' p rs rs' :
  cs ≡ₚ (p, rs) :: cs0 → cs' ≡ₚ (p, rs') :: cs0 →
  heap_has h cs → heap_has (<[p := Pending rs']> h) cs'.
Proof.
  intros Hp Hp' H. eapply heap_has_perm; [symmetry; exact Hp' |].
  apply (heap_has_update h [] cs0 p rs rs'). by eapply heap_has_perm.
Qed.

Lemma heap_has_settle_p h cs cs' p rs s :
  cs ≡ₚ (p, rs) :: cs' → heap_has h cs → heap_has (<[p := Settled s]> h) cs'.
Proof.
  intros Hp H. apply (heap_has_settle h [] cs' p rs s). by eapply heap_has_perm.
Qed.

Lemma heap_has_lookup_p h cs cs0 p rs :
  cs ≡ₚ (p, rs) :: cs0 → heap_has h cs → h !! p = Some (Pending rs).
Proof.
  intros Hp H. eapply heap_has_lookup; [exact H |]. rewrite Hp. left.
Qed.

Local Open Scope list_scope.

(** ** The promise chain refines the queue *)

Lemma net_ok_app h l sh net : net_ok h sh net → net_ok (h ++ l)%list sh net.
Proof.
  unfold net_ok. destruct (flying sh).
  - intros (old & q & -> & Hq & Hold). exists old, q. repeat split; [done |].
    eapply Forall_impl; [done |]. intros ?. apply settled_in_app.
  - intros H. eapply Forall_impl; [done |]. intros ?. apply settled_in_app.
Qed.

Lemma net_ok_insert_settled h p s sh net :
  net_ok h sh net → net_ok (<[p := Settled s]> h) sh net.
Proof.
  unfold net_ok. destruct (flying sh).
  - intros (old & q & -> & Hq & Hold). exists old, q. repeat split; [done |].
    eapply Forall_impl; [done |]. intros ?. apply settled_in_insert_settled.
  - intros H. eapply Forall_impl; [done |]. intros ?. apply settled_in_insert_settled.
Qed.

Lemma net_ok_insert_pending h p rs rs' sh net :
  h !! p = Some (Pending rs) →
  net_ok h sh net → net_ok (<[p := Pending rs']> h) sh net.
Proof.
  intros Hp. unfold net_ok. destruct (flying sh).
  - intros (old & q & -> & Hq & Hold). exists old, q. repeat split; [done |].
    eapply Forall_impl; [done |]. intros ?. by eapply settled_in_insert_pending.
  - intros H. eapply Forall_impl; [done |]. intros ?. by eapply settled_in_insert_pending.
Qed.

(** The shape of the machine, not its phase, decides [net_ok] as long as
    the request in flight is the same. *)
Lemma net_ok_flying h sh sh' net :
  flying sh = flying sh' → net_ok h sh net → net_ok h sh' net.
Proof. unfold net_ok. by intros ->. Qed.

Ltac len := rewrite ?length_insert, ?length_app; simpl; lia.

Ltac norm_len :=
  rewrite ?length_insert, ?length_app; simpl; rewrite <- ?Nat.add_assoc; simpl.

Ltac open_cells :=
  unfold cells, dead_cells, shape_cells, phase_cells, caller_cells, cont_cells,
    cont_rx, qitem_cells;
  simpl; rewrite ?app_nil_r, ?flat_map_app; simpl; rewrite ?app_nil_r.

Ltac perm := open_cells; solve_Permutation.

(** Only the promise store, the queue of reactions, the chain and the
    requests matter to the invariant. *)
Lemma inv_core (a : machine) (st st' : state) :
  promises st' = promises st → microtasks st' = microtasks st →
  requestChain st' = requestChain st → network st' = network st →
  Inv a st → Inv a st'.
Proof.
  intros Hp Hm Hc Hn [H1 H2 H3 H4 H5 H6].
  constructor; rewrite ?Hp, ?Hm, ?Hc, ?Hn; done.
Qed.

Ltac split7 := refine (conj _ (conj _ (conj _ (conj _ (conj _ (conj _ _)))))).

Lemma net_ok_mono h h' sh net :
  (∀ p s, h !! p = Some (Settled s) → h' !! p = Some (Settled s)) →
  net_ok h sh net → net_ok h' sh net.
Proof.
  intros Hm. unfold net_ok. destruct (flying sh).
  - intros (old & q & -> & Hq & Hold). exists old, q. repeat split; [done |].
    eapply Forall_impl; [done |]. intros ? [s Hs]. exists s. by apply Hm.
  - intros H. eapply Forall_impl; [done |]. intros ? [s Hs]. exists s. by apply Hm.
Qed.

(** *** A reaction of a continuation *)

Lemma run_inert (i : qitem) (st : state) (R : list (pid * list reaction)) :
  heap_has (promises st) (qitem_cells i ++ R) →
  let st' := (run_reaction (qitem_task i).1 (qitem_task i).2 st).2 in
  heap_has (promises st') (flat_map qitem_cells (qitem_next i) ++ R)
  ∧ microtasks st' = microtasks st ++ map qitem_task (qitem_next i)
  ∧ requestChain st' = requestChain st
  ∧ network st' = network st
  ∧ log st' = log st ++ qitem_log i
  ∧ length (promises st') = length (promises st)
  ∧ ∀ p s, promises st !! p = Some (Settled s) → promises st' !! p = Some (Settled s).
Proof.
  intros Hh. destruct st as [h q c n l f t]. simpl in Hh.
  destruct i as [k [v | e] | final [v | e]]; simpl in *;
    unfold run_reaction; simpl; unfold bind, ret, debug, writeFileSync; simpl.
  - assert (Hl : h !! k_saved k = Some (Pending [rethrow_rx (k_final k)])).
    { eapply heap_has_lookup; [exact Hh |]. left. }
    destruct (k_save k); simpl;
      (rewrite (settle_pending _ _ [rethrow_rx (k_final k)]) by done); simpl;
      (split7; [| done | done | done | by rewrite ?app_nil_r | len
                | by intros p s Hp; rewrite list_lookup_insert_ne; [| intros <-; congruence]]);
      (eapply heap_has_settle_p; [| exact Hh]; perm).
  - assert (Hl : h !! k_saved k = Some (Pending [rethrow_rx (k_final k)])).
    { eapply heap_has_lookup; [exact Hh |]. left. }
    rewrite (settle_pending _ _ [rethrow_rx (k_final k)]) by done. simpl.
    split7; [| done | done | done | by rewrite ?app_nil_r | len
             | by intros p s Hp; rewrite list_lookup_insert_ne; [| intros <-; congruence]].
    eapply heap_has_settle_p; [| exact Hh]. perm.
  - assert (Hl : h !! final = Some (Pending [])).
    { eapply heap_has_lookup; [exact Hh |]. left. }
    rewrite (settle_pending _ _ []) by done. simpl.
    split7; [| done | done | done | by rewrite ?app_nil_r | len
             | by intros p s Hp; rewrite list_lookup_insert_ne; [| intros <-; congruence]].
    eapply heap_has_settle_p; [| exact Hh]. perm.
  - assert (Hl : h !! final = Some (Pending [])).
    { eapply heap_has_lookup; [exact Hh |]. left. }
    rewrite (settle_pending _ _ []) by done. simpl.
    split7; [| done | done | done | by rewrite ?app_nil_r | len
             | by intros p s Hp; rewrite list_lookup_insert_ne; [| intros <-; congruence]].
    eapply heap_has_settle_p; [| exact Hh]. perm.
Qed.

(** *** Submissions *)

Lemma queue_enqueue_idle pre post (t : reaction * settlement) :
  (map qitem_task pre ++ [] ++ map qitem_task post) ++ [t]
  = map qitem_task (pre ++ post) ++ [t] ++ map qitem_task [].
Proof. simpl. by rewrite map_app, <- ?app_assoc. Qed.

Lemma inv_submit (a : machine) (st : state) (puml format : string) :
  Inv a st →
  Inv (submit_machine a puml format) (convertToImage puml format st).2
  ∧ (convertToImage puml format st).1 = a_next a.
Proof.
  destruct st as [h q c n l f t], a as [sh pre post dead anet anext].
  intros [Hh Ht Hc Hn Hnet Hnext]; simpl in *. subst.
  unfold convertToImage, submit_machine, bind, new_promise. simpl.
  destruct (JS.match_w3 format) as [m|].
  - unfold get_requestChain, then_, bind, new_promise, set_requestChain, ret. simpl.
    unfold enqueue_job. simpl.
    destruct sh as [v | j ph w]; simpl in *.
    + rewrite (subscribe_settled _ _ (Fulfilled v)); simpl.
      2:{ rewrite !lookup_app_l; [done | |].
          - by eapply lookup_lt_Some.
          - rewrite length_app. apply lookup_lt_Some in Hc. lia. }
      norm_len. split; [| done]. constructor; simpl.
      * eapply (heap_has_alloc_p _ ((length h, []) :: _) _ [] (length h + 1));
          [len | | eapply (heap_has_alloc_p _ _ _ [] (length h));
                     [done | reflexivity | exact Hh]].
        perm.
      * unfold queue. simpl. apply queue_enqueue_idle.
      * done.
      * by do 2 apply net_ok_app.
      * done.
      * len.
    + subst c. destruct (chain_cells_snoc (j_chain j) w) as (cs & Ecs & Hsnoc).
      set (k := {| j_format := m; j_puml := puml; j_caller := length h;
                   j_chain := length h + 1; j_cont := None |}).
      destruct (Hsnoc k) as [Ecs' Elast].
      set (R0 := dead_cells dead ++ flat_map qitem_cells (pre ++ post)
                 ++ phase_cells j ph ++ cs).
      assert (HR0 : cells (mkMachine (Busy j ph w) pre post dead anet (length h))
                    ≡ₚ (last_chain (j_chain j) w, []) :: R0).
      { unfold cells, shape_cells, R0. simpl. rewrite Ecs. solve_Permutation. }
      assert (Hlc : h !! last_chain (j_chain j) w = Some (Pending [])).
      { eapply heap_has_lookup_p; [exact HR0 | exact Hh]. }
      rewrite (subscribe_pending _ _ []); simpl.
      2:{ rewrite !lookup_app_l; [done | |].
          - by eapply lookup_lt_Some.
          - rewrite length_app. apply lookup_lt_Some in Hlc. lia. }
      norm_len. split; [| done]. constructor; simpl.
      * eapply (heap_has_update_p _
                  ((length h + 1, []) :: (length h, [])
                     :: cells (mkMachine (Busy j ph w) pre post dead anet (length h)))
                  ((length h + 1, []) :: (length h, []) :: R0) _ _ []).
        { by rewrite HR0; solve_Permutation. }
        { unfold cells, shape_cells, R0. simpl. rewrite Ecs'. simpl.
          solve_Permutation. }
        eapply (heap_has_alloc_p _ ((length h, []) :: _) _ [] (length h + 1));
          [len | reflexivity |].
        eapply (heap_has_alloc_p _ _ _ [] (length h)); [done | reflexivity | exact Hh].
      * unfold queue. simpl. by destruct ph.
      * by rewrite Elast.
      * eapply (net_ok_flying _ (Busy j ph w)); [by destruct ph |].
        eapply net_ok_insert_pending.
        { rewrite !lookup_app_l; [exact Hlc | |].
          - by eapply lookup_lt_Some.
          - rewrite length_app. apply lookup_lt_Some in Hlc. lia. }
        by do 2 apply net_ok_app.
      * done.
      * len.
  - rewrite (settle_pending _ _ []); simpl; [| apply lookup_snoc_fresh].
    unfold ret. simpl. split; [| done]. constructor; simpl.
    + eapply heap_has_settle_p;
        [| eapply (heap_has_alloc_p _ _ _ [] (length h));
             [done | reflexivity | exact Hh]].
      reflexivity.
    + by rewrite app_nil_r.
    + destruct sh as [v | j ph w]; [| done].
      rewrite list_lookup_insert_ne, lookup_app_l; [done | |];
        apply lookup_lt_Some in Hc; lia.
    + by apply net_ok_insert_settled, net_ok_app.
    + done.
    + len.
Qed.

(** *** Responses and errors *)

Lemma issued_elem (st : state) (r : pid) :
  issued st r = true ↔ ∃ q, q ∈ network st ∧ req_promise q = r.
Proof.
  unfold issued. rewrite existsb_exists. split.
  - intros (q & Hin & E). exists q. split; [by apply list_elem_of_In |].
    by apply Nat.eqb_eq.
  - intros (q & Hin & E). exists q. split; [by apply list_elem_of_In |].
    by apply Nat.eqb_eq.
Qed.

Lemma net_ok_settled h sh net q :
  net_ok h sh net → q ∈ net → flying sh ≠ Some (req_promise q) →
  settled_in h (req_promise q).
Proof.
  unfold net_ok. destruct (flying sh) as [r|].
  - intros (old & q' & -> & Hq & Hold) Hin Hne.
    apply elem_of_app in Hin as [Hin | Hin%list_elem_of_singleton].
    + by eapply (proj1 (Forall_forall _ _)) in Hold.
    + subst. done.
  - intros H Hin _. by eapply (proj1 (Forall_forall _ _)) in H.
Qed.

Lemma net_ok_issue h sh sh' net q :
  flying sh = None → flying sh' = Some (req_promise q) →
  net_ok h sh net → net_ok h sh' (net ++ [q])%list.
Proof. unfold net_ok. intros -> -> H. by exists net, q. Qed.

Lemma net_ok_settle_flying h sh sh' net r s :
  flying sh = Some r → flying sh' = None → (r < length h)%nat →
  net_ok h sh net → net_ok (<[r := Settled s]> h) sh' net.
Proof.
  unfold net_ok. intros -> -> Hr (old & q & -> & <- & Hold).
  apply Forall_app. split.
  - eapply Forall_impl; [done |]. intros ?. apply settled_in_insert_settled.
  - apply Forall_singleton. exists s. by apply list_lookup_insert_eq.
Qed.

Lemma inv_settle (a : machine) (st : state) (r : pid) (s : settlement) :
  Inv a st →
  Inv (settle_machine a r s) (if issued st r then (settle r s st).2 else st).
Proof.
  intros HI.
  assert (Hidle : flying (a_shape a) ≠ Some r →
            Inv a (if issued st r then (settle r s st).2 else st)).
  { intros Hne. destruct (issued st r) eqn:Hiss; [| done].
    apply issued_elem in Hiss as (q & Hin & <-).
    destruct (net_ok_settled _ _ _ q (inv_net _ _ HI) Hin Hne) as [s' Hs'].
    by rewrite (settle_settled _ _ _ s'). }
  unfold settle_machine.
  destruct (a_shape a) as [v | j ph w] eqn:Esh; [by apply Hidle; rewrite ?Esh |].
  destruct ph as [v | r' d1 d2 | d1 d2 s' | d2 s' | v];
    try (by apply Hidle; rewrite ?Esh).
  destruct (Nat.eqb r r') eqn:Er;
    [| apply Hidle; rewrite ?Esh; simpl; apply Nat.eqb_neq in Er; congruence].
  apply Nat.eqb_eq in Er as <-. clear Hidle.
  destruct st as [h q c n l f t], a as [sh pre post dead anet anext].
  destruct HI as [Hh Ht Hc Hn Hnet Hnext]; simpl in *. subst.
  assert (Hiss : issued (mkState h (queue (mkMachine (Busy j (PFlight r d1 d2) w)
                    pre post dead anet (length h))) c anet l f t) r = true).
  { apply issued_elem. destruct Hn as (old & q & -> & Hq & _). exists q.
    split; [| done]. apply elem_of_app. right. by left. }
  rewrite Hiss.
  assert (Hr : h !! r = Some (Pending [resolve_rx (j_caller j) d1])).
  { eapply (heap_has_lookup_p _ _
              (dead_cells dead ++ flat_map qitem_cells (pre ++ post)
               ++ caller_cells (j_caller j) (j_cont j)
               ++ (d1, [debug_rx d2]) :: (d2, [adopt_rx (j_chain j)])
                    :: chain_cells (j_chain j) w)); [| exact Hh].
    unfold cells, shape_cells, phase_cells. simpl. solve_Permutation. }
  rewrite (settle_pending _ _ [resolve_rx (j_caller j) d1]) by done.
  simpl. constructor; simpl.
  - eapply heap_has_settle_p; [| exact Hh].
    unfold cells, shape_cells, phase_cells. simpl. rewrite app_nil_r. solve_Permutation.
  - unfold queue. simpl. apply queue_enqueue_idle.
  - done.
  - eapply net_ok_settle_flying; [| | by eapply lookup_lt_Some | exact Hn]; done.
  - done.
  - len.
Qed.

(** *** Ticks *)

Lemma tasks_no_task (sh : shape) : has_task sh = false → tasks sh = [].
Proof. by destruct sh as [v | j [] w]. Qed.

Lemma cont_items_tasks (oc : option cont) (s : settlement) :
  map (λ rx, (rx, s)) (cont_rx oc) = map qitem_task (cont_items oc s).
Proof. by destruct oc. Qed.

Lemma cont_items_cells (oc : option cont) (s : settlement) :
  flat_map qitem_cells (cont_items oc s) = cont_cells oc.
Proof. by destruct oc. Qed.

Lemma step_tick cwd config_directory OutputFormat_values (st : state) :
  step cwd config_directory OutputFormat_values st EvTick =
  match microtasks st with
  | [] => st
  | (rx, s) :: rest => snd (run_reaction rx s (set_microtasks rest st))
  end.
Proof. reflexivity. Qed.

Section Simulation.

Variable cwd : string.
Variable config_directory : string.
Variable OutputFormat_values : list string.

Local Abbreviation step := (step cwd config_directory OutputFormat_values).
Local Abbreviation run := (run cwd config_directory OutputFormat_values).
Local Abbreviation machine_step := (machine_step cwd config_directory OutputFormat_values).
Local Abbreviation machine_run := (machine_run cwd config_directory OutputFormat_values).

Lemma inv_tick_inert (a a' : machine) (st : state) (i : qitem)
    (rest : list (reaction * settlement)) (R : list (pid * list reaction)) :
  Inv a st →
  microtasks st = qitem_task i :: rest →
  cells a ≡ₚ qitem_cells i ++ R →
  cells a' ≡ₚ flat_map qitem_cells (qitem_next i) ++ R →
  queue a' = rest ++ map qitem_task (qitem_next i) →
  a_shape a' = a_shape a → a_net a' = a_net a → a_next a' = a_next a →
  Inv a' (step st EvTick) ∧ log (step st EvTick) = log st ++ qitem_log i.
Proof.
  intros [Hh Ht Hc Hn Hnet Hnext] Hm Hcs Hcs' Hq Hsh Hanet Hanext.
  rewrite step_tick, Hm.
  pose proof (run_inert i (set_microtasks rest st) R) as H.
  destruct (qitem_task i) as [rx s]. simpl in H.
  destruct H as (H1 & H2 & H3 & H4 & H5 & H6 & H7).
  { eapply heap_has_perm; [exact Hcs | exact Hh]. }
  split; [| done]. constructor.
  - eapply heap_has_perm; [symmetry; exact Hcs' | exact H1].
  - by rewrite Hq.
  - rewrite Hsh, H3. destruct (a_shape a); [by apply H7 | done].
  - rewrite Hsh, H4. by eapply net_ok_mono.
  - by rewrite H4, Hanet.
  - by rewrite H6, Hanext.
Qed.

Lemma inv_tick_chain (a : machine) (st : state) :
  a_pre a = [] → has_task (a_shape a) = true →
  Inv a st →
  Inv (chain_tick a) (step st EvTick)
  ∧ log (step st EvTick)
    = log st ++ match a_shape a with
                | Busy _ (PD1Settled _ (Rejected e)) _ => [[e]]
                | _ => []
                end.
Proof.
  destruct st as [h q c n l f t], a as [sh pre post dead anet anext].
  simpl. intros -> Htask [Hh Ht Hc Hn Hnet Hnext]; simpl in *. subst.
  unfold chain_tick, queue; simpl.
  destruct sh as [v | j ph w]; [done |].
  destruct ph as [v | r d1 d2 | d1 d2 s | d2 s | v]; simpl in *; [| done | | |].
  - (* the job starts: the request is issued *)
    unfold run_reaction, job_rx; simpl.
    unfold bind, request, then_, catch_, bind, new_promise, ret; simpl.
    norm_len.
    remember (cells (mkMachine (Busy j (PQueued v) w) [] post dead anet (length h)))
      as R eqn:ER.
    set (rx1 := {| on_fulfilled := Some (CbResolve (j_caller j));
                   on_rejected := None; derived := length h + 1 |}).
    assert (H2 : heap_has ((h ++ [Pending []]) ++ [Pending []])
                   ((length h + 1, []) :: (length h, []) :: R)).
    { eapply (heap_has_alloc_p _ ((length h, []) :: R) _ [] (length h + 1));
        [len | reflexivity |].
      eapply (heap_has_alloc_p _ R _ [] (length h)); [done | reflexivity | exact Hh]. }
    rewrite (subscribe_pending _ _ []); simpl.
    2:{ eapply (heap_has_lookup_p _ _ ((length h + 1, []) :: R)); [| exact H2].
        solve_Permutation. }
    norm_len.
    set (h3 := <[length h := Pending [rx1]]> ((h ++ [Pending []]) ++ [Pending []])).
    assert (H3 : heap_has h3 ((length h, [rx1]) :: (length h + 1, []) :: R)).
    { eapply (heap_has_update_p _ _ ((length h + 1, []) :: R) _ _ []);
        [| reflexivity | exact H2]. solve_Permutation. }
    assert (Hl3 : length h3 = (length h + 2)%nat) by (subst h3; len).
    rewrite ?Hl3.
    set (rx2 := {| on_fulfilled := None; on_rejected := Some CbDebug;
                   derived := length h + 2 |}).
    assert (H4 : heap_has (h3 ++ [Pending []])
                   ((length h + 2, []) :: (length h, [rx1]) :: (length h + 1, []) :: R)).
    { eapply (heap_has_alloc_p _ _ _ [] (length h + 2)); [done | reflexivity | exact H3]. }
    rewrite (subscribe_pending _ _ []); simpl.
    2:{ eapply (heap_has_lookup_p _ _ ((length h + 2, []) :: (length h, [rx1]) :: R));
          [| exact H4]. solve_Permutation. }
    set (h5 := <[length h + 1 := Pending [rx2]]> (h3 ++ [Pending []])).
    assert (H5 : heap_has h5 ((length h + 1, [rx2]) :: (length h + 2, [])
                                :: (length h, [rx1]) :: R)).
    { eapply (heap_has_update_p _ _ ((length h + 2, []) :: (length h, [rx1]) :: R) _ _ []);
        [| reflexivity | exact H4]. solve_Permutation. }
    rewrite (subscribe_pending _ _ []); simpl.
    2:{ eapply (heap_has_lookup_p _ _ ((length h + 1, [rx2]) :: (length h, [rx1]) :: R));
          [| exact H5]. solve_Permutation. }
    split; [| by rewrite app_nil_r]. constructor; simpl.
    + eapply (heap_has_update_p _ _ ((length h + 1, [rx2]) :: (length h, [rx1]) :: R)
                _ _ [] [adopt_rx (j_chain j)]); [| | exact H5].
      * solve_Permutation.
      * subst R. perm.
    + unfold queue. simpl. by rewrite ?app_nil_r.
    + done.
    + apply (net_ok_issue _ (Busy j (PQueued v) w)); [done | done |].
      eapply net_ok_insert_pending.
      { eapply (heap_has_lookup_p _ _ ((length h + 1, [rx2]) :: (length h, [rx1]) :: R));
          [| exact H5]. solve_Permutation. }
      eapply net_ok_insert_pending.
      { eapply (heap_has_lookup_p _ _ ((length h + 2, []) :: (length h, [rx1]) :: R));
          [| exact H4]. solve_Permutation. }
      apply net_ok_app. eapply net_ok_insert_pending.
      { eapply (heap_has_lookup_p _ _ ((length h + 1, []) :: R)); [| exact H2].
        solve_Permutation. }
      by do 2 apply net_ok_app.
    + done.
    + subst h5. rewrite !length_insert, length_app, Hl3. simpl. lia.
  - (* the request has settled *)
    remember (dead_cells dead ++ flat_map qitem_cells post
              ++ chain_cells (j_chain j) w) as R eqn:ER.
    destruct s as [v | e]; unfold run_reaction, resolve_rx; simpl.
    + unfold bind, ret.
      rewrite (settle_pending _ _ (cont_rx (j_cont j))); simpl.
      2:{ eapply (heap_has_lookup_p _ _
                    (cont_cells (j_cont j) ++ (d1, [debug_rx d2])
                       :: (d2, [adopt_rx (j_chain j)]) :: R)); [| exact Hh].
          subst R. perm. }
      assert (H1 : heap_has (<[j_caller j := Settled (Fulfilled v)]> h)
                     ((d1, [debug_rx d2]) :: cont_cells (j_cont j)
                        ++ (d2, [adopt_rx (j_chain j)]) :: R)).
      { eapply heap_has_settle_p; [| exact Hh]. subst R. perm. }
      rewrite (settle_pending _ _ [debug_rx d2]); simpl.
      2:{ eapply heap_has_lookup_p; [| exact H1]. reflexivity. }
      split; [| by rewrite app_nil_r]. constructor; simpl.
      * eapply heap_has_settle_p; [| exact H1].
        subst R. unfold cells. simpl. rewrite !app_nil_r, flat_map_app, cont_items_cells.
        unfold shape_cells, phase_cells. simpl. solve_Permutation.
      * unfold queue. simpl.
        by rewrite cont_items_tasks, map_app, <- !app_assoc.
      * done.
      * by do 2 apply net_ok_insert_settled.
      * done.
      * len.
    + rewrite (settle_pending _ _ [debug_rx d2]); simpl.
      2:{ eapply (heap_has_lookup_p _ _
                    (caller_cells (j_caller j) (j_cont j)
                       ++ (d2, [adopt_rx (j_chain j)]) :: R)); [| exact Hh].
          subst R. unfold cells, shape_cells, phase_cells. simpl. rewrite ?app_nil_r.
          solve_Permutation. }
      split; [| by rewrite app_nil_r]. constructor; simpl.
      * eapply heap_has_settle_p; [| exact Hh].
        unfold cells, shape_cells, phase_cells, dead_cells. simpl.
        rewrite ?app_nil_r, flat_map_app. simpl. rewrite ?app_nil_r. solve_Permutation.
      * unfold queue. simpl. by rewrite ?app_nil_r.
      * done.
      * by apply net_ok_insert_settled.
      * done.
      * len.
  - (* the result of [then] has settled *)
    destruct s as [v | e]; unfold run_reaction, debug_rx; simpl.
    + rewrite (settle_pending _ _ [adopt_rx (j_chain j)]); simpl.
      2:{ eapply (heap_has_lookup_p _ _
                    (dead_cells dead ++ flat_map qitem_cells post
                     ++ chain_cells (j_chain j) w)); [| exact Hh]. perm. }
      split; [| by rewrite app_nil_r]. constructor; simpl.
      * eapply heap_has_settle_p; [| exact Hh]. perm.
      * unfold queue. simpl. by rewrite ?app_nil_r.
      * done.
      * by apply net_ok_insert_settled.
      * done.
      * len.
    + unfold bind, debug, ret. simpl.
      rewrite (settle_pending _ _ [adopt_rx (j_chain j)]); simpl.
      2:{ eapply (heap_has_lookup_p _ _
                    (dead_cells dead ++ flat_map qitem_cells post
                     ++ chain_cells (j_chain j) w)); [| exact Hh]. perm. }
      split; [| done]. constructor; simpl.
      * eapply heap_has_settle_p; [| exact Hh]. perm.
      * unfold queue. simpl. by rewrite ?app_nil_r.
      * done.
      * by apply net_ok_insert_settled.
      * done.
      * len.
  - (* the result of [catch] has settled: the chain moves on *)
    unfold run_reaction, adopt_rx; simpl.
    destruct w as [| k w]; simpl in *.
    + rewrite (settle_pending _ _ []); simpl.
      2:{ eapply (heap_has_lookup_p _ _
                    (dead_cells dead ++ flat_map qitem_cells post)); [| exact Hh]. perm. }
      split; [| by rewrite app_nil_r]. constructor; simpl.
      * eapply heap_has_settle_p; [| exact Hh]. perm.
      * unfold queue. simpl. by rewrite ?app_nil_r.
      * subst c. apply list_lookup_insert_eq.
        eapply lookup_lt_Some,
          (heap_has_lookup_p _ _ (dead_cells dead ++ flat_map qitem_cells post));
          [| exact Hh]. perm.
      * by apply net_ok_insert_settled.
      * done.
      * len.
    + rewrite (settle_pending _ _ [job_rx k]); simpl.
      2:{ eapply (heap_has_lookup_p _ _
                    (dead_cells dead ++ flat_map qitem_cells post
                     ++ caller_cells (j_caller k) (j_cont k)
                     ++ chain_cells (j_chain k) w)); [| exact Hh]. perm. }
      split; [| by rewrite app_nil_r]. constructor; simpl.
      * eapply heap_has_settle_p; [| exact Hh]. perm.
      * unfold queue. simpl. by rewrite ?app_nil_r.
      * done.
      * by apply net_ok_insert_settled.
      * done.
      * len.
Qed.

Lemma inv_tick (a : machine) (st : state) :
  Inv a st →
  Inv (tick_machine a) (step st EvTick)
  ∧ log (step st EvTick) = log st ++ tick_log a.
Proof.
  intros HI. destruct a as [sh pre post dead anet anext].
  remember (step st EvTick) as st' eqn:Est.
  unfold tick_machine, tick_log. simpl.
  destruct pre as [|i pre'].
  - destruct (has_task sh) eqn:Htask.
    + destruct (inv_tick_chain (mkMachine sh [] post dead anet anext) st eq_refl Htask HI)
        as [HI' Hlog]. rewrite <- Est in HI', Hlog. simpl in *.
      split; [done |]. rewrite Hlog.
      by destruct sh as [v | j [v | r d1 d2 | d1 d2 s | d2 [v | e] | v] w].
    + pose proof (tasks_no_task _ Htask) as Hno.
      destruct post as [|i post'].
      * subst st'. rewrite step_tick, (inv_tasks _ _ HI). unfold queue. simpl.
        rewrite Hno. simpl. split; [done |].
        destruct sh as [v | j [v | r d1 d2 | d1 d2 s | d2 [v | e] | v] w];
          simpl in *; by rewrite ?app_nil_r.
      * assert (H : Inv (mkMachine sh [] (post' ++ qitem_next i) dead anet anext)
                      (step st EvTick)
                    ∧ log (step st EvTick) = log st ++ qitem_log i).
        { eapply (inv_tick_inert _ _ _ i (map qitem_task post')
                    (dead_cells dead ++ flat_map qitem_cells post' ++ shape_cells sh));
            [exact HI | | | | | done | done | done].
          - rewrite (inv_tasks _ _ HI). unfold queue. simpl. by rewrite Hno.
          - perm.
          - perm.
          - unfold queue. simpl. by rewrite Hno, map_app. }
        rewrite <- Est in H. destruct H as [H1 H2]. split; [exact H1 |]. rewrite H2.
        by destruct sh as [v | j [v | r d1 d2 | d1 d2 s | d2 [v | e] | v] w].
  - rewrite Est.
    eapply (inv_tick_inert _ _ _ i
              (map qitem_task pre' ++ tasks sh ++ map qitem_task post)
              (dead_cells dead ++ flat_map qitem_cells (pre' ++ post) ++ shape_cells sh));
      [exact HI | by rewrite (inv_tasks _ _ HI) | perm | perm | | done | done | done].
    unfold queue. simpl. by rewrite map_app, <- !app_assoc.
Qed.

(** *** Exports *)

Lemma convertToImage_rejected (puml format : string) (st : state) :
  JS.match_w3 format = None →
  convertToImage puml format st =
    (length (promises st),
     set_promises
       (promises st ++
          [Settled (Rejected (VError ("Cannot identify image format from " ++ format)%string))])
       st).
Proof.
  intros E. unfold convertToImage, bind, new_promise. rewrite E.
  rewrite (settle_pending _ _ []) by apply lookup_snoc_fresh.
  unfold ret, set_microtasks, set_promises. simpl.
  rewrite insert_snoc_fresh, app_nil_r. by destruct st.
Qed.

Lemma cells_attach (a : machine) (m puml : string) (kc : cont) :
  ∃ Rk,
    cells (enqueue_job a (mkJob m puml (a_next a) (a_next a + 1) None) 0)
    ≡ₚ (a_next a, []) :: Rk
    ∧ cells (enqueue_job a (mkJob m puml (a_next a) (a_next a + 1) (Some kc)) 2)
      ≡ₚ (a_next a, [save_rx kc]) :: (k_saved kc, [rethrow_rx (k_final kc)])
          :: (k_final kc, []) :: Rk.
Proof.
  destruct a as [sh pre post dead anet anext]. unfold enqueue_job. simpl.
  destruct sh as [v | j ph w].
  - exists (dead_cells dead ++ flat_map qitem_cells (pre ++ post) ++ [(anext + 1, [])]).
    split; perm.
  - destruct (chain_cells_snoc (j_chain j) w) as (cs & Ecs & Hsnoc).
    exists (dead_cells dead ++ flat_map qitem_cells (pre ++ post) ++ phase_cells j ph
            ++ cs ++ [(last_chain (j_chain j) w,
                       [job_rx (mkJob m puml anext (anext + 1) None)]);
                      (anext + 1, [])]).
    split.
    + unfold cells, shape_cells. simpl.
      destruct (Hsnoc (mkJob m puml anext (anext + 1) None)) as [-> _]. simpl.
      solve_Permutation.
    + unfold cells, shape_cells. simpl.
      destruct (Hsnoc (mkJob m puml anext (anext + 1) (Some kc))) as [-> _]. simpl.
      unfold job_rx. simpl. solve_Permutation.
Qed.

Lemma enqueue_job_cont (a : machine) (k k' : job) (n n' : nat) :
  j_format k = j_format k' → j_puml k = j_puml k' → j_caller k = j_caller k' →
  j_chain k = j_chain k' →
  queue (enqueue_job a k n) = queue (enqueue_job a k' n')
  ∧ flying (a_shape (enqueue_job a k n)) = flying (a_shape (enqueue_job a k' n'))
  ∧ a_net (enqueue_job a k n) = a_net (enqueue_job a k' n')
  ∧ a_next (enqueue_job a k n) + n' = a_next (enqueue_job a k' n') + n
  ∧ match a_shape (enqueue_job a k n), a_shape (enqueue_job a k' n') with
    | Busy j _ w, Busy j' _ w' => last_chain (j_chain j) w = last_chain (j_chain j') w'
    | _, _ => False
    end.
Proof.
  destruct k as [f1 p1 c1 ch1 o1], k' as [f2 p2 c2 ch2 o2]. simpl.
  intros -> -> -> ->. destruct a as [sh pre post dead anet anext].
  unfold enqueue_job, queue. simpl. destruct sh as [v | j ph w]; simpl.
  - repeat split; lia.
  - refine (conj _ (conj _ (conj _ (conj _ _)))); [by destruct ph | by destruct ph | done | lia |].
    destruct (chain_cells_snoc (j_chain j) w) as (cs & _ & Hsnoc).
    destruct (Hsnoc (mkJob f2 p2 c2 ch2 o1)) as [_ ->].
    by destruct (Hsnoc (mkJob f2 p2 c2 ch2 o2)) as [_ ->].
Qed.

Lemma inv_export_text (a : machine) (st : state) (v : value) :
  Inv a st →
  Inv (mkMachine (a_shape a) (a_pre a) (a_post a) (a_dead a) (a_net a) (a_next a + 1))
      (promise_resolve v st).2.
Proof.
  destruct st as [h q c n l f t], a as [sh pre post dead anet anext].
  intros [Hh Ht Hc Hn Hnet Hnext]; simpl in *. subst.
  unfold promise_resolve, bind, new_promise, ret. simpl.
  rewrite (settle_pending _ _ []); simpl; [| apply lookup_snoc_fresh].
  constructor; simpl.
  - eapply heap_has_settle_p;
      [| eapply (heap_has_alloc_p _ _ _ [] (length h)); [done | reflexivity | exact Hh]].
    reflexivity.
  - by rewrite app_nil_r.
  - destruct sh as [v' | j ph w]; [| done].
    rewrite list_lookup_insert_ne, lookup_app_l; [done | |];
      apply lookup_lt_Some in Hc; lia.
  - by apply net_ok_insert_settled, net_ok_app.
  - done.
  - len.
Qed.

Lemma inv_export_image (a : machine) (st : state) (format puml path : string)
    (save : bool) :
  Inv a st →
  Inv match JS.match_w3 format with
      | Some path0 =>
          enqueue_job a
            (mkJob path0 puml (a_next a) (a_next a + 1)
               (Some (mkCont save path (a_next a + 2) (a_next a + 3))))
            2
      | None =>
          mkMachine (a_shape a) (a_pre a)
            (a_post a ++
               [QSave (mkCont save path (a_next a + 1) (a_next a + 2))
                  (Rejected (VError ("Cannot identify image format from " ++ format)%string))])
            (a_dead a) (a_net a) (a_next a + 3)
      end
      (let '(image, s1) := convertToImage puml format st in
       let '(saved, s2) := then_ image (CbSave save path) s1 in
       catch_ saved CbRethrow s2).2.
Proof.
  intros HI. destruct (JS.match_w3 format) as [m|] eqn:Em.
  - destruct (inv_submit a st puml format HI) as [HI2 Hp].
    unfold submit_machine in HI2. rewrite Em in HI2.
    destruct (convertToImage puml format st) as [p st2]. simpl in HI2, Hp. subst p.
    set (kc := mkCont save path (a_next a + 2) (a_next a + 3)).
    destruct (cells_attach a m puml kc) as (Rk & HR0 & HR2).
    set (k0 := mkJob m puml (a_next a) (a_next a + 1) None) in *.
    set (k := mkJob m puml (a_next a) (a_next a + 1) (Some kc)) in *.
    destruct (enqueue_job_cont a k k0 2 0 eq_refl eq_refl eq_refl eq_refl)
      as (Eq & Efl & Enet & Enext & Echain).
    destruct HI2 as [Hh Ht Hc Hn Hnet Hnext].
    assert (Hlen : length (promises st2) = a_next a + 2).
    { rewrite Hnext. destruct a as [[] ? ? ? ? ?]; simpl; lia. }
    destruct st2 as [h q c n l f t]. simpl in *.
    unfold then_, catch_, bind, new_promise, ret. simpl.
    assert (H1 : heap_has (h ++ [Pending []])
                   ((a_next a + 2, []) :: cells (enqueue_job a k0 0))).
    { eapply (heap_has_alloc_p _ _ _ [] (a_next a + 2)); [done | reflexivity | exact Hh]. }
    rewrite (subscribe_pending _ _ []); simpl.
    2:{ eapply (heap_has_lookup_p _ _ ((a_next a + 2, []) :: Rk)); [| exact H1].
        rewrite HR0. solve_Permutation. }
    rewrite !Hlen.
    match goal with
    | |- context [subscribe _ _ (set_promises (?x ++ [Pending []]) _)] => set (h3 := x)
    end.
    assert (H3 : heap_has h3 ((a_next a, [save_rx kc]) :: (a_next a + 2, []) :: Rk)).
    { eapply (heap_has_update_p _ _ ((a_next a + 2, []) :: Rk) _ _ []);
        [| reflexivity | exact H1]. rewrite HR0. solve_Permutation. }
    assert (Hl3 : length h3 = a_next a + 3) by (subst h3; len).
    rewrite !Hl3.
    assert (H4 : heap_has (h3 ++ [Pending []])
                   ((a_next a + 3, []) :: (a_next a, [save_rx kc])
                      :: (a_next a + 2, []) :: Rk)).
    { eapply (heap_has_alloc_p _ _ _ [] (a_next a + 3)); [done | reflexivity | exact H3]. }
    rewrite (subscribe_pending _ _ []); simpl.
    2:{ eapply (heap_has_lookup_p _ _ ((a_next a + 3, []) :: (a_next a, [save_rx kc]) :: Rk));
          [| exact H4]. solve_Permutation. }
    constructor; simpl.
    + eapply (heap_has_update_p _ _ ((a_next a + 3, []) :: (a_next a, [save_rx kc]) :: Rk)
                _ _ [] [rethrow_rx (a_next a + 3)]); [| | exact H4].
      * solve_Permutation.
      * rewrite HR2. solve_Permutation.
    + by rewrite Eq.
    + destruct (a_shape (enqueue_job a k 2)), (a_shape (enqueue_job a k0 0)); try done.
      by rewrite Echain.
    + eapply net_ok_flying; [symmetry; exact Efl |].
      eapply net_ok_insert_pending.
      { eapply (heap_has_lookup_p _ _ ((a_next a + 3, []) :: (a_next a, [save_rx kc]) :: Rk));
          [| exact H4]. solve_Permutation. }
      apply net_ok_app. eapply net_ok_insert_pending.
      { eapply (heap_has_lookup_p _ _ ((a_next a + 2, []) :: Rk)); [| exact H1].
        rewrite HR0. solve_Permutation. }
      by apply net_ok_app.
    + by rewrite Enet.
    + rewrite length_insert, length_app, Hl3. simpl. lia.
  - rewrite (convertToImage_rejected _ _ _ Em).
    destruct st as [h q c n l f t], a as [sh pre post dead anet anext].
    destruct HI as [Hh Ht Hc Hn Hnet Hnext]; simpl in *. subst.
    unfold then_, catch_, bind, new_promise, ret. simpl.
    rewrite (subscribe_settled _ _
               (Rejected (VError ("Cannot identify image format from " ++ format)%string)));
      simpl.
    2:{ rewrite lookup_app_l by len. apply lookup_snoc_fresh. }
    norm_len.
    set (s := Rejected (VError ("Cannot identify image format from " ++ format)%string)).
    remember (cells (mkMachine sh pre post dead anet (length h))) as R eqn:ER.
    assert (H2 : heap_has (((h ++ [Settled s]) ++ [Pending []]) ++ [Pending []])
                   ((length h + 2, []) :: (length h + 1, []) :: R)).
    { eapply (heap_has_alloc_p _ _ _ [] (length h + 2)); [len | reflexivity |].
      eapply (heap_has_alloc_p _ _ _ [] (length h + 1)); [len | reflexivity |].
      by apply heap_has_app. }
    rewrite (subscribe_pending _ _ []); simpl.
    2:{ eapply (heap_has_lookup_p _ _ ((length h + 2, []) :: R)); [| exact H2].
        solve_Permutation. }
    constructor; simpl.
    + eapply (heap_has_update_p _ _ ((length h + 2, []) :: R) _ _ []
                [rethrow_rx (length h + 2)]); [| | exact H2].
      * solve_Permutation.
      * subst R. perm.
    + unfold queue. simpl. by rewrite map_app, <- !app_assoc.
    + destruct sh as [v' | j ph w]; [| done].
      rewrite list_lookup_insert_ne, !lookup_app_l;
        first [done | apply lookup_lt_Some in Hc; rewrite ?length_app; simpl; lia].
    + eapply net_ok_insert_pending.
      { eapply (heap_has_lookup_p _ _ ((length h + 2, []) :: R)); [| exact H2].
        solve_Permutation. }
      by do 3 apply net_ok_app.
    + done.
    + len.
Qed.

Lemma inv_convert (a : machine) (st : state) (pathOrType puml : string) :
  Inv a st →
  Inv (convert_machine cwd config_directory OutputFormat_values a pathOrType puml)
      (convert cwd config_directory OutputFormat_values pathOrType puml st).2.
Proof.
  intros HI. unfold convert, convert_machine, export_plan.
  set (fullExportPath := Path.resolve cwd [config_directory; pathOrType]).
  set (ext := Path.extname fullExportPath).
  set (save := JS.array_includes OutputFormat_values (JS.remove_first "." ext)).
  set (output := JS.array_includes OutputFormat_values pathOrType).
  destruct st as [h q c n l f t].
  unfold bind, existsSync, debug, unlinkSync, writeFileSync, ret. simpl.
  destruct (bool_decide (is_Some (f !! fullExportPath))); simpl;
    destruct (save || output); simpl;
    try (apply (inv_export_image a _ _ puml fullExportPath save);
         eapply inv_core; [.. | exact HI]; done);
    destruct (String.eqb ext ".puml"); simpl;
    apply (inv_export_text a _ (VString puml));
    (eapply inv_core; [.. | exact HI]; done).
Qed.

(** Every step of the process is matched by a step of the queue. *)
Lemma inv_step (a : machine) (st : state) (ev : event) :
  Inv a st → Inv (machine_step a ev) (step st ev).
Proof.
  intros HI. destruct ev as [pathOrType puml | puml format | | r chunks | r err]; simpl.
  - by apply inv_convert.
  - by apply inv_submit.
  - by apply inv_tick.
  - by apply inv_settle.
  - by apply inv_settle.
Qed.

Lemma inv_init (fs : gmap string value) : Inv machine_init (init fs).
Proof.
  constructor; simpl; try done.
  - split; [constructor | intros ?? Hin; inversion Hin].
  - constructor.
Qed.

Lemma inv_run (a : machine) (st : state) (evs : list event) :
  Inv a st → Inv (machine_run a evs) (run st evs).
Proof.
  revert a st. induction evs as [|ev evs IH]; intros a st HI; [done |].
  simpl. by apply IH, inv_step.
Qed.

End Simulation.

Local Open Scope nat_scope.

(** ** Properties of the queue *)

Lemma pending_sigs_snoc j ph w k :
  pending_sigs (Busy j ph (w ++ [k])) = pending_sigs (Busy j ph w) ++ [job_sig k].
Proof. destruct ph; simpl; by rewrite map_app. Qed.

Lemma fifo_enqueue (a : machine) (sigs : list (string * string)) (k : job) (n : nat) :
  fifo a sigs → fifo (enqueue_job a k n) (sigs ++ [job_sig k]).
Proof.
  unfold fifo, enqueue_job. destruct a as [sh pre post dead anet anext]. simpl.
  intros <-. destruct sh as [v | j ph w]; cbn [a_shape a_net].
  - simpl. by rewrite app_nil_r.
  - by rewrite pending_sigs_snoc, app_assoc.
Qed.

Lemma fifo_same (a a' : machine) (sigs : list (string * string)) :
  a_net a' = a_net a → pending_sigs (a_shape a') = pending_sigs (a_shape a) →
  fifo a sigs → fifo a' sigs.
Proof. unfold fifo. by intros -> ->. Qed.

Lemma filter_none {A} (f : A → bool) (l : list A) :
  Forall (λ x, f x = false) l → List.filter f l = [].
Proof. induction 1 as [|x l Hx _ IH]; simpl; [done |]. by rewrite Hx. Qed.

Lemma settled_not_in_flight (st : state) (q : http_request) :
  settled_in (promises st) (req_promise q) → in_flight st q = false.
Proof. intros [s H]. unfold in_flight. by rewrite H. Qed.


Section Traces.

Variable cwd : string.
Variable config_directory : string.
Variable OutputFormat_values : list string.

Lemma machine_run_snoc (a : machine) (evs : list event) (ev : event) :
  machine_run cwd config_directory OutputFormat_values a (evs ++ [ev])
  = machine_step cwd config_directory OutputFormat_values
      (machine_run cwd config_directory OutputFormat_values a evs) ev.
Proof. unfold machine_run. by rewrite fold_left_app. Qed.

Lemma accepted_snoc (evs : list event) (ev : event) :
  accepted cwd config_directory OutputFormat_values (evs ++ [ev])
  = accepted cwd config_directory OutputFormat_values evs
    ++ accepted_request cwd config_directory OutputFormat_values ev.
Proof. unfold accepted. rewrite flat_map_app. simpl. by rewrite app_nil_r. Qed.

Lemma accepted_elem (evs : list event) (x : string * string) :
  In x (accepted cwd config_directory OutputFormat_values evs) →
  ∃ ev, In ev evs ∧ In x (accepted_request cwd config_directory OutputFormat_values ev).
Proof. unfold accepted. apply in_flat_map. Qed.

End Traces.

Section Queue.

Variable cwd : string.
Variable config_directory : string.
Variable OutputFormat_values : list string.

Local Abbreviation step := (step cwd config_directory OutputFormat_values).
Local Abbreviation run := (run cwd config_directory OutputFormat_values).
Local Abbreviation machine_step := (machine_step cwd config_directory OutputFormat_values).
Local Abbreviation machine_run := (machine_run cwd config_directory OutputFormat_values).
Local Abbreviation accepted := (accepted cwd config_directory OutputFormat_values).
Local Abbreviation accepted_request :=
  (accepted_request cwd config_directory OutputFormat_values).
Local Abbreviation export_plan := (export_plan cwd config_directory OutputFormat_values).
Local Abbreviation submitted := (submitted cwd config_directory OutputFormat_values).

Lemma fifo_step (a : machine) (sigs : list (string * string)) (ev : event) :
  fifo a sigs → fifo (machine_step a ev) (sigs ++ accepted_request ev).
Proof.
  intros H. destruct ev as [pathOrType puml | puml format | | r chunks | r err]; simpl.
  - unfold convert_machine.
    destruct (export_plan pathOrType) as [[[format save] path]|];
      [| rewrite app_nil_r; by eapply fifo_same].
    unfold token_request. destruct (JS.match_w3 format) as [m|].
    + by apply (fifo_enqueue _ _ (mkJob m puml _ _ _)).
    + rewrite app_nil_r. by eapply fifo_same.
  - unfold submit_machine, token_request. destruct (JS.match_w3 format) as [m|].
    + by apply (fifo_enqueue _ _ (mkJob m puml _ _ _)).
    + rewrite app_nil_r. by eapply fifo_same.
  - rewrite app_nil_r. unfold tick_machine.
    destruct (a_pre a); [| by eapply fifo_same].
    destruct (has_task (a_shape a)); [| by destruct (a_post a); eapply fifo_same].
    unfold fifo, chain_tick in *. destruct a as [sh pre post dead anet anext].
    simpl in *. subst sigs.
    destruct sh as [v | j ph w]; simpl; [done |].
    destruct ph as [v | r d1 d2 | d1 d2 [v | e] | d2 [v | e] | v]; simpl; try done.
    + by rewrite map_app, <- app_assoc.
    + by destruct w.
  - rewrite app_nil_r. unfold settle_machine.
    destruct (a_shape a) as [v | j [v | r' d1 d2 | d1 d2 s | d2 s | v] w] eqn:E;
      try done.
    destruct (r =? r')%nat; [| done]. eapply fifo_same; [| | exact H]; simpl; by rewrite ?E.
  - rewrite app_nil_r. unfold settle_machine.
    destruct (a_shape a) as [v | j [v | r' d1 d2 | d1 d2 s | d2 s | v] w] eqn:E;
      try done.
    destruct (r =? r')%nat; [| done]. eapply fifo_same; [| | exact H]; simpl; by rewrite ?E.
Qed.

Lemma fifo_run (evs : list event) : fifo (machine_run machine_init evs) (accepted evs).
Proof.
  induction evs as [|ev evs IH] using rev_ind; [done |].
  rewrite machine_run_snoc, accepted_snoc. by apply fifo_step.
Qed.

(** The reachable states, with the queue that describes them. *)
Lemma reachable_inv (fs : gmap string value) (evs : list event) :
  Inv (machine_run machine_init evs) (run (init fs) evs).
Proof. apply inv_run, inv_init. Qed.

(** C10: every request handed to the platform stems from a submission of
    the trace, carries its diagram text, and has as path a slash
    followed by the first three-character token of the submitted format
    string: whatever follows the token is dropped. *)
Theorem request_path_is_first_token (fs : gmap string value) (evs : list event)
    (q : http_request) :
  In q (network (run (init fs) evs)) →
  ∃ puml format m,
    submitted evs puml format
    ∧ JS.match_w3 format = Some m
    ∧ first_format_token format m
    ∧ req_path q = ("/" ++ m)%string
    ∧ req_payload q = puml.
Proof.
  intros Hin. pose proof (reachable_inv fs evs) as HI.
  rewrite (inv_network _ _ HI) in Hin.
  assert (Hsig : In (request_sig q) (accepted evs)).
  { pose proof (fifo_run evs) as <-. apply in_or_app. left. by apply in_map. }
  apply accepted_elem in Hsig as (ev & Hev & Hsig).
  assert (Htok : ∀ puml format, In (request_sig q) (token_request puml format) →
            ∃ m, JS.match_w3 format = Some m ∧ first_format_token format m
                 ∧ req_path q = ("/" ++ m)%string ∧ req_payload q = puml).
  { intros puml format. unfold token_request.
    destruct (JS.match_w3 format) as [m|] eqn:Em; simpl; [| done].
    intros [[= Hp Hq] | []]. exists m. repeat split; try done.
    pose proof (match_w3_spec format) as Hspec. by rewrite Em in Hspec. }
  destruct ev as [pathOrType puml | puml format | | |]; simpl in Hsig; try done.
  - destruct (export_plan pathOrType) as [[[format save] path]|] eqn:Ep; [| done].
    destruct (Htok _ _ Hsig) as (m & H1 & H2 & H3 & H4).
    exists puml, format, m. repeat split; try done.
    right. by exists pathOrType, save, path.
  - destruct (Htok _ _ Hsig) as (m & H1 & H2 & H3 & H4).
    exists puml, format, m. repeat split; try done. by left.
Qed.

End Queue.

Lemma request_path_is_first_token_witness :
  let evs := [EvConvertToImage "@startuml" ".jpeg"; EvTick] in
  In (mkRequest "/jpe" "@startuml" 3)
     (network (run "/work" "out" ["svg"; "png"] (init ∅) evs))
  ∧ ∃ puml format m,
      submitted "/work" "out" ["svg"; "png"] evs puml format
      ∧ JS.match_w3 format = Some m
      ∧ first_format_token format m
      ∧ "/jpe" = ("/" ++ m)%string
      ∧ "@startuml" = puml.
Proof.
  split; [by left |].
  apply (request_path_is_first_token "/work" "out" ["svg"; "png"] ∅
           [EvConvertToImage "@startuml" ".jpeg"; EvTick]
           (mkRequest "/jpe" "@startuml" 3)).
  by left.
Defined.

(** ** Submitting a conversion *)

Ltac in_cells :=
  unfold cells, shape_cells, phase_cells, caller_cells; simpl;
  repeat first [rewrite elem_of_app | rewrite elem_of_cons]; auto 20.

Lemma dead_cells_elem (dead : list (pid * option cont)) (p : pid) (oc : option cont) :
  (p, oc) ∈ dead → (p, cont_rx oc) ∈ dead_cells dead.
Proof.
  intros H. apply list_elem_of_In, in_flat_map. exists (p, oc).
  split; [by apply list_elem_of_In | by left].
Qed.

Lemma take_S_app {A B} (f : A → B) (l : list A) (k : list B) :
  take (S (length l)) (map f l ++ k) = map f l ++ take 1 k.
Proof.
  rewrite take_app, length_map, take_ge by (rewrite length_map; lia).
  by replace (S (length l) - length l) with 1 by lia.
Qed.

Lemma doomed_pending (a : machine) (st : state) (p : pid) (oc : option cont) :
  Inv a st → doomed a p oc → promises st !! p = Some (Pending (cont_rx oc)).
Proof.
  intros HI [Hd | (j & d1 & d2 & e & w & E & <- & <-)];
    (eapply heap_has_lookup; [exact (inv_heap _ _ HI) |]); unfold cells.
  - apply elem_of_app. left. by apply dead_cells_elem.
  - rewrite E. in_cells.
Qed.

(** The promise of an issued request that still carries the caller's
    continuation is the one in flight. *)
Lemma flight_identified (a : machine) (st : state) (q : http_request) (p d : pid) :
  Inv a st → In q (network st) →
  promises st !! req_promise q = Some (Pending [Reaction (Some (CbResolve p)) None d]) →
  ∃ j d2 w, a_shape a = Busy j (PFlight (req_promise q) d d2) w ∧ j_caller j = p.
Proof.
  intros HI Hin Hr.
  destruct (decide (flying (a_shape a) = Some (req_promise q))) as [Hf | Hf].
  - destruct (a_shape a) as [v | j [v | r' d1 d2 | d1 d2 s | d2 s | v] w] eqn:E;
      simpl in Hf; try done.
    injection Hf as ->.
    pose proof (inv_heap _ _ HI) as Hh.
    assert (Hr' : promises st !! req_promise q
                  = Some (Pending [resolve_rx (j_caller j) d1])).
    { eapply heap_has_lookup; [exact Hh |]. unfold cells. rewrite E. in_cells. }
    rewrite Hr in Hr'. injection Hr' as -> ->. by exists j, d2, w.
  - apply list_elem_of_In in Hin.
    destruct (net_ok_settled _ _ _ q (inv_net _ _ HI) Hin Hf) as [s Hs]. congruence.
Qed.

Section Failure.

Variable cwd : string.
Variable config_directory : string.
Variable OutputFormat_values : list string.

Local Abbreviation step := (step cwd config_directory OutputFormat_values).
Local Abbreviation run := (run cwd config_directory OutputFormat_values).
Local Abbreviation machine_step := (machine_step cwd config_directory OutputFormat_values).
Local Abbreviation machine_run := (machine_run cwd config_directory OutputFormat_values).
Local Abbreviation accepted := (accepted cwd config_directory OutputFormat_values).
Local Abbreviation export_plan := (export_plan cwd config_directory OutputFormat_values).
Local Abbreviation reachable_inv :=
  (reachable_inv cwd config_directory OutputFormat_values).

(** C7: a format string without a three-character token makes
    [convertToImage] reject the promise it returns at once, the promise
    chain, the queue of reactions and every existing promise being left as
    they were; a format string with a token leaves the returned promise
    pending and appends the request to the chain: the job becomes the
    reaction of the previous last promise of the chain (or is queued at
    once when that promise is already fulfilled), and a fresh promise
    becomes the end of the chain.  No request is sent during the call. *)
Theorem format_token_gates_the_queue (fs : gmap string value) (evs : list event)
    (puml format : string) :
  let st := run (init fs) evs in
  let p := (convertToImage puml format st).1 in
  let st' := (convertToImage puml format st).2 in
  match JS.match_w3 format with
  | None =>
      ¬ has_format_token format
      ∧ p = length (promises st)
      ∧ promises st' =
          promises st ++
            [Settled (Rejected
               (VError ("Cannot identify image format from " ++ format)%string))]
      ∧ requestChain st' = requestChain st
      ∧ microtasks st' = microtasks st
      ∧ network st' = network st
  | Some m =>
      first_format_token format m
      ∧ p = length (promises st)
      ∧ promises st' !! p = Some (Pending [])
      ∧ requestChain st' = S p
      ∧ promises st' !! S p = Some (Pending [])
      ∧ network st' = network st
      ∧ let rx := Reaction (Some (CbRequestJob m puml p)) None (S p) in
        (promises st !! requestChain st = Some (Pending [])
         ∧ promises st' !! requestChain st = Some (Pending [rx])
         ∧ microtasks st' = microtasks st)
        ∨ (∃ v, promises st !! requestChain st = Some (Settled (Fulfilled v))
                ∧ microtasks st' = microtasks st ++ [(rx, Fulfilled v)])
  end.
Proof.
  intros st p st'. pose proof (match_w3_spec format) as Hspec.
  destruct (JS.match_w3 format) as [m|] eqn:Em.
  - pose proof (reachable_inv fs evs) as HI. fold st in HI.
    destruct (inv_submit _ _ puml format HI) as [HI' Hp].
    fold st' in HI'. fold p in Hp.
    set (a := machine_run machine_init evs) in *.
    pose proof (inv_next _ _ HI) as Hnext.
    assert (Hpn : S p = a_next a + 1) by lia.
    clearbody p st'. subst p.
    pose proof (inv_heap _ _ HI') as Hh'. pose proof (inv_chain _ _ HI') as Hc'.
    pose proof (inv_tasks _ _ HI') as Ht'. pose proof (inv_network _ _ HI') as Hn'.
    pose proof (inv_heap _ _ HI) as Hh. pose proof (inv_chain _ _ HI) as Hc.
    pose proof (inv_tasks _ _ HI) as Ht. pose proof (inv_network _ _ HI) as Hn.
    unfold submit_machine, enqueue_job in *. rewrite Em in *.
    rewrite Hpn. split; [done |]. split; [done |].
    destruct (a_shape a) as [v | j ph w] eqn:Esh.
    + unfold cells in Hh'. simpl in *. repeat split.
      * eapply heap_has_lookup; [exact Hh' |]. in_cells.
      * done.
      * eapply heap_has_lookup; [exact Hh' |]. in_cells.
      * congruence.
      * right. exists v. split; [done |]. rewrite Ht', Ht. unfold queue. simpl.
        rewrite Esh. simpl. by rewrite map_app.
    + destruct (chain_cells_snoc (j_chain j) w) as (cs & Ecs & Hsnoc).
      destruct (Hsnoc (mkJob m puml (a_next a) (a_next a + 1) None)) as [Ecs' Elast].
      unfold cells in Hh, Hh'. rewrite Esh in Hh. simpl in Hh, Hh', Hc', Ht', Hn'.
      rewrite Ecs in Hh. rewrite Ecs' in Hh'.
      rewrite Elast in Hc'. simpl in *. repeat split.
      * eapply heap_has_lookup; [exact Hh' |]. in_cells.
      * done.
      * eapply heap_has_lookup; [exact Hh' |]. in_cells.
      * congruence.
      * left. rewrite Hc. repeat split.
        -- eapply heap_has_lookup; [exact Hh |]. in_cells.
        -- eapply heap_has_lookup; [exact Hh' |]. in_cells.
        -- rewrite Ht', Ht. unfold queue. simpl. rewrite Esh. by destruct ph.
  - subst p st'. rewrite (convertToImage_rejected _ _ _ Em). by simpl.
Qed.

(** ** A request that fails *)

Lemma dead_step (a : machine) (ev : event) (x : pid * option cont) :
  x ∈ a_dead a → x ∈ a_dead (machine_step a ev).
Proof.
  destruct a as [sh pre post dead anet anext]. simpl. intros Hd.
  destruct ev as [pathOrType puml | puml format | | r chunks | r err]; simpl.
  - unfold convert_machine, enqueue_job. simpl.
    destruct (export_plan pathOrType) as [[[format save] path]|]; [| done].
    destruct (JS.match_w3 format); [| done]. by destruct sh.
  - unfold submit_machine, enqueue_job. simpl.
    destruct (JS.match_w3 format); [| done]. by destruct sh.
  - unfold tick_machine, chain_tick. simpl. destruct pre; [| done].
    destruct sh as [v | j [v | r d1 d2 | d1 d2 [v | e] | d2 [v | e] | v] w];
      simpl; try done; try (by destruct post).
    apply elem_of_app. by left.
  - unfold settle_machine. simpl.
    destruct sh as [v | j [v | r' d1 d2 | d1 d2 s | d2 s | v] w]; simpl; try done.
    by destruct (r =? r').
  - unfold settle_machine. simpl.
    destruct sh as [v | j [v | r' d1 d2 | d1 d2 s | d2 s | v] w]; simpl; try done.
    by destruct (r =? r').
Qed.

Lemma doomed_step (a : machine) (ev : event) (p : pid) (oc : option cont) :
  doomed a p oc → doomed (machine_step a ev) p oc.
Proof.
  intros [Hd | (j & d1 & d2 & e & w & Esh & <- & <-)].
  - left. by apply dead_step.
  - destruct a as [sh pre post dead anet anext]. simpl in Esh. subst sh.
    unfold doomed.
    destruct ev as [pathOrType puml | puml format | | r chunks | r err]; simpl.
    + unfold convert_machine, enqueue_job. simpl.
      destruct (export_plan pathOrType) as [[[format save] path]|];
        [| right; by exists j, d1, d2, e, w].
      destruct (JS.match_w3 format); simpl; right; by eexists j, d1, d2, e, _.
    + unfold submit_machine, enqueue_job. simpl.
      destruct (JS.match_w3 format); simpl; right; by eexists j, d1, d2, e, _.
    + unfold tick_machine, chain_tick. simpl. destruct pre; simpl.
      * left. apply elem_of_app. right. by left.
      * right. by exists j, d1, d2, e, w.
    + right. by exists j, d1, d2, e, w.
    + right. by exists j, d1, d2, e, w.
Qed.

Lemma doomed_run (a : machine) (evs : list event) (p : pid) (oc : option cont) :
  doomed a p oc → doomed (machine_run a evs) p oc.
Proof.
  revert a. induction evs as [|ev evs IH]; intros a H; [done |].
  simpl. by apply IH, doomed_step.
Qed.

(** Once the request of the job being served has failed and the queue of
    reactions holds nothing else, four ticks hand the next accepted
    request, if there is one, to the platform. *)
Lemma machine_progress j d1 d2 e w dead net next :
  map request_sig
    (a_net (machine_run
              (mkMachine (Busy j (PRSettled d1 d2 (Rejected e)) w) [] [] dead net next)
              [EvTick; EvTick; EvTick; EvTick]))
  = map request_sig net ++ take 1 (map job_sig w).
Proof. destruct w as [|k w]; simpl; by rewrite ?map_app, ?app_nil_r. Qed.

Lemma step_error_log (st : state) (r : pid) (err : string) :
  log (step st (EvError r err)) = log st.
Proof.
  simpl. destruct (issued st r); [| done]. unfold settle.
  by destruct (promises st !! r) as [[rs | s] |].
Qed.

(** C2: when the request made for a caller fails, the promise that
    [convertToImage] returned to that caller stays pending for ever, with
    the reactions it had: a continuation that [convert] attached to it
    never runs.  When nothing else is queued in the event loop, two ticks
    log the error and two more hand the next queued request to the
    platform. *)
Theorem failed_request_is_swallowed (fs : gmap string value) (evs : list event)
    (path payload : string) (r p d : pid) (err : string) :
  let st := run (init fs) evs in
  In (mkRequest path payload r) (network st) →
  promises st !! r = Some (Pending [Reaction (Some (CbResolve p)) None d]) →
  let st1 := step st (EvError r err) in
  (microtasks st = [] →
   log (run st1 [EvTick; EvTick]) = log st ++ [[VError err]]
   ∧ map request_sig (network (run st1 [EvTick; EvTick; EvTick; EvTick]))
     = take (S (length (network st))) (accepted evs))
  ∧ ∃ rs, promises st !! p = Some (Pending rs)
          ∧ ∀ evs', promises (run st1 evs') !! p = Some (Pending rs).
Proof.
  intros st Hin Hr st1.
  pose proof (reachable_inv fs evs) as HI. fold st in HI.
  set (a := machine_run machine_init evs) in *.
  destruct (flight_identified _ _ (mkRequest path payload r) p d HI Hin Hr)
    as (j & d2 & w & Esh & Ep). simpl in Esh.
  pose proof (inv_step cwd config_directory OutputFormat_values _ _ (EvError r err) HI)
    as HI1.
  fold st1 in HI1.
  set (a1 := machine_step a (EvError r err)) in *.
  assert (Ea1 : a1 = mkMachine (Busy j (PRSettled d d2 (Rejected (VError err))) w)
                       (a_pre a ++ a_post a) [] (a_dead a) (a_net a) (a_next a)).
  { subst a1. simpl. unfold settle_machine. rewrite Esh. by rewrite Nat.eqb_refl. }
  split.
  - intros Hq. pose proof (inv_tasks _ _ HI) as Ht. rewrite Hq in Ht.
    unfold queue in Ht. symmetry in Ht.
    apply app_eq_nil in Ht as [Hpre Ht]. apply app_eq_nil in Ht as [_ Hpost].
    apply map_eq_nil in Hpre, Hpost. rewrite Hpre, Hpost in Ea1. simpl in Ea1.
    split.
    + destruct (inv_tick cwd config_directory OutputFormat_values _ _ HI1) as [HI2 Hl2].
      destruct (inv_tick cwd config_directory OutputFormat_values _ _ HI2) as [_ Hl3].
      change (run st1 [EvTick; EvTick]) with (step (step st1 EvTick) EvTick).
      rewrite Hl3, Hl2. unfold st1 at 1. rewrite step_error_log, Ea1. simpl.
      by rewrite app_nil_r.
    + pose proof (inv_run cwd config_directory OutputFormat_values _ _
                    [EvTick; EvTick; EvTick; EvTick] HI1) as HI4.
      rewrite (inv_network _ _ HI4), (inv_network _ _ HI).
      assert (Hfifo : fifo a1 (accepted evs)).
      { pose proof (fifo_step cwd config_directory OutputFormat_values _ _
                      (EvError r err)
                      (fifo_run cwd config_directory OutputFormat_values evs)) as Hfifo.
        simpl in Hfifo. by rewrite app_nil_r in Hfifo. }
      unfold fifo in Hfifo. rewrite Ea1 in Hfifo. simpl in Hfifo.
      rewrite <- Hfifo, take_S_app, Ea1. apply machine_progress.
  - exists (cont_rx (j_cont j)). split.
    + eapply heap_has_lookup; [exact (inv_heap _ _ HI) |]. unfold cells.
      rewrite Esh, <- Ep. in_cells.
    + intros evs'. eapply doomed_pending; [by apply inv_run |].
      apply doomed_run. right. rewrite Ea1. simpl.
      by exists j, d, d2, (VError err), w.
Qed.

End Failure.

Lemma failed_request_is_swallowed_witness :
  let run := run "/work" "out" ["svg"; "png"] in
  let st := run (init ∅) [EvConvert "diagram.svg" "@startuml";
                          EvConvertToImage "@startuml" "png"; EvTick] in
  let st1 := step "/work" "out" ["svg"; "png"] st (EvError 7 "ECONNRESET") in
  In (mkRequest "/svg" "@startuml" 7) (network st)
  ∧ promises st !! 7 = Some (Pending [Reaction (Some (CbResolve 1)) None 8])
  ∧ microtasks st = []
  ∧ log (run st1 [EvTick; EvTick])
    = [[VString "Converting"; VString "/work/out/diagram.svg"]; [VError "ECONNRESET"]]
  ∧ map request_sig (network (run st1 [EvTick; EvTick; EvTick; EvTick]))
    = [("/svg", "@startuml"); ("/png", "@startuml")]
  ∧ promises
      (run st1 [EvTick; EvTick; EvTick; EvTick; EvResponse 10 ["<png>"];
                EvTick; EvTick; EvTick; EvTick])
      !! 1
    = Some (Pending [Reaction (Some (CbSave true "/work/out/diagram.svg")) None 3]).
Proof.
  pose proof (failed_request_is_swallowed "/work" "out" ["svg"; "png"] ∅
                [EvConvert "diagram.svg" "@startuml";
                 EvConvertToImage "@startuml" "png"; EvTick]
                "/svg" "@startuml" 7 1 8 "ECONNRESET") as H.
  cbv zeta in H.
  destruct H as (Hq & rs & Hrs & Hp); [by left | reflexivity |].
  destruct (Hq eq_refl) as [Hlog Hnet].
  vm_compute in Hrs. injection Hrs as <-.
  split; [by left |]. split; [reflexivity |]. split; [reflexivity |].
  split; [exact Hlog |]. split; [exact Hnet |]. apply Hp.
Defined.

(** * Further properties *)

(** ** More on the renderer *)

Lemma chars_inj (s t : string) : JS.chars s = JS.chars t → s = t.
Proof.
  revert t. induction s as [|c s IH]; intros [|c' t]; simpl; try done.
  intros [= -> H]. by rewrite (IH t H).
Qed.

Lemma append_inj_r (s t u : string) : (s ++ u = t ++ u)%string → s = t.
Proof.
  intros H. apply chars_inj. apply (f_equal JS.chars) in H.
  rewrite !chars_append in H. by apply app_inv_tail in H.
Qed.

Lemma append_inj_l (s t u : string) : (u ++ s = u ++ t)%string → s = t.
Proof.
  intros H. apply chars_inj. apply (f_equal JS.chars) in H.
  rewrite !chars_append in H. by apply app_inv_head in H.
Qed.

Lemma replace_nonword_fixed (s : string) :
  JS.replace_nonword s = s ↔ Forall (λ ch, JS.is_word ch = true) (JS.chars s).
Proof.
  induction s as [|c s IH]; simpl; [by split; [constructor |] |].
  rewrite Forall_cons, <- IH. split.
  - intros [= Hc Hs]. split; [| done]. destruct (JS.is_word c) eqn:E; [done |].
    subst c. by vm_compute in E.
  - intros [-> ->]. done.
Qed.

Lemma ungrouped_tokens (c : Component) :
  grouped c = false →
  generatePlantUMLComponent c RELATIONSHIP = JS.replace_nonword (name c)
  ∧ generatePlantUMLComponent c LAYER =
      ("rectangle " ++ JS.dquote
       ++ (if isImported c then name c else "<b>" ++ name c ++ "</b>")
       ++ JS.dquote ++ " as " ++ JS.replace_nonword (name c))%string.
Proof.
  unfold grouped. intros [Hd Hl]%orb_false_iff.
  unfold generatePlantUMLComponent. rewrite Hd, Hl.
  split; [unfold JS.join; simpl; done |].
  rewrite join_nil_sep. destruct (isImported c); simpl; by rewrite ?app_nil_r_s, ?app_assoc_s.
Qed.

Lemma grouped_tokens (c : Component) (ctx : Context) :
  grouped c = true →
  generatePlantUMLComponent c ctx =
    if JS.endsWith (filename c) "**" then ("[" ++ name c ++ "]")%string
    else ("(" ++ name c ++ ")")%string.
Proof.
  unfold grouped, generatePlantUMLComponent. intros H.
  destruct (JS.endsWith (filename c) "**"); [done |].
  simpl in H. by rewrite H.
Qed.

(** X1: the alias of an ungrouped component is an identifier: it is made of
    word characters only and is as long as the name; it is the name itself
    exactly when the name is made of word characters; and it is the alias
    that the declaration of the component introduces. *)
Theorem relationship_alias_is_identifier (c : Component) :
  grouped c = false →
  let alias := generatePlantUMLComponent c RELATIONSHIP in
  Forall (λ ch, JS.is_word ch = true) (JS.chars alias)
  ∧ String.length alias = String.length (name c)
  ∧ (alias = name c ↔ Forall (λ ch, JS.is_word ch = true) (JS.chars (name c)))
  ∧ ∃ label,
      generatePlantUMLComponent c LAYER
      = ("rectangle " ++ JS.dquote ++ label ++ JS.dquote ++ " as " ++ alias)%string.
Proof.
  intros Hg alias. destruct (ungrouped_tokens c Hg) as [HR HL]. subst alias.
  rewrite HR, HL. split; [apply replace_nonword_chars |].
  split; [apply replace_nonword_length |].
  split; [apply replace_nonword_fixed |]. by eexists.
Qed.

Lemma relationship_alias_is_identifier_witness :
  let c := mkComponent "a-b.ts" "src/a-b.ts" EMPTY_LAYER false [] in
  generatePlantUMLComponent c RELATIONSHIP = "a_b_ts"
  ∧ Forall (λ ch, JS.is_word ch = true)
      (JS.chars (generatePlantUMLComponent c RELATIONSHIP)).
Proof.
  split; [reflexivity |].
  apply (relationship_alias_is_identifier
           (mkComponent "a-b.ts" "src/a-b.ts" EMPTY_LAYER false [])).
  reflexivity.
Defined.

(** X2: grouped components (directory aggregates and components of a named
    layer) are rendered with their name as it is, the same in both
    contexts: two of them with the same token have the same name. *)
Theorem grouped_tokens_determine_names (c1 c2 : Component) :
  grouped c1 = true → grouped c2 = true →
  generatePlantUMLComponent c1 RELATIONSHIP = generatePlantUMLComponent c2 RELATIONSHIP →
  name c1 = name c2
  ∧ generatePlantUMLComponent c1 LAYER = generatePlantUMLComponent c1 RELATIONSHIP
  ∧ generatePlantUMLComponent c2 LAYER = generatePlantUMLComponent c2 RELATIONSHIP.
Proof.
  intros H1 H2 E. rewrite !(grouped_tokens _ _ H1), !(grouped_tokens _ _ H2) in *.
  split; [| done].
  destruct (JS.endsWith (filename c1) "**"), (JS.endsWith (filename c2) "**");
    try discriminate E; apply append_inj_l in E; by apply append_inj_r in E.
Qed.

Lemma grouped_tokens_determine_names_witness :
  let c1 := mkComponent "core" "src/core/**" EMPTY_LAYER false [] in
  let c2 := mkComponent "core" "lib/core/**" (Named "lib") true [] in
  generatePlantUMLComponent c1 RELATIONSHIP = "[core]"
  ∧ name c1 = name c2.
Proof.
  split; [reflexivity |].
  apply (grouped_tokens_determine_names
           (mkComponent "core" "src/core/**" EMPTY_LAYER false [])
           (mkComponent "core" "lib/core/**" (Named "lib") true [])); reflexivity.
Defined.

(** ** More on the relationships block *)

Lemma relationshipLines_spec (cwd : string) (components : list Component)
    (c : Component) (f : string) :
  relationshipLines cwd components c f =
    match findByFilename components f with
    | Some t => [connectorLine cwd c t]
    | None => []
    end.
Proof.
  unfold relationshipLines, findByFilename.
  destruct (find _ components) as [t|]; [| done].
  unfold connectorLine, JS.join. simpl. by rewrite !app_assoc_s.
Qed.

Lemma findByFilename_Some (components : list Component) (f : string) (t : Component) :
  findByFilename components f = Some t →
  ∃ pre post, components = pre ++ t :: post ∧ filename t = f
              ∧ Forall (λ x, filename x ≠ f) pre.
Proof.
  unfold findByFilename. induction components as [|x l IH]; simpl; [done |].
  destruct (String.eqb_spec (filename x) f) as [E | E].
  - intros [= <-]. by exists [], l.
  - intros H. destruct (IH H) as (pre & post & -> & Hf & Hpre).
    exists (x :: pre), post. repeat split; [done |]. by constructor.
Qed.

Lemma findByFilename_None (components : list Component) (f : string) :
  findByFilename components f = None ↔ Forall (λ x, filename x ≠ f) components.
Proof.
  unfold findByFilename. induction components as [|x l IH]; simpl; [by split |].
  destruct (String.eqb_spec (filename x) f) as [E | E].
  - split; [done |]. by intros [? _]%Forall_cons.
  - rewrite IH. split; [by constructor | by intros [_ ?]%Forall_cons].
Qed.

(** X3: the connector lines are those of the resolved imports: a line is
    emitted for a component and one of its imports exactly when a
    component of the diagram has the imported file name, and it joins the
    importing component to the first such component. *)
Theorem connectors_sound_complete (cwd : string) (layers : Layers) (line : string) :
  let components := getAllComponents layers true in
  generatePlantUMLRelationships cwd layers
  = JS.join JS.newline ("" :: relationshipConnectors cwd layers)
  ∧ (line ∈ relationshipConnectors cwd layers ↔
     ∃ c f t pre post,
       c ∈ components ∧ f ∈ imports c
       ∧ components = pre ++ t :: post ∧ filename t = f
       ∧ Forall (λ x, filename x ≠ f) pre
       ∧ line = connectorLine cwd c t).
Proof.
  intros components. split; [reflexivity |].
  unfold relationshipConnectors. fold components.
  rewrite list_elem_of_In, in_flat_map. split.
  - intros (c & Hc & Hin). apply in_flat_map in Hin as (f & Hf & Hin).
    rewrite relationshipLines_spec in Hin.
    destruct (findByFilename components f) as [t|] eqn:E; [| done].
    destruct Hin as [<- | []].
    destruct (findByFilename_Some _ _ _ E) as (pre & post & H1 & H2 & H3).
    exists c, f, t, pre, post. by rewrite !list_elem_of_In.
  - intros (c & f & t & pre & post & Hc & Hf & Hcs & Ht & Hpre & ->).
    exists c. split; [by apply list_elem_of_In |].
    apply in_flat_map. exists f. split; [by apply list_elem_of_In |].
    rewrite relationshipLines_spec.
    assert (E : findByFilename components f = Some t).
    { rewrite Hcs. clear Hcs. unfold findByFilename.
      induction Hpre as [|x pre Hx _ IH]; simpl.
      - by rewrite Ht, String.eqb_refl.
      - apply String.eqb_neq in Hx. by rewrite Hx. }
    rewrite E. by left.
Qed.

Lemma length_flat_map {A B} (f : A → list B) (l : list A) :
  length (flat_map f l) = sum_list (map (λ x, length (f x)) l).
Proof. induction l as [|x l IH]; simpl; [done |]. by rewrite length_app, IH. Qed.

(** X4: one connector line is emitted per resolved import, repeated imports
    included: nothing is merged. *)
Theorem connectors_count (cwd : string) (layers : Layers) :
  let components := getAllComponents layers true in
  length (relationshipConnectors cwd layers)
  = sum_list
      (map (λ c, length (List.filter
                           (λ f, bool_decide (is_Some (findByFilename components f)))
                           (imports c)))
           components).
Proof.
  intros components. unfold relationshipConnectors. fold components.
  rewrite length_flat_map. f_equal. apply map_ext. intros c.
  induction (imports c) as [|f l IH]; simpl; [done |].
  rewrite length_app, IH, relationshipLines_spec.
  by destruct (findByFilename components f).
Qed.

Lemma join_newline_nonempty (x : string) (l : list string) :
  JS.join JS.newline ("" :: x :: l) ≠ "".
Proof. unfold JS.join. simpl. done. Qed.

(** X5: the relationships block is empty exactly when no import of a component
    of the diagram names the file of a component of the diagram: imports
    of files outside the diagram leave no trace. *)
Theorem unresolved_imports_are_dropped (cwd : string) (layers : Layers) :
  let components := getAllComponents layers true in
  generatePlantUMLRelationships cwd layers = ""
  ↔ ∀ c f t, c ∈ components → f ∈ imports c → t ∈ components → filename t ≠ f.
Proof.
  intros components.
  change (generatePlantUMLRelationships cwd layers)
    with (JS.join JS.newline ("" :: relationshipConnectors cwd layers)).
  split.
  - intros E c f t Hc Hf Ht Hn.
    destruct (relationshipConnectors cwd layers) as [|x l] eqn:El;
      [| by apply join_newline_nonempty in E].
    assert (Hfind : ∃ t', findByFilename components f = Some t').
    { destruct (findByFilename components f) as [t'|] eqn:Ef; [by eexists |].
      apply findByFilename_None in Ef. rewrite Forall_forall in Ef.
      by destruct (Ef t Ht). }
    destruct Hfind as [t' Hfind].
    assert (Hin : connectorLine cwd c t' ∈ relationshipConnectors cwd layers).
    { unfold relationshipConnectors. fold components.
      apply list_elem_of_In, in_flat_map. exists c.
      split; [by apply list_elem_of_In |]. apply in_flat_map. exists f.
      split; [by apply list_elem_of_In |]. rewrite relationshipLines_spec, Hfind.
      by left. }
    rewrite El in Hin. by apply elem_of_nil in Hin.
  - intros H.
    assert (El : relationshipConnectors cwd layers = []).
    { unfold relationshipConnectors. fold components.
      destruct (flat_map _ components) as [|x l] eqn:E; [done |]. exfalso.
      assert (Hx : In x (x :: l)) by by left. rewrite <- E in Hx.
      apply in_flat_map in Hx as (c & Hc & Hx). apply in_flat_map in Hx as (f & Hf & Hx).
      rewrite relationshipLines_spec in Hx.
      destruct (findByFilename components f) as [t|] eqn:Ef; [| done].
      destruct (findByFilename_Some _ _ _ Ef) as (pre & post & Hcs & Ht & _).
      apply (H c f t); [by apply list_elem_of_In | by apply list_elem_of_In | | done].
      rewrite Hcs. apply elem_of_app. right. left. }
    by rewrite El.
Qed.

(** ** The connection length as a distance in the file tree *)

Lemma join_snoc (xs : list string) (y : string) :
  xs ≠ [] → JS.join "/" (xs ++ [y]) = (JS.join "/" xs ++ String "/"%char y)%string.
Proof.
  induction xs as [|x [|x' xs] IH]; intros Hne; [done | done |].
  change ((x :: x' :: xs) ++ [y]) with (x :: x' :: (xs ++ [y])).
  rewrite !join_cons. change (x' :: xs ++ [y]) with ((x' :: xs) ++ [y]).
  rewrite IH by done. by rewrite app_assoc_s.
Qed.

Lemma split_join_slash (S : list string) :
  Forall no_sep S → S ≠ [] →
  JS.split "/"%char (JS.join "/" S ++ "/" ++ "") = S ++ [""].
Proof.
  intros HS Hne. change ("/" ++ "")%string with (String "/"%char "").
  by rewrite split_app_sep, split_join.
Qed.

Lemma plain_no_sep (S : list string) : Forall plain_name S → Forall no_sep S.
Proof. intros H. eapply Forall_impl; [exact H |]. by intros x [? _]. Qed.

Lemma normalize_plain (b : bool) (acc S T : list string) :
  Forall plain_name S →
  Path.normalize_segs b acc (S ++ T) = Path.normalize_segs b (rev S ++ acc) T.
Proof.
  revert acc. induction S as [|x S IH]; intros acc HS; [done |].
  apply Forall_cons in HS as [(_ & H1 & H2 & H3) HS]. simpl.
  apply String.eqb_neq in H1, H2, H3. rewrite H1, H2, H3. simpl.
  rewrite IH by done. by rewrite <- app_assoc.
Qed.

Lemma filter_plain (S : list string) :
  Forall plain_name S → filter (λ s, s ≠ "") S = S.
Proof.
  induction 1 as [|x S (_ & Hx & _) _ IH]; [done |].
  by rewrite filter_cons_True, IH.
Qed.

Lemma join_plain_ne (S : list string) :
  Forall plain_name S → S ≠ [] → JS.join "/" S ≠ "".
Proof.
  intros HS Hne E. pose proof (split_join S (plain_no_sep S HS) Hne) as H.
  rewrite E in H. simpl in H. destruct S as [|x [|y S]]; [done | | done].
  injection H as <-. by apply Forall_cons in HS as [(_ & ? & _) _].
Qed.

Lemma join_plain_relative (S : list string) :
  Forall plain_name S → S ≠ [] → JS.startsWithChar "/"%char (JS.join "/" S) = false.
Proof.
  intros HS Hne. destruct S as [|x S]; [done |].
  apply Forall_cons in HS as [(Hx & Hxe & _) _].
  destruct x as [|c x]; [done |]. apply Forall_cons in Hx as [Hc _].
  apply Ascii.eqb_neq in Hc. by destruct S.
Qed.

(** The segments of the resolved path of a relative file name made of
    plain names are those of the working directory followed by the
    names. *)
Lemma resolve_plain (cwd : string) :
  ∃ F, ∀ S, Forall plain_name S → S ≠ [] →
    Path.segments (Path.resolve cwd [JS.join "/" S]) = F ++ S.
Proof.
  unfold Path.resolve, Path.segments, Path.sep. simpl rev.
  destruct (String.eqb cwd "") eqn:Ecwd.
  - exists []. intros S HS Hne. simpl. unfold Path.sep.
    pose proof (join_plain_ne S HS Hne) as Hj. apply String.eqb_neq in Hj.
    rewrite Hj, Ecwd, (join_plain_relative S HS Hne). simpl.
    rewrite (split_join_slash S (plain_no_sep S HS) Hne).
    rewrite (normalize_plain _ [] S [""] HS). simpl.
    rewrite app_nil_r, rev_involutive, Hj.
    by rewrite (split_join S (plain_no_sep S HS) Hne), filter_plain.
  - set (b := negb (JS.startsWithChar "/"%char cwd)).
    set (P := Path.normalize_segs b [] (JS.split "/"%char cwd)).
    assert (HP : Forall no_sep P).
    { apply normalize_segs_Forall; [repeat constructor; done | constructor |].
      apply split_segments. }
    exists (filter (λ s, s ≠ "") P). intros S HS Hne. simpl. unfold Path.sep.
    pose proof (join_plain_ne S HS Hne) as Hj. apply String.eqb_neq in Hj.
    rewrite Hj, Ecwd, (join_plain_relative S HS Hne).
    assert (Hn : ∀ b', b' = b →
              Path.normalize_segs b' []
                (JS.split "/"%char (cwd ++ "/" ++ JS.join "/" S ++ "/" ++ ""))
              = P ++ S).
    { intros b' ->.
      change (cwd ++ "/" ++ JS.join "/" S ++ "/" ++ "")%string
        with (cwd ++ String "/"%char (JS.join "/" S ++ "/" ++ ""))%string.
      rewrite split_app_sep, (split_join_slash S (plain_no_sep S HS) Hne).
      rewrite normalize_segs_app. fold P.
      rewrite (normalize_plain _ (rev P) S [""] HS). simpl.
      by rewrite rev_app_distr, !rev_involutive. }
    assert (HPS : Forall no_sep (P ++ S)).
    { apply Forall_app. split; [done | by apply plain_no_sep]. }
    assert (HPSne : P ++ S ≠ []) by (by destruct P, S).
    assert (Hjne : JS.join "/" (P ++ S) ≠ "").
    { intros E. pose proof (split_join _ HPS HPSne) as H. rewrite E in H. simpl in H.
      destruct P as [|p P]; simpl in H.
      - rewrite <- H in HS. by apply Forall_cons in HS as [(_ & ? & _) _].
      - injection H as _ H. symmetry in H. by apply app_eq_nil in H as [_ ->]. }
    destruct (JS.startsWithChar "/"%char cwd) eqn:Eabs; simpl.
    + rewrite Hn by done. rewrite app_nil_l_s, split_join by done.
      rewrite filter_cons_False by (by intros []).
      by rewrite filter_app, (filter_plain S HS).
    + rewrite Hn by done. apply String.eqb_neq in Hjne. rewrite Hjne.
      rewrite split_join by done.
      by rewrite filter_app, (filter_plain S HS).
Qed.

Lemma join_inj_plain (S T : list string) :
  Forall plain_name S → Forall plain_name T → S ≠ [] → T ≠ [] →
  JS.join "/" S = JS.join "/" T → S = T.
Proof.
  intros HS HT HSn HTn E.
  rewrite <- (split_join S), <- (split_join T), E; auto using plain_no_sep.
Qed.

(** The relative path between two files below a common directory: one
    [..] per name of the first file below the directory, the file itself
    included, then the names of the second. *)
Lemma relative_plain (cwd : string) (D A B : list string) (a b : string) :
  Forall plain_name (D ++ a :: A) → Forall plain_name (D ++ b :: B) → a ≠ b →
  Path.relative cwd (JS.join "/" (D ++ a :: A)) (JS.join "/" (D ++ b :: B))
  = JS.join "/" (map (λ _, "..") (a :: A) ++ b :: B).
Proof.
  intros HA HB Hab. destruct (resolve_plain cwd) as (F & HF).
  assert (HAn : D ++ a :: A ≠ []) by (by destruct D).
  assert (HBn : D ++ b :: B ≠ []) by (by destruct D).
  pose proof (HF _ HA HAn) as Ha. pose proof (HF _ HB HBn) as Hb.
  unfold Path.relative.
  destruct (String.eqb_spec (JS.join "/" (D ++ a :: A)) (JS.join "/" (D ++ b :: B)))
    as [E | _].
  { apply join_inj_plain in E; try done. apply app_inv_head in E. congruence. }
  destruct (String.eqb_spec (Path.resolve cwd [JS.join "/" (D ++ a :: A)])
                            (Path.resolve cwd [JS.join "/" (D ++ b :: B)])) as [E | _].
  { rewrite E, Hb in Ha. apply app_inv_head, app_inv_head in Ha. congruence. }
  rewrite Ha, Hb, !app_assoc, drop_common_app. simpl.
  apply String.eqb_neq in Hab. by rewrite Hab.
Qed.

Lemma dirname_scan_segment (l rest : list ascii) (i : nat) (m : bool) :
  Forall (λ c, c ≠ "/"%char) l → (m = false ∨ l ≠ []) → 1 ≤ i →
  Path.dirname_scan (l ++ "/"%char :: rest) (i + length l) m = Some i.
Proof.
  revert i m. induction l as [|c l IH]; intros i m Hl Hm Hi.
  - destruct Hm as [-> | ?]; [| done]. simpl. rewrite Nat.add_0_r.
    destruct (Nat.ltb_spec i 1); [lia | done].
  - apply Forall_cons in Hl as [Hc Hl]. simpl.
    destruct (Nat.ltb_spec (i + S (length l)) 1); [lia |].
    unfold Path.sep. apply Ascii.eqb_neq in Hc. rewrite Hc.
    replace (i + S (length l) - 1) with (i + length l) by lia.
    apply IH; auto.
Qed.

Lemma substring_prefix (s t : string) : substring 0 (String.length s) (s ++ t) = s.
Proof.
  induction s as [|c s IH]; simpl; [by destruct t |]. by rewrite IH.
Qed.

(** [path.dirname] drops the last of at least two non-empty segments. *)
Lemma dirname_join (xs : list string) (y : string) :
  Forall (λ s, no_sep s ∧ s ≠ "") (xs ++ [y]) → xs ≠ [] →
  Path.dirname (JS.join "/" (xs ++ [y])) = JS.join "/" xs.
Proof.
  intros H Hne. apply Forall_app in H as [Hxs Hy].
  apply Forall_cons in Hy as [[Hy Hye] _].
  rewrite join_snoc by done. set (s := JS.join "/" xs).
  assert (Hs : ∃ c s', s = String c s' ∧ c ≠ "/"%char).
  { subst s. destruct xs as [|x xs]; [done |].
    apply Forall_cons in Hxs as [[Hx Hxe] _].
    destruct x as [|c x]; [done |]. apply Forall_cons in Hx as [Hc _].
    exists c. destruct xs; simpl; eauto. }
  destruct Hs as (c & s' & Es & Hc).
  unfold Path.dirname.
  assert (Hp : (s ++ String "/"%char y)%string ≠ "") by (by rewrite Es).
  apply String.eqb_neq in Hp. rewrite Hp.
  assert (Hroot : JS.startsWithChar Path.sep (s ++ String "/"%char y) = false).
  { rewrite Es. simpl. by apply Ascii.eqb_neq. }
  rewrite Hroot.
  rewrite chars_append. simpl JS.chars. rewrite rev_app_distr. simpl rev.
  rewrite <- app_assoc. simpl app.
  rewrite length_append. simpl String.length.
  replace (String.length s + S (String.length y) - 1)
    with (String.length s + length (rev (JS.chars y)))
    by (rewrite length_rev, chars_length; lia).
  rewrite dirname_scan_segment.
  - simpl. unfold JS.slice_to. apply substring_prefix.
  - by apply Forall_rev.
  - right. destruct y; [done |]. simpl. by destruct (rev (JS.chars y)).
  - rewrite Es. simpl. lia.
Qed.

Lemma ups_segments {A} (l : list A) :
  Forall (λ s, no_sep s ∧ s ≠ "") (map (λ _, "..") l).
Proof.
  induction l; simpl; constructor; [| done].
  split; [repeat constructor; done | done].
Qed.

(** X6: for two files below a common directory, named by relative paths of
    plain names, the connection length is the distance between them in
    the file tree: the number of names of the importing file below the
    directory, the file itself included, plus the number of directories
    between the common directory and the imported file; this between the
    minimum (2 for an import-only source, 1 otherwise) and 4.  Files of
    the same directory are at distance 1. *)
Theorem connection_length_is_tree_distance (cwd : string) (c t : Component)
    (D A B : list string) (a b : string) :
  Forall plain_name (D ++ a :: A) → Forall plain_name (D ++ b :: B) → a ≠ b →
  filename c = JS.join "/" (D ++ a :: A) →
  filename t = JS.join "/" (D ++ b :: B) →
  getConnectionLength cwd c t
  = Nat.max (if isImported c then 2 else 1) (Nat.min 4 (S (length A) + length B)).
Proof.
  intros HA HB Hab Hc Ht. unfold getConnectionLength.
  rewrite Hc, Ht, relative_plain by done.
  assert (Hsegs : Forall (λ s, no_sep s ∧ s ≠ "")
                    (map (λ _, "..") (a :: A) ++ b :: B)).
  { apply Forall_app. split; [apply ups_segments |].
    apply Forall_app in HB as [_ HB]. eapply Forall_impl; [exact HB |].
    by intros x (? & ? & _). }
  destruct (exists_last (l := b :: B)) as (B' & y & EB); [done |].
  rewrite EB, app_assoc in *.
  rewrite dirname_join; [| done | simpl; done].
  apply Forall_app in Hsegs as [Hsegs _].
  unfold Path.sep. rewrite split_join.
  - rewrite length_app, length_map.
    apply (f_equal length) in EB. rewrite length_app in EB.
    change (length (b :: B)) with (S (length B)) in EB.
    change (length [y]) with 1 in EB.
    replace (length (a :: A) + length B') with (S (length A) + length B); [done |].
    change (length (a :: A)) with (S (length A)). lia.
  - eapply Forall_impl; [exact Hsegs |]. by intros x [? _].
  - simpl. done.
Qed.

Lemma connection_length_is_tree_distance_witness :
  let c := mkComponent "app" "src/app.ts" EMPTY_LAYER false ["src/util/io/file.ts"] in
  let t := mkComponent "file" "src/util/io/file.ts" EMPTY_LAYER false [] in
  getConnectionLength "/home/user/project" c t = 3.
Proof.
  apply (connection_length_is_tree_distance "/home/user/project"
           (mkComponent "app" "src/app.ts" EMPTY_LAYER false ["src/util/io/file.ts"])
           (mkComponent "file" "src/util/io/file.ts" EMPTY_LAYER false [])
           ["src"] [] ["io"; "file.ts"] "app.ts" "util").
  - repeat constructor; simpl; done.
  - repeat constructor; simpl; done.
  - done.
  - reflexivity.
  - reflexivity.
Defined.

(** X7: a component that imports a file of its own name is at the minimal
    distance from it: the relative path between equal file names is
    empty. *)
Theorem connection_length_same_file (cwd : string) (c t : Component) :
  filename c = filename t →
  getConnectionLength cwd c t = if isImported c then 2 else 1.
Proof.
  intros E. unfold getConnectionLength, Path.relative.
  rewrite E, String.eqb_refl. simpl. by destruct (isImported c).
Qed.

Lemma connection_length_same_file_witness :
  let c := mkComponent "app" "src/app.ts" EMPTY_LAYER true ["src/app.ts"] in
  getConnectionLength "/home/user/project" c c = 2.
Proof.
  apply (connection_length_same_file "/home/user/project"
           (mkComponent "app" "src/app.ts" EMPTY_LAYER true ["src/app.ts"])
           (mkComponent "app" "src/app.ts" EMPTY_LAYER true ["src/app.ts"])).
  reflexivity.
Defined.

(** ** The layer block and the document *)

Lemma prefix_inv (s t : string) :
  String.prefix s t = true → ∃ post, t = (s ++ post)%string.
Proof.
  revert t. induction s as [|c s IH]; intros t H; simpl; [by eexists |].
  destruct t as [|c' t]; simpl in H; [done |].
  destruct (ascii_dec c c') as [->|]; [| done].
  apply IH in H as [post ->]. by eexists.
Qed.

Lemma includes_inv (hay needle : string) :
  JS.includes hay needle = true → ∃ pre post, hay = (pre ++ needle ++ post)%string.
Proof.
  induction hay as [|c hay IH]; rewrite includes_unfold.
  - rewrite orb_false_r. intros [post H]%prefix_inv. by exists "", post.
  - intros [H | H]%orb_true_iff.
    + apply prefix_inv in H as [post H]. by exists "", post.
    + apply IH in H as (pre & post & ->). by exists (String c pre), post.
Qed.

Lemma includes_trans (a b c : string) :
  JS.includes a b = true → JS.includes b c = true → JS.includes a c = true.
Proof.
  intros (p1 & q1 & ->)%includes_inv (p2 & q2 & ->)%includes_inv.
  replace (p1 ++ (p2 ++ c ++ q2) ++ q1)%string with ((p1 ++ p2) ++ c ++ (q2 ++ q1))%string
    by (by rewrite !app_assoc_s).
  apply includes_append.
Qed.

Lemma includes_refl (s : string) : JS.includes s s = true.
Proof.
  pose proof (includes_append "" s "") as H. by rewrite app_nil_l_s, app_nil_r_s in H.
Qed.

Lemma join_cons_any (sep x y : string) (l : list string) :
  JS.join sep (x :: y :: l) = (x ++ sep ++ JS.join sep (y :: l))%string.
Proof. reflexivity. Qed.

Lemma join_snoc_any (sep : string) (xs : list string) (y : string) :
  xs ≠ [] → JS.join sep (xs ++ [y]) = (JS.join sep xs ++ sep ++ y)%string.
Proof.
  induction xs as [|x [|x' xs] IH]; intros Hne; [done | done |].
  change ((x :: x' :: xs) ++ [y]) with (x :: x' :: (xs ++ [y])).
  rewrite !join_cons_any. change (x' :: xs ++ [y]) with ((x' :: xs) ++ [y]).
  rewrite IH by done. by rewrite !app_assoc_s.
Qed.

Lemma includes_join (sep x : string) (l : list string) :
  x ∈ l → JS.includes (JS.join sep l) x = true.
Proof.
  induction l as [|y [|z l] IH]; intros Hin.
  - by apply elem_of_nil in Hin.
  - apply list_elem_of_singleton in Hin as ->. apply includes_refl.
  - rewrite join_cons_any. apply elem_of_cons in Hin as [-> | Hin].
    + pose proof (includes_append "" y (sep ++ JS.join sep (z :: l))) as H.
      by rewrite app_nil_l_s in H.
    + eapply includes_trans; [| exact (IH Hin)].
      pose proof (includes_append (y ++ sep) (JS.join sep (z :: l)) "") as H.
      by rewrite app_nil_r_s, app_assoc_s in H.
Qed.

(** The text of a layer block: nothing for an empty layer; otherwise an
    empty first line, then the declarations, inside a package for a named
    layer. *)
Lemma layer_block_text (layer : Layer) (c : Component) (cs : list Component) :
  generatePlantUMLLayer layer (c :: cs) =
    match layer with
    | EMPTY_LAYER =>
        JS.join JS.newline
          ("" :: map (λ x, generatePlantUMLComponent x LAYER) (c :: cs))
    | Named l =>
        JS.join JS.newline
          ("" :: ("package " ++ JS.dquote ++ l ++ JS.dquote ++ " {")%string
              :: map (λ x, ("  " ++ generatePlantUMLComponent x LAYER)%string) (c :: cs)
              ++ ["}"])
    end.
Proof. by destruct layer. Qed.

Lemma layer_block_declares (layer : Layer) (components : list Component) (c : Component) :
  c ∈ components →
  JS.includes (generatePlantUMLLayer layer components)
              (generatePlantUMLComponent c LAYER) = true.
Proof.
  destruct components as [|c0 cs]; [by intros ?%elem_of_nil |].
  rewrite layer_block_text. intros Hx. destruct layer as [|l].
  - apply includes_join. apply elem_of_cons. right.
    apply (list_elem_of_fmap_2 (λ x, generatePlantUMLComponent x LAYER)) in Hx.
    exact Hx.
  - eapply includes_trans.
    + apply (includes_join _ ("  " ++ generatePlantUMLComponent c LAYER)%string).
      apply elem_of_cons. right. apply elem_of_cons. right. apply elem_of_app. left.
      apply (list_elem_of_fmap_2
               (λ x, ("  " ++ generatePlantUMLComponent x LAYER)%string)) in Hx.
      exact Hx.
    + pose proof (includes_append "  " (generatePlantUMLComponent c LAYER) "") as H.
      by rewrite app_nil_r_s in H.
Qed.

(** X8: a layer block is empty exactly when the layer has no component: no
    empty package is written, whatever the layer; a block that is not
    empty starts with a line break and declares every component of the
    layer. *)
Theorem layer_block_empty_iff (layer : Layer) (components : list Component) :
  (generatePlantUMLLayer layer components = "" ↔ components = [])
  ∧ (components ≠ [] →
     String.prefix JS.newline (generatePlantUMLLayer layer components) = true)
  ∧ ∀ c, c ∈ components →
      JS.includes (generatePlantUMLLayer layer components)
                  (generatePlantUMLComponent c LAYER) = true.
Proof.
  destruct components as [|c cs].
  - split; [done |]. split; [done |]. intros c Hc. by apply elem_of_nil in Hc.
  - rewrite layer_block_text. split; [| split].
    + split; [| done]. destruct layer; by intros E%join_newline_nonempty.
    + intros _. destruct layer; cbn [map app]; rewrite join_cons_any, app_nil_l_s;
        apply prefix_append.
    + intros x Hx. rewrite <- layer_block_text. by apply layer_block_declares.
Qed.

Section DocumentProperties.

Variable cwd : string.
Variable Components : Type.
Variable generateComponents : OutputSchema → Components.
Variable resolveConflictingComponentNames : Components → Components.
Variable sortComponentsByName : Components → Components.
Variable generateLayers : OutputSchema → Components → Layers.

Lemma generatePlantUML_text (output : OutputSchema) :
  let layers :=
    outputLayers Components generateComponents resolveConflictingComponentNames
      sortComponentsByName generateLayers output in
  generatePlantUML cwd Components generateComponents resolveConflictingComponentNames
    sortComponentsByName generateLayers output
  = JS.join JS.newline
      (((((["@startuml"] ++ [generatePlantUMLSkin output layers])
            ++ map (λ entry, generatePlantUMLLayer entry.1 entry.2) layers)
           ++ [generatePlantUMLRelationships cwd layers])
          ++ [""])
         ++ ["@enduml"]).
Proof. reflexivity. Qed.

Local Abbreviation outputLayers :=
  (outputLayers Components generateComponents resolveConflictingComponentNames
     sortComponentsByName generateLayers).
Local Abbreviation generatePlantUML :=
  (generatePlantUML cwd Components generateComponents resolveConflictingComponentNames
     sortComponentsByName generateLayers).

(** X9: whatever the base class computes as layers, the document returned by
    [generatePlantUML] opens with [@startuml], and holds the declaration
    of every component of every layer and every connector line of the
    relationships block. *)
Theorem document_declares_components_and_connectors (output : OutputSchema) :
  let layers := outputLayers output in
  let document := generatePlantUML output in
  String.prefix ("@startuml" ++ JS.newline) document = true
  ∧ JS.includes document (JS.newline ++ JS.newline ++ "@enduml") = true
  ∧ (∀ layer components c,
       (layer, components) ∈ layers → c ∈ components →
       JS.includes document (generatePlantUMLComponent c LAYER) = true)
  ∧ ∀ line, line ∈ relationshipConnectors cwd layers →
      JS.includes document line = true.
Proof.
  intros layers document. subst document. rewrite generatePlantUML_text. fold layers.
  split; [| split; [| split]].
  - cbn [app]. rewrite join_cons_any, <- app_assoc_s. apply prefix_append.
  - set (front := ["@startuml"; generatePlantUMLSkin output layers]
                  ++ map (λ entry, generatePlantUMLLayer entry.1 entry.2) layers).
    assert (H : ∀ (l : list string) (x : string),
              JS.join JS.newline (l ++ [x; ""; "@enduml"])
              = (JS.join JS.newline (l ++ [x]) ++ JS.newline ++ JS.newline ++ "@enduml")%string).
    { intros l x.
      replace (l ++ [x; ""; "@enduml"]) with (((l ++ [x]) ++ [""]) ++ ["@enduml"])
        by (by rewrite <- !app_assoc).
      rewrite !join_snoc_any by (by destruct l).
      by rewrite !app_assoc_s. }
    match goal with |- JS.includes (JS.join _ ?l) _ = true =>
      replace l with (front ++ [generatePlantUMLRelationships cwd layers; ""; "@enduml"])
        by (subst front; by rewrite <- !app_assoc)
    end.
    rewrite H.
    pose proof (includes_append
                  (JS.join JS.newline (front ++ [generatePlantUMLRelationships cwd layers]))
                  (JS.newline ++ JS.newline ++ "@enduml") "") as Hi.
    by rewrite app_nil_r_s in Hi.
  - intros layer components c Hl Hc.
    eapply includes_trans;
      [| apply (layer_block_declares layer components); exact Hc].
    apply includes_join. rewrite !elem_of_app. left. left. left. right.
    apply (list_elem_of_fmap_2 (λ entry, generatePlantUMLLayer entry.1 entry.2)) in Hl.
    exact Hl.
  - intros line Hline.
    eapply includes_trans.
    + apply (includes_join _ (generatePlantUMLRelationships cwd layers)).
      rewrite !elem_of_app. left. left. right. left.
    + change (generatePlantUMLRelationships cwd layers)
        with (JS.join JS.newline ("" :: relationshipConnectors cwd layers)).
      apply includes_join. by right.
Qed.

End DocumentProperties.

(** ** Settled promises stay as they are *)

Lemma ps_ret {A} (a : A) : preserves_settled (ret a).
Proof. by intros st p s H. Qed.

Lemma ps_bind {A B} (m : M A) (k : A → M B) :
  preserves_settled m → (∀ a, preserves_settled (k a)) → preserves_settled (bind m k).
Proof.
  intros Hm Hk st p s H. unfold bind. specialize (Hm st p s H).
  destruct (m st) as [a st']. by apply Hk.
Qed.

Lemma ps_new_promise : preserves_settled new_promise.
Proof.
  intros st p s H. simpl. rewrite lookup_app_l; [done |]. by eapply lookup_lt_Some.
Qed.

Lemma ps_settle (q : pid) (s' : settlement) : preserves_settled (settle q s').
Proof.
  intros st p s H. unfold settle.
  destruct (promises st !! q) as [[rs | s0] |] eqn:E; simpl; try done.
  rewrite list_lookup_insert_ne; [done |]. intros <-. congruence.
Qed.

Lemma ps_subscribe (q : pid) (rx : reaction) : preserves_settled (subscribe q rx).
Proof.
  intros st p s H. unfold subscribe.
  destruct (promises st !! q) as [[rs | s0] |] eqn:E; simpl; try done.
  rewrite list_lookup_insert_ne; [done |]. intros <-. congruence.
Qed.

Lemma ps_same {A} (m : M A) :
  (∀ st, promises (m st).2 = promises st) → preserves_settled m.
Proof. intros Hm st p s H. by rewrite Hm. Qed.

Ltac ps :=
  repeat first
    [ apply ps_ret | apply ps_new_promise | apply ps_settle | apply ps_subscribe
    | solve [apply ps_same; intros ?; reflexivity]
    | apply ps_bind; [| intros ?]
    | match goal with
      | |- preserves_settled (if ?b then _ else _) => destruct b
      | |- preserves_settled (match ?x with _ => _ end) => destruct x
      end ].

Lemma ps_then (p : pid) (f : callback) : preserves_settled (then_ p f).
Proof. unfold then_. ps. Qed.

Lemma ps_catch (p : pid) (g : callback) : preserves_settled (catch_ p g).
Proof. unfold catch_. ps. Qed.

Lemma ps_request (path payload : string) : preserves_settled (request path payload).
Proof. unfold request. ps. Qed.

Lemma ps_convertToImage (puml format : string) :
  preserves_settled (convertToImage puml format).
Proof.
  unfold convertToImage. apply ps_bind; [ps | intros p].
  destruct (JS.match_w3 format); [| ps].
  apply ps_bind; [ps | intros c]. apply ps_bind; [apply ps_then | intros d]. ps.
Qed.

Lemma ps_run_callback (cb : callback) (arg : value) :
  preserves_settled (run_callback cb arg).
Proof.
  destruct cb; simpl; by ps.
Qed.

Lemma ps_run_reaction (rx : reaction) (s : settlement) :
  preserves_settled (run_reaction rx s).
Proof.
  unfold run_reaction.
  destruct (match s with Fulfilled _ => on_fulfilled rx | Rejected _ => on_rejected rx end);
    [| ps].
  apply ps_bind; [apply ps_run_callback | intros o]. ps.
Qed.

Lemma ps_convert (cwd config_directory : string) (OutputFormat_values : list string)
    (pathOrType puml : string) :
  preserves_settled (convert cwd config_directory OutputFormat_values pathOrType puml).
Proof.
  unfold convert. apply ps_bind; [ps | intros present].
  apply ps_bind; [ps |]. intros _.
  destruct (_ || _).
  - apply ps_bind; [ps | intros _].
    apply ps_bind; [apply ps_convertToImage | intros image].
    apply ps_bind; [apply ps_then | intros saved]. apply ps_catch.
  - apply ps_bind; [ps | intros _]. unfold promise_resolve. ps.
Qed.

(** No event changes a settled promise. *)
Lemma settled_step (cwd config_directory : string) (OutputFormat_values : list string)
    (st : state) (ev : event) (p : pid) (s : settlement) :
  promises st !! p = Some (Settled s) →
  promises (step cwd config_directory OutputFormat_values st ev) !! p = Some (Settled s).
Proof.
  intros H. destruct ev as [pathOrType puml | puml format | | r chunks | r err]; simpl.
  - by apply ps_convert.
  - by apply ps_convertToImage.
  - destruct (microtasks st) as [|[rx s'] rest]; [done |]. by apply ps_run_reaction.
  - destruct (issued st r); [| done]. by apply ps_settle.
  - destruct (issued st r); [| done]. by apply ps_settle.
Qed.

Lemma settled_run (cwd config_directory : string) (OutputFormat_values : list string)
    (st : state) (evs : list event) (p : pid) (s : settlement) :
  promises st !! p = Some (Settled s) →
  promises (run cwd config_directory OutputFormat_values st evs) !! p = Some (Settled s).
Proof.
  revert st. induction evs as [|ev evs IH]; intros st H; [done |].
  simpl. by apply IH, settled_step.
Qed.

(** ** The queue at rest, blocked, and drained *)

Lemma last_chain_pending (a : machine) (st : state) j ph w :
  Inv a st → a_shape a = Busy j ph w →
  promises st !! requestChain st = Some (Pending []).
Proof.
  intros HI E. pose proof (inv_chain _ _ HI) as Hc. rewrite E in Hc. rewrite Hc.
  eapply heap_has_lookup; [exact (inv_heap _ _ HI) |].
  unfold cells. rewrite E. simpl.
  destruct (chain_cells_snoc (j_chain j) w) as (cs & -> & _).
  rewrite !elem_of_app. right. right. right. right. left.
Qed.

Lemma no_flight_all_settled (a : machine) (st : state) :
  Inv a st → flying (a_shape a) = None →
  List.filter (in_flight st) (network st) = [].
Proof.
  intros HI Hf. pose proof (inv_net _ _ HI) as Hn. unfold net_ok in Hn.
  rewrite Hf in Hn. apply filter_none.
  eapply Forall_impl; [exact Hn |]. intros ?. apply settled_not_in_flight.
Qed.

Lemma flying_of_in_flight (a : machine) (st : state) (q : http_request) :
  Inv a st → In q (network st) → in_flight st q = true →
  ∃ j d1 d2 w, a_shape a = Busy j (PFlight (req_promise q) d1 d2) w.
Proof.
  intros HI Hin Hfl.
  destruct (decide (flying (a_shape a) = Some (req_promise q))) as [Hf | Hf].
  - destruct (a_shape a) as [v | j [v | r' d1 d2 | d1 d2 s | d2 s | v] w] eqn:E;
      simpl in Hf; try done.
    injection Hf as ->. by exists j, d1, d2, w.
  - apply list_elem_of_In in Hin.
    destruct (net_ok_settled _ _ _ q (inv_net _ _ HI) Hin Hf) as [s Hs].
    unfold in_flight in Hfl. by rewrite Hs in Hfl.
Qed.

Lemma sum_list_append (l1 l2 : list nat) :
  sum_list (l1 ++ l2) = sum_list l1 + sum_list l2.
Proof. induction l1 as [|x l1 IH]; simpl; [done | lia]. Qed.

Lemma sum_weight_zero (l : list qitem) : sum_list (map qitem_weight l) = 0 → l = [].
Proof. destruct l as [|[] l]; simpl; [done | lia | lia]. Qed.

Lemma outstanding_zero (a : machine) :
  outstanding a = 0 → (∃ v, a_shape a = Idle v) ∧ a_pre a = [] ∧ a_post a = [].
Proof.
  unfold outstanding. intros H.
  assert (Hq : sum_list (map qitem_weight (a_pre a ++ a_post a)) = 0) by lia.
  apply sum_weight_zero, app_eq_nil in Hq as [Hpre Hpost].
  split; [| done].
  destruct (a_shape a) as [v | j [] w]; [by eexists | simpl in H; lia ..].
Qed.

Lemma accepted_quiet (cwd config_directory : string) (OutputFormat_values : list string)
    (reply : pid → answer) (evs : list event) :
  Forall (λ ev, ev = EvTick ∨ ∃ r, ev = answer_event r (reply r)) evs →
  accepted cwd config_directory OutputFormat_values evs = [].
Proof.
  induction 1 as [|ev evs Hev _ IH]; [done |].
  unfold accepted in *. simpl. rewrite IH, app_nil_r.
  destruct Hev as [-> | [r ->]]; [done |]. by destruct (reply r).
Qed.

Section Drain.

Variable cwd : string.
Variable config_directory : string.
Variable OutputFormat_values : list string.

Local Abbreviation step := (step cwd config_directory OutputFormat_values).
Local Abbreviation run := (run cwd config_directory OutputFormat_values).
Local Abbreviation machine_step := (machine_step cwd config_directory OutputFormat_values).
Local Abbreviation machine_run := (machine_run cwd config_directory OutputFormat_values).
Local Abbreviation accepted := (accepted cwd config_directory OutputFormat_values).
Local Abbreviation accepted_request :=
  (accepted_request cwd config_directory OutputFormat_values).
Local Abbreviation export_plan := (export_plan cwd config_directory OutputFormat_values).
Local Abbreviation reachable_inv :=
  (reachable_inv cwd config_directory OutputFormat_values).
Local Abbreviation fifo_run := (fifo_run cwd config_directory OutputFormat_values).
Local Abbreviation inv_run := (inv_run cwd config_directory OutputFormat_values).
Local Abbreviation inv_step := (inv_step cwd config_directory OutputFormat_values).

Lemma run_app (st : state) (evs evs' : list event) :
  run st (evs ++ evs') = run (run st evs) evs'.
Proof. apply fold_left_app. Qed.

Lemma machine_run_app (a : machine) (evs evs' : list event) :
  machine_run a (evs ++ evs') = machine_run (machine_run a evs) evs'.
Proof. apply fold_left_app. Qed.

Lemma accepted_app (evs evs' : list event) :
  accepted (evs ++ evs') = accepted evs ++ accepted evs'.
Proof. apply flat_map_app. Qed.

(** X10: when the last promise of the chain is settled, nothing is left in the
    queue: every accepted request has been handed to the platform, in
    the order of submission, and every one of them has been answered. *)
Theorem settled_chain_all_issued (fs : gmap string value) (evs : list event)
    (s : settlement) :
  let st := run (init fs) evs in
  promises st !! requestChain st = Some (Settled s) →
  map request_sig (network st) = accepted evs
  ∧ List.filter (in_flight st) (network st) = [].
Proof.
  intros st Hs. pose proof (reachable_inv fs evs) as HI. fold st in HI.
  destruct (a_shape (machine_run machine_init evs)) as [v | j ph w] eqn:E.
  - split.
    + rewrite (inv_network _ _ HI). pose proof (fifo_run evs) as Hf.
      unfold fifo in Hf. rewrite E in Hf. simpl in Hf. by rewrite app_nil_r in Hf.
    + eapply no_flight_all_settled; [exact HI |]. by rewrite E.
  - rewrite (last_chain_pending _ _ _ _ _ HI E) in Hs. done.
Qed.

Lemma flight_kept (a : machine) (ev : event) j r d1 d2 w :
  a_shape a = Busy j (PFlight r d1 d2) w → is_answer_to r ev = false →
  ∃ w', a_shape (machine_step a ev) = Busy j (PFlight r d1 d2) w'
        ∧ a_net (machine_step a ev) = a_net a.
Proof.
  destruct a as [sh pre post dead anet anext]. simpl. intros -> Hev.
  destruct ev as [pathOrType puml | puml format | | r' chunks | r' err]; simpl in *.
  - unfold convert_machine, enqueue_job. simpl.
    destruct (export_plan pathOrType) as [[[format save] path]|]; [| by eexists].
    destruct (JS.match_w3 format); by eexists.
  - unfold submit_machine, enqueue_job. simpl.
    destruct (JS.match_w3 format); by eexists.
  - unfold tick_machine. simpl. destruct pre; [| by eexists].
    destruct post; by eexists.
  - unfold settle_machine. simpl. rewrite Nat.eqb_sym, Hev. by eexists.
  - unfold settle_machine. simpl. rewrite Nat.eqb_sym, Hev. by eexists.
Qed.

Lemma flight_kept_run (a : machine) (evs : list event) j r d1 d2 w :
  a_shape a = Busy j (PFlight r d1 d2) w →
  Forall (λ ev, is_answer_to r ev = false) evs →
  ∃ w', a_shape (machine_run a evs) = Busy j (PFlight r d1 d2) w'
        ∧ a_net (machine_run a evs) = a_net a.
Proof.
  revert a w. induction evs as [|ev evs IH]; intros a w E Hevs; [by eexists |].
  apply Forall_cons in Hevs as [Hev Hevs].
  destruct (flight_kept a ev _ _ _ _ _ E Hev) as (w1 & E1 & N1).
  destruct (IH _ _ E1 Hevs) as (w2 & E2 & N2).
  exists w2. simpl. by rewrite E2, N2, N1.
Qed.

(** X11: while the request in flight gets no answer, no further request is
    handed to the platform, whatever else happens: exports, submissions,
    ticks of the event loop, and answers to other requests. *)
Theorem unanswered_request_blocks_queue (fs : gmap string value)
    (evs evs' : list event) (q : http_request) :
  let st := run (init fs) evs in
  In q (network st) → in_flight st q = true →
  Forall (λ ev, is_answer_to (req_promise q) ev = false) evs' →
  network (run st evs') = network st
  ∧ in_flight (run st evs') q = true.
Proof.
  intros st Hin Hfl Hevs. pose proof (reachable_inv fs evs) as HI. fold st in HI.
  destruct (flying_of_in_flight _ _ _ HI Hin Hfl) as (j & d1 & d2 & w & E).
  destruct (flight_kept_run _ evs' _ _ _ _ _ E Hevs) as (w' & E' & N').
  pose proof (inv_run _ _ evs' HI) as HI'. split.
  - by rewrite (inv_network _ _ HI'), N', (inv_network _ _ HI).
  - assert (Hr : promises (run st evs') !! req_promise q
                 = Some (Pending [resolve_rx (j_caller j) d1])).
    { eapply heap_has_lookup; [exact (inv_heap _ _ HI') |].
      unfold cells. rewrite E'. in_cells. }
    unfold in_flight. by rewrite Hr.
Qed.

Lemma outstanding_step (reply : pid → answer) (a : machine) :
  outstanding a ≠ 0 →
  ∃ ev, (ev = EvTick ∨ ∃ r, ev = answer_event r (reply r))
        ∧ outstanding (machine_step a ev) < outstanding a.
Proof.
  destruct a as [sh pre post dead anet anext]. unfold outstanding. simpl. intros Hne.
  destruct pre as [|i pre].
  - destruct (has_task sh) eqn:Htask.
    + exists EvTick. split; [by left |]. simpl. unfold tick_machine. simpl.
      rewrite Htask. unfold chain_tick. simpl.
      destruct sh as [v | j [v | r d1 d2 | d1 d2 [v | e] | d2 [v | e] | v] w];
        simpl in *; try done; rewrite ?app_nil_r, ?map_app, ?sum_list_append; try lia.
      * destruct (j_cont j); simpl; rewrite ?sum_list_append; simpl; lia.
      * destruct w as [|k w]; simpl; unfold job_weight; lia.
    + destruct post as [|i post].
      * destruct sh as [v | j [v | r d1 d2 | d1 d2 s | d2 s | v] w]; simpl in *; try done.
        exists (answer_event r (reply r)). split; [right; by eexists |].
        destruct (reply r); simpl; unfold settle_machine; simpl;
          rewrite Nat.eqb_refl; simpl; lia.
      * exists EvTick. split; [by left |]. simpl. unfold tick_machine. simpl.
        rewrite Htask. simpl. rewrite ?map_app, ?sum_list_append.
        destruct i as [k [v | e] | final s]; simpl; lia.
  - exists EvTick. split; [by left |]. simpl. unfold tick_machine. simpl.
    rewrite ?map_app, ?sum_list_append. simpl.
    destruct i as [k [v | e] | final s]; simpl; lia.
Qed.

Lemma machine_drains (reply : pid → answer) (n : nat) (a : machine) :
  outstanding a ≤ n →
  ∃ evs, Forall (λ ev, ev = EvTick ∨ ∃ r, ev = answer_event r (reply r)) evs
         ∧ outstanding (machine_run a evs) = 0.
Proof.
  revert a. induction n as [|n IH]; intros a Hn.
  - exists []. split; [constructor | simpl; lia].
  - destruct (decide (outstanding a = 0)) as [E | E].
    + exists []. by split; [constructor |].
    + destruct (outstanding_step reply a E) as (ev & Hev & Hlt).
      destruct (IH (machine_step a ev)) as (evs & Hevs & Hz); [lia |].
      exists (ev :: evs). split; [by constructor | done].
Qed.

(** X12: the queue never gets stuck: whatever the platform answers to each
    request (a response or an error), answering the request in flight and
    letting the event loop run brings the queue to rest, with every
    accepted request handed to the platform in the order of submission
    and no reaction left to run. *)
Theorem queue_drains (fs : gmap string value) (evs : list event)
    (reply : pid → answer) :
  ∃ evs',
    Forall (λ ev, ev = EvTick ∨ ∃ r, ev = answer_event r (reply r)) evs'
    ∧ let st := run (init fs) (evs ++ evs') in
      map request_sig (network st) = accepted evs
      ∧ microtasks st = []
      ∧ List.filter (in_flight st) (network st) = [].
Proof.
  destruct (machine_drains reply (outstanding (machine_run machine_init evs))
              (machine_run machine_init evs)) as (evs' & Hevs & Hz); [done |].
  exists evs'. split; [done |]. intros st.
  pose proof (reachable_inv fs (evs ++ evs')) as HI. fold st in HI.
  rewrite machine_run_app in HI.
  destruct (outstanding_zero _ Hz) as ([v Hsh] & Hpre & Hpost).
  split; [| split].
  - rewrite (inv_network _ _ HI). pose proof (fifo_run (evs ++ evs')) as Hf.
    rewrite machine_run_app in Hf. unfold fifo in Hf. rewrite Hsh in Hf. simpl in Hf.
    rewrite app_nil_r in Hf. rewrite Hf, accepted_app.
    rewrite (accepted_quiet cwd config_directory OutputFormat_values reply evs' Hevs).
    by rewrite app_nil_r.
  - rewrite (inv_tasks _ _ HI). unfold queue. by rewrite Hpre, Hpost, Hsh.
  - eapply no_flight_all_settled; [exact HI |]. by rewrite Hsh.
Qed.


(** ** Answers *)

(** X13: when the platform answers the request made for a caller with a
    response, and nothing else is queued in the event loop, the next tick
    resolves the promise that [convertToImage] returned to that caller
    with the concatenated chunks of the response, and nothing changes it
    afterwards. *)
Theorem response_resolves_caller (fs : gmap string value) (evs evs' : list event)
    (path payload : string) (r p d : pid) (chunks : list string) :
  let st := run (init fs) evs in
  In (mkRequest path payload r) (network st) →
  promises st !! r = Some (Pending [Reaction (Some (CbResolve p)) None d]) →
  microtasks st = [] →
  promises (run st (EvResponse r chunks :: EvTick :: evs')) !! p
  = Some (Settled (Fulfilled (VBuffer (String.concat "" chunks)))).
Proof.
  intros st Hin Hr Hq.
  pose proof (reachable_inv fs evs) as HI. fold st in HI.
  destruct (flight_identified _ _ (mkRequest path payload r) p d HI Hin Hr)
    as (j & d2 & w & Esh & Ep). simpl in Esh.
  assert (Hp : promises st !! p = Some (Pending (cont_rx (j_cont j)))).
  { eapply heap_has_lookup; [exact (inv_heap _ _ HI) |]. unfold cells.
    rewrite Esh, <- Ep. in_cells. }
  assert (Hne : p ≠ r).
  { intros ->. rewrite Hr in Hp. injection Hp as Hp. by destruct (j_cont j). }
  assert (Hiss : issued st r = true).
  { apply issued_elem. exists (mkRequest path payload r).
    split; [by apply list_elem_of_In | done]. }
  change (run st (EvResponse r chunks :: EvTick :: evs'))
    with (run (step (step st (EvResponse r chunks)) EvTick) evs').
  apply settled_run.
  set (buf := VBuffer (String.concat "" chunks)).
  assert (E1 : step st (EvResponse r chunks)
               = set_microtasks [(Reaction (Some (CbResolve p)) None d, Fulfilled buf)]
                   (set_promises (<[r := Settled (Fulfilled buf)]> (promises st)) st)).
  { simpl. rewrite Hiss, (settle_pending _ _ _ _ Hr). simpl. by rewrite Hq. }
  rewrite E1, step_tick. simpl. unfold run_reaction. simpl. unfold bind at 1.
  unfold bind at 1.
  match goal with |- context [settle p ?s ?st0] =>
    assert (Hs : promises (settle p s st0).2 !! p = Some (Settled s))
  end.
  { erewrite settle_pending; simpl.
    - apply list_lookup_insert_eq. rewrite length_insert. by eapply lookup_lt_Some.
    - rewrite list_lookup_insert_ne by done. exact Hp. }
  destruct (settle p _ _) as [[] st2]. simpl in *. by apply ps_settle.
Qed.

Lemma doomed_cont_pending (a : machine) (st : state) (p : pid) (k : cont) :
  Inv a st → doomed a p (Some k) →
  promises st !! k_saved k = Some (Pending [rethrow_rx (k_final k)])
  ∧ promises st !! k_final k = Some (Pending []).
Proof.
  intros HI Hd.
  assert (H : ∀ c, c ∈ cont_cells (Some k) → c ∈ cells a).
  { intros c Hc. destruct Hd as [Hd | (j & d1 & d2 & e & w & E & <- & Ek)]; unfold cells.
    - apply elem_of_app. left. apply list_elem_of_In, in_flat_map.
      exists (p, Some k). split; [by apply list_elem_of_In |].
      apply list_elem_of_In. unfold caller_cells. by right.
    - rewrite E. unfold shape_cells, phase_cells, caller_cells. rewrite Ek.
      rewrite !elem_of_app, elem_of_cons. auto 10. }
  split; (eapply heap_has_lookup; [exact (inv_heap _ _ HI) |]); apply H; simpl.
  - by left.
  - right. by left.
Qed.

(** X14: when the request made for an export fails, the export never ends:
    the promise that [convert] returned stays pending for ever, and so
    does the promise of the step that would have saved the image. *)
Theorem failed_export_never_settles (fs : gmap string value) (evs : list event)
    (path payload : string) (r p d saved : pid) (err : string)
    (save : bool) (file : string) :
  let st := run (init fs) evs in
  In (mkRequest path payload r) (network st) →
  promises st !! r = Some (Pending [Reaction (Some (CbResolve p)) None d]) →
  promises st !! p = Some (Pending [Reaction (Some (CbSave save file)) None saved]) →
  ∃ final,
    promises st !! saved = Some (Pending [Reaction None (Some CbRethrow) final])
    ∧ ∀ evs',
        let st' := run st (EvError r err :: evs') in
        promises st' !! p = Some (Pending [Reaction (Some (CbSave save file)) None saved])
        ∧ promises st' !! saved = Some (Pending [Reaction None (Some CbRethrow) final])
        ∧ promises st' !! final = Some (Pending []).
Proof.
  intros st Hin Hr Hp.
  pose proof (reachable_inv fs evs) as HI. fold st in HI.
  set (a := machine_run machine_init evs) in *.
  destruct (flight_identified _ _ (mkRequest path payload r) p d HI Hin Hr)
    as (j & d2 & w & Esh & Ep). simpl in Esh.
  assert (Hp' : promises st !! p = Some (Pending (cont_rx (j_cont j)))).
  { eapply heap_has_lookup; [exact (inv_heap _ _ HI) |]. unfold cells.
    rewrite Esh, <- Ep. in_cells. }
  rewrite Hp in Hp'. injection Hp' as Hk.
  destruct (j_cont j) as [k|] eqn:Ek; [| done]. simpl in Hk.
  injection Hk as Hsave Hfile Hsaved.
  assert (Hsv : promises st !! saved = Some (Pending [rethrow_rx (k_final k)])).
  { eapply heap_has_lookup; [exact (inv_heap _ _ HI) |]. unfold cells.
    rewrite Esh. simpl. rewrite Ek, Hsaved. simpl.
    rewrite !elem_of_app, !elem_of_cons. auto 10. }
  exists (k_final k). split; [exact Hsv |]. intros evs' st'.
  change st' with (run (step st (EvError r err)) evs').
  pose proof (inv_step _ _ (EvError r err) HI) as HI1.
  set (a1 := machine_step a (EvError r err)) in *.
  assert (Hd : doomed a1 p (Some k)).
  { right. subst a1. simpl. unfold settle_machine. rewrite Esh, Nat.eqb_refl. simpl.
    by exists j, d, d2, (VError err), w. }
  pose proof (inv_run _ _ evs' HI1) as HI'.
  pose proof (doomed_run cwd config_directory OutputFormat_values _ evs' _ _ Hd) as Hd'.
  destruct (doomed_cont_pending _ _ _ _ HI' Hd') as [H1 H2].
  rewrite (doomed_pending _ _ _ _ HI' Hd'). subst save file saved. done.
Qed.

End Drain.

Lemma settled_chain_all_issued_witness :
  let evs := [EvConvertToImage "@startuml" "svg"; EvTick; EvResponse 3 ["<svg/>"];
              EvTick; EvTick; EvTick] in
  let st := run "/work" "out" ["svg"; "png"] (init ∅) evs in
  promises st !! requestChain st = Some (Settled (Fulfilled VUndefined))
  ∧ map request_sig (network st) = [("/svg", "@startuml")]
  ∧ List.filter (in_flight st) (network st) = [].
Proof.
  split; [reflexivity |].
  apply (settled_chain_all_issued "/work" "out" ["svg"; "png"] ∅
           [EvConvertToImage "@startuml" "svg"; EvTick; EvResponse 3 ["<svg/>"];
            EvTick; EvTick; EvTick] (Fulfilled VUndefined)).
  reflexivity.
Defined.

Lemma unanswered_request_blocks_queue_witness :
  let evs := [EvConvertToImage "@startuml" "svg"; EvConvertToImage "@startuml" "png";
              EvTick] in
  let evs' := [EvTick; EvConvert "diagram.png" "@startuml"; EvResponse 4 ["x"];
               EvTick; EvTick] in
  let st := run "/work" "out" ["svg"; "png"] (init ∅) evs in
  In (mkRequest "/svg" "@startuml" 5) (network st)
  ∧ network (run "/work" "out" ["svg"; "png"] st evs')
    = [mkRequest "/svg" "@startuml" 5]
  ∧ in_flight (run "/work" "out" ["svg"; "png"] st evs') (mkRequest "/svg" "@startuml" 5)
    = true.
Proof.
  split; [by left |].
  apply (unanswered_request_blocks_queue "/work" "out" ["svg"; "png"] ∅
           [EvConvertToImage "@startuml" "svg"; EvConvertToImage "@startuml" "png";
            EvTick]
           [EvTick; EvConvert "diagram.png" "@startuml"; EvResponse 4 ["x"];
            EvTick; EvTick]
           (mkRequest "/svg" "@startuml" 5)).
  - by left.
  - reflexivity.
  - repeat constructor.
Defined.

Lemma response_resolves_caller_witness :
  let evs := [EvConvert "diagram.svg" "@startuml"; EvTick] in
  let st := run "/work" "out" ["svg"; "png"] (init ∅) evs in
  In (mkRequest "/svg" "@startuml" 5) (network st)
  ∧ promises (run "/work" "out" ["svg"; "png"] st
                [EvResponse 5 ["<svg>"; "</svg>"]; EvTick; EvTick; EvTick]) !! 1
    = Some (Settled (Fulfilled (VBuffer "<svg></svg>"))).
Proof.
  split; [by left |].
  apply (response_resolves_caller "/work" "out" ["svg"; "png"] ∅
           [EvConvert "diagram.svg" "@startuml"; EvTick] [EvTick; EvTick]
           "/svg" "@startuml" 5 1 6 ["<svg>"; "</svg>"]).
  - by left.
  - reflexivity.
  - reflexivity.
Defined.

Lemma failed_export_never_settles_witness :
  let evs := [EvConvert "diagram.svg" "@startuml"; EvTick] in
  let st := run "/work" "out" ["svg"; "png"] (init ∅) evs in
  In (mkRequest "/svg" "@startuml" 5) (network st)
  ∧ ∃ final,
      promises st !! 3 = Some (Pending [Reaction None (Some CbRethrow) final])
      ∧ ∀ evs',
          let st' := run "/work" "out" ["svg"; "png"] st
                       (EvError 5 "ETIMEDOUT" :: evs') in
          promises st' !! 1
          = Some (Pending [Reaction (Some (CbSave true "/work/out/diagram.svg")) None 3])
          ∧ promises st' !! 3 = Some (Pending [Reaction None (Some CbRethrow) final])
          ∧ promises st' !! final = Some (Pending []).
Proof.
  split; [by left |].
  apply (failed_export_never_settles "/work" "out" ["svg"; "png"] ∅
           [EvConvert "diagram.svg" "@startuml"; EvTick]
           "/svg" "@startuml" 5 1 6 3 "ETIMEDOUT" true "/work/out/diagram.svg").
  - by left.
  - reflexivity.
  - reflexivity.
Defined.

(** ** Running the export operation

    The promises that an operation allocates are appended to the store:
    the store is written [h ++ l], with [h] the promises that existed
    before and [l] the new ones. *)

Lemma lookup_app_plus {A} (h l : list A) (k : nat) : (h ++ l) !! (length h + k) = l !! k.
Proof. rewrite lookup_app_r by lia. f_equal. lia. Qed.

Lemma new_promise_at h l q c n lg f t :
  new_promise (mkState (h ++ l) q c n lg f t)
  = (length h + length l, mkState (h ++ (l ++ [Pending []])) q c n lg f t).
Proof. unfold new_promise, set_promises. simpl. by rewrite length_app, app_assoc. Qed.

Lemma settle_at h l q c n lg f t (k : nat) (s : settlement) :
  settle (length h + k) s (mkState (h ++ l) q c n lg f t)
  = match l !! k with
    | Some (Pending rs) =>
        (tt, mkState (h ++ <[k := Settled s]> l) (q ++ map (λ rx, (rx, s)) rs) c n lg f t)
    | _ => (tt, mkState (h ++ l) q c n lg f t)
    end.
Proof.
  unfold settle. simpl. rewrite lookup_app_plus.
  destruct (l !! k) as [[rs | s'] |]; try done.
  unfold set_microtasks, set_promises. simpl. by rewrite insert_app_r.
Qed.

Lemma subscribe_at h l q c n lg f t (k : nat) (rx : reaction) :
  subscribe (length h + k) rx (mkState (h ++ l) q c n lg f t)
  = match l !! k with
    | Some (Pending rs) =>
        (tt, mkState (h ++ <[k := Pending (rs ++ [rx])]> l) q c n lg f t)
    | Some (Settled s) => (tt, mkState (h ++ l) (q ++ [(rx, s)]) c n lg f t)
    | None => (tt, mkState (h ++ l) q c n lg f t)
    end.
Proof.
  unfold subscribe. simpl. rewrite lookup_app_plus.
  destruct (l !! k) as [[rs | s'] |]; try done.
  unfold set_promises. simpl. by rewrite insert_app_r.
Qed.



Lemma export_plan_Some cwd config_directory OutputFormat_values pathOrType format save file :
  export_plan cwd config_directory OutputFormat_values pathOrType = Some (format, save, file) →
  let ext := Path.extname (Path.resolve cwd [config_directory; pathOrType]) in
  JS.array_includes OutputFormat_values (JS.remove_first "." ext)
  || JS.array_includes OutputFormat_values pathOrType = true
  ∧ format = (if truthy_string ext then ext else pathOrType)
  ∧ save = JS.array_includes OutputFormat_values (JS.remove_first "." ext)
  ∧ file = Path.resolve cwd [config_directory; pathOrType].
Proof. unfold export_plan. destruct (_ || _); [| done]. by intros [= <- <- <-]. Qed.

Lemma delete_if_present (files : gmap string value) (file : string) :
  (if bool_decide (is_Some (files !! file)) then delete file files else files)
  = delete file files.
Proof.
  case_bool_decide as H; [done |]. symmetry. apply delete_id.
  by apply eq_None_not_Some.
Qed.



Ltac norm :=
  unfold set_promises, set_microtasks; simpl; rewrite <- ?app_assoc, ?length_app; simpl.






(** ** The format string of an export *)

Lemma resolve_collect_acc (l : list string) (acc : string) :
  ∃ X b, Path.resolve_collect l acc = ((X ++ acc)%string, b)
         ∧ (X = "" ∨ ∃ Y, X = (Y ++ "/")%string).
Proof.
  revert acc. induction l as [|p l IH]; intros acc; simpl.
  - exists "", false. split; [done | by left].
  - destruct (String.eqb p ""); [apply IH |].
    destruct (JS.startsWithChar Path.sep p).
    + exists (p ++ "/")%string, true. split; [by rewrite app_assoc_s | right; by exists p].
    + edestruct IH as (X & b & E & _). rewrite E.
      exists (X ++ p ++ "/")%string, b. split.
      * by rewrite !app_assoc_s.
      * right. exists (X ++ p)%string. by rewrite app_assoc_s.
Qed.

Lemma normalize_skip (b : bool) (S T acc : list string) :
  ∃ acc', Path.normalize_segs b acc (S ++ T) = Path.normalize_segs b acc' T.
Proof.
  revert acc. induction S as [|s S IH]; intros acc; [by exists acc |].
  simpl. destruct (String.eqb s "" || String.eqb s "."); [apply IH |].
  destruct (String.eqb s ".."); [| apply IH].
  destruct acc as [|top acc]; [destruct b; apply IH |].
  destruct (String.eqb top ".."); apply IH.
Qed.

Lemma plain_relative (p : string) : plain_name p → JS.startsWithChar Path.sep p = false.
Proof.
  intros (Hp & Hne & _). destruct p as [|c p]; [done |].
  apply Forall_cons in Hp as [Hc _]. simpl. by apply Ascii.eqb_neq.
Qed.

Lemma resolve_collect_plain (p : string) (rest : list string) (acc : string) :
  plain_name p →
  Path.resolve_collect (p :: rest) acc
  = Path.resolve_collect rest (p ++ String "/"%char acc)%string.
Proof.
  intros Hp. pose proof Hp as (_ & Hne%String.eqb_neq & _).
  simpl. by rewrite Hne, (plain_relative p Hp).
Qed.

Lemma last_split_plain (Z p : string) :
  no_sep p → (Z = "" ∨ ∃ W, Z = (W ++ "/")%string) →
  List.last (JS.split "/"%char (Z ++ p)) "" = p.
Proof.
  intros Hp [-> | (W & ->)].
  - rewrite app_nil_l_s. by rewrite (split_no_sep p Hp).
  - rewrite app_assoc_s. change ("/" ++ p)%string with (String "/"%char p).
    rewrite split_app_sep, (split_no_sep p Hp). apply last_last.
Qed.

(** The last segment of the resolved path of an export is the destination,
    when the destination is a plain name. *)
Lemma basename_resolve (cwd dir p : string) :
  plain_name p → Path.basename (Path.resolve cwd [dir; p]) = p.
Proof.
  intros Hp. pose proof Hp as (Hsep & Hne & Hd & Hdd).
  unfold Path.basename, Path.resolve.
  change (rev [cwd; dir; p]) with (p :: [dir; cwd]).
  rewrite (resolve_collect_plain p _ _ Hp).
  apply String.eqb_neq in Hne as Hne'.
  destruct (resolve_collect_acc [dir; cwd] (p ++ String "/"%char "")%string)
    as (X & b & E & HX).
  rewrite E. clear E.
  assert (HS : ∃ S, JS.split Path.sep (X ++ p ++ String "/"%char "") = S ++ [p; ""]).
  { unfold Path.sep. destruct HX as [-> | (Y & ->)].
    - exists []. rewrite app_nil_l_s, split_app_sep. by rewrite (split_no_sep p Hsep).
    - exists (JS.split "/"%char Y). rewrite app_assoc_s.
      change ("/" ++ p ++ String "/"%char "")%string
        with (String "/"%char (p ++ String "/"%char "")).
      rewrite !split_app_sep. by rewrite (split_no_sep p Hsep). }
  destruct HS as (S & ->).
  destruct (normalize_skip (negb b) S [p; ""] []) as (acc' & ->).
  apply String.eqb_neq in Hd as Hd', Hdd as Hdd'.
  simpl. rewrite Hne', Hd', Hdd'. simpl.
  set (K := rev acc').
  assert (HZ : ∃ Z, JS.join "/" (K ++ [p]) = (Z ++ p)%string
                    ∧ (Z = "" ∨ ∃ W, Z = (W ++ "/")%string)).
  { destruct (decide (K = [])) as [-> | HK].
    - exists "". split; [done | by left].
    - exists (JS.join "/" K ++ "/")%string. split.
      + rewrite join_snoc by done. by rewrite app_assoc_s.
      + right. by eexists. }
  destruct HZ as (Z & -> & HZ).
  unfold Path.sep. destruct b.
  - rewrite <- app_assoc_s. apply last_split_plain; [done |].
    right. destruct HZ as [-> | (W & ->)]; [by exists "" | by exists ("/" ++ W)%string].
  - assert (Hn : String.eqb (Z ++ p) "" = false).
    { apply String.eqb_neq. intros E. apply (f_equal String.length) in E.
      rewrite length_append in E. destruct p; [done | simpl in E; lia]. }
    rewrite Hn. by apply last_split_plain.
Qed.

Lemma last_dot_None (l : list ascii) (i : nat) :
  Forall (λ c, c ≠ "."%char) l → Path.last_dot l i = None.
Proof.
  revert i. induction l as [|c l IH]; intros i Hl; [done |].
  apply Forall_cons in Hl as [Hc Hl]. simpl.
  apply Ascii.eqb_neq in Hc. rewrite Hc. by apply IH.
Qed.




Lemma word_plain (f : string) : word_name f → plain_name f.
Proof.
  intros [Hlen Hw].
  split; [| by repeat split; intros ->; simpl in Hlen; lia].
  unfold no_sep. eapply Forall_impl; [exact Hw |].
  intros c Hc ->. done.
Qed.

Lemma word_no_dot (f : string) :
  word_name f → Forall (λ c, c ≠ "."%char) (JS.chars f).
Proof.
  intros [_ Hw]. eapply Forall_impl; [exact Hw |]. intros c Hc ->. done.
Qed.

(** A destination that is a format name has no extension. *)
Lemma extname_word (cwd dir f : string) :
  word_name f → Path.extname (Path.resolve cwd [dir; f]) = "".
Proof.
  intros Hf. unfold Path.extname.
  rewrite (basename_resolve cwd dir f (word_plain f Hf)).
  rewrite last_dot_None; [done |].
  apply List.Forall_rev. by apply word_no_dot.
Qed.


Lemma includes_elem (l : list string) (x : string) :
  JS.array_includes l x = true → x ∈ l.
Proof.
  unfold JS.array_includes. intros (y & Hy & E%String.eqb_eq)%existsb_exists.
  subst y. by apply list_elem_of_In.
Qed.



(** ** The continuation that saves the image *)

Lemma subscribe_existing h l q c n lg f t (p : pid) (rx : reaction) :
  p < length h →
  ∃ h' q',
    subscribe p rx (mkState (h ++ l) q c n lg f t) = (tt, mkState (h' ++ l) q' c n lg f t)
    ∧ length h' = length h.
Proof.
  intros Hp. unfold subscribe. simpl. rewrite lookup_app_l by done.
  destruct (h !! p) as [[rs | s] |] eqn:E.
  - exists (<[p := Pending (rs ++ [rx])]> h), q. split; [| by rewrite length_insert].
    unfold set_promises. simpl. by rewrite insert_app_l.
  - by exists h, (q ++ [(rx, s)]).
  - by exists h, q.
Qed.

Lemma lookup_app_length {A} (h l : list A) : (h ++ l) !! length h = l !! 0.
Proof. rewrite <- (lookup_app_plus h l 0). f_equal. lia. Qed.

Lemma convert_registers_save
    (cwd config_directory : string) (OutputFormat_values : list string)
    (pathOrType puml format file : string) (save : bool)
    h q c n lg f t :
  export_plan cwd config_directory OutputFormat_values pathOrType = Some (format, save, file) →
  c < length h →
  let r := convert cwd config_directory OutputFormat_values pathOrType puml
             (mkState h q c n lg f t) in
  ∃ saved,
    registered r.2 (length h) (Reaction (Some (CbSave save file)) None saved)
    ∧ promises r.2 !! saved = Some (Pending [Reaction None (Some CbRethrow) r.1]).
Proof.
  intros (Hplan & -> & -> & ->)%export_plan_Some Hc r. subst r.
  assert (E : mkState h q c n lg f t = mkState (h ++ []) q c n lg f t)
    by (by rewrite app_nil_r).
  rewrite E. clear E.
  unfold convert. rewrite Hplan.
  set (file := Path.resolve cwd [config_directory; pathOrType]) in *.
  set (ext := Path.extname file) in *.
  set (save := JS.array_includes OutputFormat_values (JS.remove_first "." ext)) in *.
  set (format := if truthy_string ext then ext else pathOrType) in *.
  unfold convertToImage, then_, catch_.
  unfold bind, existsSync, debug, unlinkSync, ret, get_requestChain, set_requestChain.
  simpl.
  destruct (bool_decide (is_Some (f !! file))); simpl;
    (destruct (JS.match_w3 format) as [m |]; norm).
  all: first
    [ match goal with
      | |- context [subscribe ?c' ?rx (mkState (?h0 ++ ?l) ?q0 ?c0 ?n0 ?lg0 ?f0 ?t0)] =>
          destruct (subscribe_existing h0 l q0 c0 n0 lg0 f0 t0 c' rx Hc)
            as (h' & q' & E & Hlen); rewrite E; clear E
      end;
      norm; rewrite <- Hlen; rewrite subscribe_at; norm; rewrite subscribe_at; norm;
      exists (length h' + 2); (split; [left; simpl; by rewrite lookup_app_length |]);
      by rewrite lookup_app_plus
    | rewrite settle_at; norm; rewrite subscribe_at; norm; rewrite subscribe_at; norm;
      eexists (_ + 1); (split; [| by rewrite lookup_app_plus]);
      right; simpl; rewrite lookup_app_length; simpl; by eexists _, _ ].
Qed.

Lemma settle_fs (p : pid) (s : settlement) (st : state) :
  fs_trace (settle p s st).2 = fs_trace st.
Proof. unfold settle. by repeat case_match. Qed.

Lemma save_reaction_fulfilled (save : bool) (file : string) (saved : pid)
    (image : value) (st : state) :
  fs_trace (run_reaction (Reaction (Some (CbSave save file)) None saved)
              (Fulfilled image) st).2
  = fs_trace st ++ (if save then [WriteFile file image] else []).
Proof.
  unfold run_reaction. simpl. unfold bind, debug, writeFileSync, ret.
  destruct save; simpl; rewrite settle_fs; simpl; [done | by rewrite app_nil_r].
Qed.

Lemma save_reaction_rejected (save : bool) (file : string) (saved : pid)
    (e : value) (st : state) :
  fs_trace (run_reaction (Reaction (Some (CbSave save file)) None saved)
              (Rejected e) st).2
  = fs_trace st.
Proof. unfold run_reaction. simpl. apply settle_fs. Qed.

(** No format name is empty, so a destination without extension is not
    saved. *)
Lemma includes_word_empty (values : list string) :
  Forall word_name values → JS.array_includes values "" = false.
Proof.
  intros H. unfold JS.array_includes.
  induction H as [|f values [Hlen _] _ IH]; [done |].
  destruct f; [simpl in Hlen; lia | exact IH].
Qed.

(** C6, as amended: an export to a destination at which a file exists
    deletes that file first, whatever the destination is.  For the
    diagram-source extension the delete is followed at once by one write
    of the diagram text; for an unrecognized destination no write
    follows; for an image destination no write is made during the call,
    and the call leaves exactly one continuation on the promise of the
    image, the first promise that the call creates: when the image
    arrives, the continuation makes one write of the image for a path
    with an image extension and none for a bare format keyword; when the
    conversion fails it writes nothing.  A bare format keyword is never
    saved when the format names are words. *)
Theorem export_deletes_existing_then_writes
    (cwd config_directory : string) (OutputFormat_values : list string)
    (pathOrType puml : string) (st : state) :
  let fullExportPath := Path.resolve cwd [config_directory; pathOrType] in
  let ext := Path.extname fullExportPath in
  let shouldConvertAndSave :=
    JS.array_includes OutputFormat_values (JS.remove_first "." ext) in
  let shouldConvertAndOutput := JS.array_includes OutputFormat_values pathOrType in
  let toImage := shouldConvertAndSave || shouldConvertAndOutput in
  let r := convert cwd config_directory OutputFormat_values pathOrType puml st in
  (existsSync fullExportPath st).1 = true →
  fs_trace r.2
  = fs_trace st ++
      (Unlink fullExportPath ::
         if toImage then []
         else if String.eqb ext ".puml"
              then [WriteFile fullExportPath (VString puml)]
              else [])
  ∧ (toImage = true → requestChain st < length (promises st) →
     ∃ saved,
       let rx := Reaction (Some (CbSave shouldConvertAndSave fullExportPath)) None saved in
       registered r.2 (length (promises st)) rx
       ∧ promises r.2 !! saved = Some (Pending [Reaction None (Some CbRethrow) r.1])
       ∧ (∀ (image : value) (st' : state),
            fs_trace (run_reaction rx (Fulfilled image) st').2
            = fs_trace st' ++
                (if shouldConvertAndSave then [WriteFile fullExportPath image] else []))
       ∧ (∀ (e : value) (st' : state),
            fs_trace (run_reaction rx (Rejected e) st').2 = fs_trace st'))
  ∧ (Forall word_name OutputFormat_values → shouldConvertAndOutput = true →
     shouldConvertAndSave = false).
Proof.
  intros fullExportPath ext shouldConvertAndSave shouldConvertAndOutput toImage r Hex.
  split; [| split].
  - subst r. unfold convert. fold fullExportPath. fold ext.
    fold shouldConvertAndSave. fold shouldConvertAndOutput. fold toImage.
    unfold existsSync in *. simpl in Hex.
    unfold bind, existsSync, debug, unlinkSync, writeFileSync, ret. rewrite Hex.
    destruct toImage.
    + match goal with |- context [convertToImage ?a ?b ?s] =>
        pose proof (convertToImage_fs a b s) as [Hc _];
        destruct (convertToImage a b s) as [image st1] end.
      match goal with |- context [then_ ?a ?b ?s] =>
        pose proof (then_fs a b s) as Ht;
        destruct (then_ a b s) as [saved st2] end.
      rewrite catch_fs. simpl in *. by rewrite Ht, Hc.
    + destruct (String.eqb ext ".puml"); rewrite promise_resolve_fs; simpl;
        [by rewrite <- app_assoc | done].
  - intros HtoImage Hchain. destruct st as [h q c n lg f t]. simpl in Hchain.
    destruct (convert_registers_save cwd config_directory OutputFormat_values pathOrType
                puml (if truthy_string ext then ext else pathOrType) fullExportPath
                shouldConvertAndSave h q c n lg f t) as (saved & Hreg & Hsaved).
    { unfold export_plan. fold fullExportPath. fold ext. fold shouldConvertAndSave.
      fold shouldConvertAndOutput. fold toImage. by rewrite HtoImage. }
    { done. }
    exists saved. split; [exact Hreg |]. split; [exact Hsaved |]. split.
    + apply save_reaction_fulfilled.
    + apply save_reaction_rejected.
  - intros Hvalues Hout. subst shouldConvertAndSave ext fullExportPath.
    apply includes_elem in Hout.
    assert (Hw : word_name pathOrType)
      by (eapply List.Forall_forall; [exact Hvalues | by apply list_elem_of_In]).
    rewrite (extname_word cwd config_directory pathOrType Hw). simpl.
    by apply includes_word_empty.
Qed.

Lemma export_deletes_existing_then_writes_witness :
  let st := init {[ "/work/out/diagram.svg" := VString "old" ]} in
  let r := convert "/work" "out" ["svg"; "png"] "diagram.svg" "@startuml" st in
  fs_trace r.2 = [Unlink "/work/out/diagram.svg"]
  ∧ ∃ saved,
      registered r.2 1 (Reaction (Some (CbSave true "/work/out/diagram.svg")) None saved)
      ∧ ∀ (image : value) (st' : state),
          fs_trace (run_reaction
                      (Reaction (Some (CbSave true "/work/out/diagram.svg")) None saved)
                      (Fulfilled image) st').2
          = fs_trace st' ++ [WriteFile "/work/out/diagram.svg" image].
Proof.
  pose proof (export_deletes_existing_then_writes "/work" "out" ["svg"; "png"]
                "diagram.svg" "@startuml"
                (init {[ "/work/out/diagram.svg" := VString "old" ]})) as H.
  cbv zeta in H. destruct H as (H1 & H2 & _); [by vm_compute |].
  split; [exact H1 |].
  destruct H2 as (saved & Hreg & _ & Hw & _); [by vm_compute | simpl; lia |].
  exists saved. split; [exact Hreg | exact Hw].
Defined.

(** ** The queue of one generator *)

Section Serialization.

Variable cwd : string.
Variable config_directory : string.
Variable OutputFormat_values : list string.

Local Abbreviation run := (run cwd config_directory OutputFormat_values).
Local Abbreviation machine_run := (machine_run cwd config_directory OutputFormat_values).
Local Abbreviation accepted := (accepted cwd config_directory OutputFormat_values).
Local Abbreviation reachable_inv :=
  (reachable_inv cwd config_directory OutputFormat_values).
Local Abbreviation fifo_run := (fifo_run cwd config_directory OutputFormat_values).
Local Abbreviation run_app := (run_app cwd config_directory OutputFormat_values).
Local Abbreviation machine_run_app :=
  (machine_run_app cwd config_directory OutputFormat_values).
Local Abbreviation accepted_app :=
  (accepted_app cwd config_directory OutputFormat_values).
Local Abbreviation machine_drains :=
  (machine_drains cwd config_directory OutputFormat_values).


End Serialization.


(** ** The files that the generator touches *)

Lemma frame_ret {A} D (a : A) : frame D (ret a).
Proof.
  intros st H. split; [done |]. split; [done |]. exists []. by rewrite app_nil_r.
Qed.

Lemma frame_bind {A B} D (m : M A) (k : A → M B) :
  frame D m → (∀ a, frame D (k a)) → frame D (bind m k).
Proof.
  intros Hm Hk st H. unfold bind. destruct (Hm st H) as (H1 & H2 & ops1 & H3 & H4).
  destruct (m st) as [a st1]. simpl in *.
  destruct (Hk a st1 H1) as (K1 & K2 & ops2 & K3 & K4).
  split; [done |]. split.
  - intros q Hq. by rewrite K2, H2.
  - exists (ops1 ++ ops2). split; [by rewrite K3, H3, app_assoc |].
    by apply Forall_app.
Qed.

(** Operations that leave files alone. *)
Lemma frame_quiet {A} D (m : M A) :
  (∀ st, saves_within D st → saves_within D (m st).2) →
  (∀ st, files (m st).2 = files st ∧ fs_trace (m st).2 = fs_trace st) →
  frame D m.
Proof.
  intros H1 H2 st H. destruct (H2 st) as [Hf Ht]. split; [by apply H1 |].
  split; [by intros; rewrite Hf |]. exists []. by rewrite app_nil_r.
Qed.

Lemma frame_new_promise D : frame D new_promise.
Proof.
  apply frame_quiet; [| done]. intros st [H1 H2]. split; [| done]. simpl.
  apply Forall_app. split; [done |]. by repeat constructor.
Qed.

Lemma frame_settle D (p : pid) (s : settlement) : frame D (settle p s).
Proof.
  apply frame_quiet.
  - intros st [H1 H2]. unfold settle.
    destruct (promises st !! p) as [[rs | s'] |] eqn:E; try done.
    split; simpl.
    + by apply Forall_insert.
    + apply Forall_app. split; [done |]. apply Forall_fmap.
      apply (Forall_lookup_1 _ _ _ _ H1) in E. exact E.
  - intros st. unfold settle. by destruct (promises st !! p) as [[rs | s'] |].
Qed.

Lemma frame_subscribe D (p : pid) (rx : reaction) :
  rx_within D rx → frame D (subscribe p rx).
Proof.
  intros Hrx. apply frame_quiet.
  - intros st [H1 H2]. unfold subscribe.
    destruct (promises st !! p) as [[rs | s'] |] eqn:E; try done.
    + split; [| done]. simpl. apply Forall_insert; [done |]. simpl.
      apply Forall_app. split; [| constructor; [done | constructor]].
      apply (Forall_lookup_1 _ _ _ _ H1) in E. exact E.
    + split; [done |]. simpl. apply Forall_app. split; [done |].
      constructor; [done | constructor].
  - intros st. unfold subscribe. by destruct (promises st !! p) as [[rs | s'] |].
Qed.

Lemma frame_same {A} D (m : M A) :
  (∀ st, promises (m st).2 = promises st ∧ microtasks (m st).2 = microtasks st
         ∧ files (m st).2 = files st ∧ fs_trace (m st).2 = fs_trace st) →
  frame D m.
Proof.
  intros H. apply frame_quiet.
  - intros st [H1 H2]. destruct (H st) as (E1 & E2 & _).
    unfold saves_within. by rewrite E1, E2.
  - intros st. by destruct (H st) as (_ & _ & ? & ?).
Qed.

Lemma frame_unlink D (path : string) : path ∈ D → frame D (unlinkSync path).
Proof.
  intros Hin st H. split; [done |]. split.
  - intros q Hq. simpl. apply lookup_delete_ne. by intros ->.
  - exists [Unlink path]. split; [done |]. by repeat constructor.
Qed.

Lemma frame_write D (path : string) (data : value) :
  path ∈ D → frame D (writeFileSync path data).
Proof.
  intros Hin st H. split; [done |]. split.
  - intros q Hq. simpl. apply lookup_insert_ne. by intros ->.
  - exists [WriteFile path data]. split; [done |]. by repeat constructor.
Qed.

Lemma rx_within_plain D (f g : option callback) (d : pid) :
  callback_within D f → callback_within D g → rx_within D (Reaction f g d).
Proof. by split. Qed.

Lemma callback_within_None D : callback_within D None.
Proof. by intros b path. Qed.

Ltac cbw :=
  match goal with
  | |- callback_within _ None => apply callback_within_None
  | |- callback_within _ (Some _) => intros ? ? [= ]
  end.

Ltac fr :=
  repeat first
    [ apply frame_ret | apply frame_new_promise | apply frame_settle
    | apply frame_subscribe; apply rx_within_plain; cbw
    | solve [apply frame_same; intros ?; done]
    | apply frame_bind; [| intros ?]
    | match goal with
      | |- frame _ (if ?b then _ else _) => destruct b
      | |- frame _ (match ?x with _ => _ end) => destruct x
      end ].

Lemma frame_convertToImage D (puml format : string) : frame D (convertToImage puml format).
Proof. unfold convertToImage, then_. fr. Qed.

Lemma frame_run_callback D (cb : callback) (arg : value) :
  callback_within D (Some cb) → frame D (run_callback cb arg).
Proof.
  intros Hcb. destruct cb as [format puml caller | caller | | save path |]; simpl.
  - unfold request, then_, catch_. fr.
  - fr.
  - fr.
  - assert (Hin : path ∈ D) by (by eapply Hcb).
    apply frame_bind; [| intros ?; fr].
    destruct save; [| fr]. apply frame_bind; [fr | intros ?]. by apply frame_write.
  - fr.
Qed.

Lemma frame_run_reaction D (rx : reaction) (s : settlement) :
  rx_within D rx → frame D (run_reaction rx s).
Proof.
  intros [Hf Hr]. unfold run_reaction.
  destruct s as [v | e].
  - destruct (on_fulfilled rx) as [cb|]; [| fr].
    apply frame_bind; [by apply frame_run_callback | intros o]. fr.
  - destruct (on_rejected rx) as [cb|]; [| fr].
    apply frame_bind; [by apply frame_run_callback | intros o]. fr.
Qed.

Lemma frame_convert D (cwd config_directory : string) (OutputFormat_values : list string)
    (pathOrType puml : string) :
  Path.resolve cwd [config_directory; pathOrType] ∈ D →
  frame D (convert cwd config_directory OutputFormat_values pathOrType puml).
Proof.
  intros Hin. unfold convert.
  apply frame_bind; [fr | intros present].
  apply frame_bind.
  { destruct present; [| fr]. apply frame_bind; [fr | intros ?]. by apply frame_unlink. }
  intros _. destruct (_ || _).
  - apply frame_bind; [fr | intros _].
    apply frame_bind; [apply frame_convertToImage | intros image].
    unfold then_, catch_.
    apply frame_bind.
    { apply frame_bind; [fr | intros d]. apply frame_bind; [| intros ?; fr].
      apply frame_subscribe. apply rx_within_plain; [| cbw].
      intros b path [= _ <-]. exact Hin. }
    intros saved. fr.
  - apply frame_bind.
    { destruct (String.eqb _ _); [| fr]. apply frame_bind; [fr | intros ?].
      by apply frame_write. }
    intros _. unfold promise_resolve. fr.
Qed.

Lemma saves_within_init D (fs : gmap string value) : saves_within D (init fs).
Proof. split; simpl; by repeat constructor. Qed.

Lemma frame_step (cwd config_directory : string) (OutputFormat_values : list string)
    D (st : state) (ev : event) :
  (∀ p, p ∈ destinations cwd config_directory [ev] → p ∈ D) →
  saves_within D st →
  let st' := step cwd config_directory OutputFormat_values st ev in
  saves_within D st'
  ∧ (∀ q, q ∉ D → files st' !! q = files st !! q)
  ∧ ∃ ops, fs_trace st' = fs_trace st ++ ops ∧ Forall (λ op, op_path op ∈ D) ops.
Proof.
  intros HD H.
  assert (Hid : saves_within D st
                ∧ (∀ q, q ∉ D → files st !! q = files st !! q)
                ∧ ∃ ops, fs_trace st = fs_trace st ++ ops
                         ∧ Forall (λ op, op_path op ∈ D) ops).
  { split; [done |]. split; [done |]. exists []. by rewrite app_nil_r. }
  destruct ev as [pathOrType puml | puml format | | r chunks | r err]; simpl.
  - apply frame_convert; [| done]. apply HD. simpl. by left.
  - by apply frame_convertToImage.
  - destruct (microtasks st) as [|[rx s] rest] eqn:E; [done |].
    destruct H as [H1 H2]. rewrite E in H2. apply Forall_cons in H2 as [Hrx H2].
    apply (frame_run_reaction D rx s Hrx (set_microtasks rest st)). by split.
  - destruct (issued st r); [| done]. by apply frame_settle.
  - destruct (issued st r); [| done]. by apply frame_settle.
Qed.

(** X18: the generator touches the file system at the resolved destinations of
    the exports only: every delete and every write, during the exports and
    in the reactions that run later, is made at one of them, and every
    other file is as it was when the process started. *)
Theorem only_destinations_are_touched
    (cwd config_directory : string) (OutputFormat_values : list string)
    (fs : gmap string value) (evs : list event) :
  let D := destinations cwd config_directory evs in
  let st := run cwd config_directory OutputFormat_values (init fs) evs in
  Forall (λ op, op_path op ∈ D) (fs_trace st)
  ∧ ∀ q, q ∉ D → files st !! q = fs !! q.
Proof.
  intros D st.
  assert (H : ∀ evs0 st0,
            (∀ p, p ∈ destinations cwd config_directory evs0 → p ∈ D) →
            saves_within D st0 → Forall (λ op, op_path op ∈ D) (fs_trace st0) →
            let st1 := run cwd config_directory OutputFormat_values st0 evs0 in
            Forall (λ op, op_path op ∈ D) (fs_trace st1)
            ∧ ∀ q, q ∉ D → files st1 !! q = files st0 !! q).
  { induction evs0 as [|ev evs0 IH]; intros st0 HD Hs Ht; [done |].
    destruct (frame_step cwd config_directory OutputFormat_values D st0 ev)
      as (K1 & K2 & ops & K3 & K4); [| done |].
    { intros p Hp. apply HD. unfold destinations in *. simpl in *.
      rewrite app_nil_r in Hp. apply elem_of_app. by left. }
    destruct (IH (step cwd config_directory OutputFormat_values st0 ev))
      as [L1 L2]; [| done | |].
    { intros p Hp. apply HD. unfold destinations in *. simpl.
      apply elem_of_app. by right. }
    { rewrite K3. by apply Forall_app. }
    split; [exact L1 |]. intros q Hq. simpl. by rewrite L2, K2. }
  apply (H evs (init fs)); [done | apply saves_within_init | constructor].
Qed.

(** ** The run over the outputs *)

Section GenerateProperties.

Variable cwd : string.
Variable config_directory : string.
Variable OutputFormat_values : list string.
Variable Components : Type.
Variable generateComponents : OutputSchema → Components.
Variable resolveConflictingComponentNames : Components → Components.
Variable sortComponentsByName : Components → Components.
Variable generateLayers : OutputSchema → Components → Layers.

Lemma exportEvents_cons (output : ConfiguredOutput) (rest : list ConfiguredOutput) :
  exportEvents cwd Components generateComponents resolveConflictingComponentNames
    sortComponentsByName generateLayers (output :: rest)
  = map (λ d, EvConvert d
                (outputText cwd Components generateComponents
                   resolveConflictingComponentNames sortComponentsByName generateLayers
                   output))
        (outputDestinations output)
    ++ exportEvents cwd Components generateComponents resolveConflictingComponentNames
         sortComponentsByName generateLayers rest.
Proof. reflexivity. Qed.

Lemma exportEvents_elem (outputs : list ConfiguredOutput) (output : ConfiguredOutput)
    (d : string) :
  output ∈ outputs → d ∈ outputDestinations output →
  EvConvert d (outputText cwd Components generateComponents
                 resolveConflictingComponentNames sortComponentsByName generateLayers
                 output)
  ∈ exportEvents cwd Components generateComponents resolveConflictingComponentNames
      sortComponentsByName generateLayers outputs.
Proof.
  intros Hin Hd. unfold exportEvents.
  apply list_elem_of_In, in_flat_map. exists output.
  split; [by apply list_elem_of_In |].
  apply (in_map (λ d, EvConvert d _)). by apply list_elem_of_In.
Qed.

Local Abbreviation run := (run cwd config_directory OutputFormat_values).
Local Abbreviation convert := (convert cwd config_directory OutputFormat_values).
Local Abbreviation outputText :=
  (outputText cwd Components generateComponents resolveConflictingComponentNames
     sortComponentsByName generateLayers).
Local Abbreviation pushExports := (pushExports cwd config_directory OutputFormat_values).
Local Abbreviation generateExports :=
  (generateExports cwd config_directory OutputFormat_values Components generateComponents
     resolveConflictingComponentNames sortComponentsByName generateLayers).
Local Abbreviation exportEvents :=
  (exportEvents cwd Components generateComponents resolveConflictingComponentNames
     sortComponentsByName generateLayers).

Lemma pushExports_run (puml : string) (outputPaths : list string) (promises : list pid)
    (st : state) :
  (pushExports puml outputPaths promises st).2
  = run st (map (λ d, EvConvert d puml) outputPaths)
  ∧ length (pushExports puml outputPaths promises st).1
    = length promises + length outputPaths.
Proof.
  revert promises st. induction outputPaths as [|d rest IH]; intros promises st.
  - simpl. split; [done | lia].
  - simpl. unfold bind.
    destruct (convert d puml st) as [p st1] eqn:E.
    destruct (IH (promises ++ [p]) st1) as [H1 H2].
    assert (Est : st1 = step cwd config_directory OutputFormat_values st (EvConvert d puml)).
    { simpl. by rewrite E. }
    rewrite H1, H2, Est, length_app. split; [done | simpl; lia].
Qed.

Lemma generateExports_run (outputs : list ConfiguredOutput) (promises : list pid)
    (st : state) :
  (generateExports outputs promises st).2 = run st (exportEvents outputs)
  ∧ length (generateExports outputs promises st).1
    = length promises + length (exportEvents outputs).
Proof.
  revert promises st. induction outputs as [|output rest IH]; intros promises st.
  - simpl. split; [done | lia].
  - rewrite exportEvents_cons. unfold outputDestinations. simpl. unfold bind.
    destruct (path_given (output_path output)).
    + destruct (pushExports_run (outputText output) (array (output_path output))
                  promises st) as [H1 H2].
      destruct (pushExports _ _ _ st) as [ps st1]. simpl in H1, H2.
      destruct (IH ps st1) as [K1 K2].
      rewrite K1, K2, H1, H2, length_app, length_map.
      rewrite (run_app cwd config_directory OutputFormat_values). split; [done | lia].
    + destruct (convert "svg" (outputText output) st) as [p st1] eqn:E.
      destruct (IH (promises ++ [p]) st1) as [K1 K2].
      unfold ret. rewrite K1, K2, length_app. simpl. rewrite E. simpl.
      split; [done | lia].
Qed.

(** X19: [generate] submits the exports of the configuration one after another,
    in the order of the outputs and, within an output, of its
    destinations, each with the diagram text of its output followed by
    the attribution comment; an output without destination (no path, an
    empty string or an empty array) is exported once, as [svg].  One
    promise is collected per export. *)
Theorem generate_submits_exports_in_order (outputs : list ConfiguredOutput) (st : state) :
  let r := generateExports outputs [] st in
  r.2 = run st (exportEvents outputs)
  ∧ length r.1 = length (exportEvents outputs)
  ∧ ∀ output, output ∈ outputs →
      outputDestinations output ≠ []
      ∧ (path_given (output_path output) = false → outputDestinations output = ["svg"])
      ∧ ∀ d, d ∈ outputDestinations output →
          EvConvert d (outputText output) ∈ exportEvents outputs.
Proof.
  intros r. subst r. destruct (generateExports_run outputs [] st) as [H1 H2].
  split; [done |]. split; [done |]. intros output Hin. split; [| split].
  - unfold outputDestinations.
    destruct (output_path output) as [|s|l]; simpl; [done | |].
    + by destruct (String.length s).
    + by destruct l.
  - unfold outputDestinations. by intros ->.
  - intros d Hd. by apply exportEvents_elem.
Qed.

End GenerateProperties.
